(** * cache-manager-dynamodb: a shallow embedding of the DynamoDB cache store

    The development follows the layout of the repository:
    - [utils.ts] (later split into [utils/item.ts], [utils/input.ts] and
      [utils/backoff.ts]): the key codec, the pattern check, the expiration
      test and the request builders;
    - [store.ts]: the [DynamoDBStore] methods, written over a small state and
      error monad whose state holds the DynamoDB client, the list of commands
      sent so far, and the number of clock readings taken. *)

From Stdlib Require Import ZArith Lia Ascii String DecimalString.
From Stdlib Require Decimal DecimalZ DecimalFacts.
From stdpp Require Import base option list strings gmap fin_maps.

Local Open Scope Z_scope.
Local Open Scope string_scope.

(** ** JavaScript strings

    Cache keys are JavaScript strings; the characters the code inspects are
    the two reserved ASCII characters, so a string is a list of [ascii]. *)

Module Js.

Definition startsWith (s : string) (c : ascii) : bool :=
  match s with
  | EmptyString => false
  | String a _ => bool_decide (a = c)
  end.

Fixpoint endsWith (s : string) (c : ascii) : bool :=
  match s with
  | EmptyString => false
  | String a EmptyString => bool_decide (a = c)
  | String _ r => endsWith r c
  end.

(** [s.split(c)] for a one-character separator: always at least one
    segment, and [k + 1] segments when [c] occurs [k] times. *)
Fixpoint split (c : ascii) (s : string) : list string :=
  match s with
  | EmptyString => [EmptyString]
  | String a r =>
      if bool_decide (a = c) then EmptyString :: split c r
      else match split c r with
           | [] => [String a EmptyString]
           | seg :: segs => String a seg :: segs
           end
  end.

(** [s.replace(c, '')]: only the first occurrence is removed. *)
Fixpoint eraseFirst (c : ascii) (s : string) : string :=
  match s with
  | EmptyString => EmptyString
  | String a r => if bool_decide (a = c) then r else String a (eraseFirst c r)
  end.

(** Number of occurrences of a character. *)
Fixpoint count (c : ascii) (s : string) : nat :=
  match s with
  | EmptyString => 0%nat
  | String a r => ((if bool_decide (a = c) then 1 else 0) + count c r)%nat
  end.

(** [segs.join(c)]. *)
Fixpoint join (c : ascii) (segs : list string) : string :=
  match segs with
  | [] => EmptyString
  | [seg] => seg
  | seg :: rest => seg +:+ String c (join c rest)
  end.

(** Truthiness of a string: the empty string is falsy. *)
Definition truthy (s : string) : bool :=
  match s with EmptyString => false | _ => true end.

(** Truthiness of an optional string ([undefined] is falsy). *)
Definition truthy_opt (s : option string) : bool :=
  match s with Some s => truthy s | None => false end.

Definition isDigit (a : ascii) : bool :=
  let n := nat_of_ascii a in ((48 <=? n) && (n <=? 57))%nat.

Definition digitVal (a : ascii) : Z := Z.of_nat (nat_of_ascii a) - 48.

(** ECMAScript white space that can be written in ASCII. *)
Definition isSpace (a : ascii) : bool :=
  let n := nat_of_ascii a in
  ((n =? 32) || ((9 <=? n) && (n <=? 13)))%nat.

Fixpoint skipSpaces (s : string) : string :=
  match s with
  | String a r => if isSpace a then skipSpaces r else s
  | EmptyString => s
  end.

(** Longest prefix of decimal digits, read most significant first;
    [None] when the prefix is empty. *)
Fixpoint digits (acc : option Z) (s : string) : option Z :=
  match s with
  | String a r =>
      if isDigit a
      then digits (Some (10 * default 0 acc + digitVal a)) r
      else acc
  | EmptyString => acc
  end.

(** [parseInt(s, 10)]; [None] is [NaN]. *)
Definition parseInt (s : string) : option Z :=
  match skipSpaces s with
  | String "-" r => Z.opp <$> digits None r
  | String "+" r => digits None r
  | r => digits None r
  end.

(** [n.toString()] for an integer [n], in plain digits: what JavaScript
    prints below 1e21, so for every safe integer; from there on it prints
    an exponent. *)
Definition toString (n : Z) : string :=
  NilZero.string_of_int (Z.to_int n).

End Js.


(** ** Values

    [AttributeValue] is the provider's typed scalar ([{S: ...}], [{N: ...}],
    ...).  [deserializeKey] can build [{S: undefined}], so the [S] member is
    optional.  A record ([Record<string, AttributeValue>]) is a finite map
    from attribute names. *)

#[local] Unset Elimination Schemes.

Inductive AttributeValue : Type :=
| AttrS (s : option string)
| AttrN (n : string)
| AttrBOOL (b : bool)
| AttrNULL
| AttrL (l : list AttributeValue)
| AttrM (m : list (string * AttributeValue)).

Abbreviation Item := (gmap string AttributeValue).

(** Application values, as [unmarshall] produces them and [marshall]
    consumes them.  A number is kept as its decimal literal: the code never
    computes with an unmarshalled number, it only reads properties of it. *)
Inductive JsValue : Type :=
| JsUndefined
| JsNull
| JsBool (b : bool)
| JsNumber (literal : string)
| JsString (s : string)
| JsArray (l : list JsValue)
| JsObject (m : list (string * JsValue)).

#[local] Set Elimination Schemes.

Abbreviation JsRecord := (gmap string JsValue).

(** Errors that the code throws or lets through. *)
Inductive JsError : Type :=
| Error (message : string)
| TypeError (message : string)
| UnprocessedDataException
| ServiceException (name : string).

(** Outcome of a call that may throw. *)
Inductive Res (A : Type) : Type :=
| Ok (a : A)
| Throw (e : JsError).
Arguments Ok {A} a.
Arguments Throw {A} e.

Definition res_bind {A B} (r : Res A) (k : A → Res B) : Res B :=
  match r with Ok a => k a | Throw e => Throw e end.

Definition res_map {A B} (f : A → B) (r : Res A) : Res B :=
  match r with Ok a => Ok (f a) | Throw e => Throw e end.

(** [xs.map(f)] where [f] may throw: the first throw aborts the map. *)
Fixpoint res_mapM {A B} (f : A → Res B) (xs : list A) : Res (list B) :=
  match xs with
  | [] => Ok []
  | x :: r =>
      res_bind (f x) (λ y, res_bind (res_mapM f r) (λ ys, Ok (y :: ys)))
  end.

(** *** The attribute codec of [@aws-sdk/util-dynamodb]

    Modelled from the library's documented behaviour: [unmarshall] turns
    [{N: "1"}] into the number [1], [{S: "a"}] into the string ["a"],
    [{M: ...}] into an object and [{L: ...}] into an array (the tests expect
    [{M: {a: {N: "1"}}}] to come back as [{a: 1}]); an attribute whose member
    is [undefined] is rejected.  [marshall] is the converse and rejects
    [undefined]. *)
Module Codec.

Definition noValue : JsError := Error "No value defined".
Definition undefinedValue : JsError :=
  Error "Pass options.removeUndefinedValues=true to remove undefined values from map/array/set.".

Fixpoint convertToNative (v : AttributeValue) : Res JsValue :=
  match v with
  | AttrS (Some s) => Ok (JsString s)
  | AttrS None => Throw noValue
  | AttrN n => Ok (JsNumber n)
  | AttrBOOL b => Ok (JsBool b)
  | AttrNULL => Ok JsNull
  | AttrL l =>
      res_map JsArray
        ((fix go (l : list AttributeValue) : Res (list JsValue) :=
            match l with
            | [] => Ok []
            | x :: r =>
                res_bind (convertToNative x)
                  (λ y, res_bind (go r) (λ ys, Ok (y :: ys)))
            end) l)
  | AttrM m =>
      res_map JsObject
        ((fix go (m : list (string * AttributeValue))
            : Res (list (string * JsValue)) :=
            match m with
            | [] => Ok []
            | (k, x) :: r =>
                res_bind (convertToNative x)
                  (λ y, res_bind (go r) (λ ys, Ok ((k, y) :: ys)))
            end) m)
  end.

Fixpoint convertToAttr (v : JsValue) : Res AttributeValue :=
  match v with
  | JsUndefined => Throw undefinedValue
  | JsNull => Ok AttrNULL
  | JsBool b => Ok (AttrBOOL b)
  | JsNumber n => Ok (AttrN n)
  | JsString s => Ok (AttrS (Some s))
  | JsArray l =>
      res_map AttrL
        ((fix go (l : list JsValue) : Res (list AttributeValue) :=
            match l with
            | [] => Ok []
            | x :: r =>
                res_bind (convertToAttr x)
                  (λ y, res_bind (go r) (λ ys, Ok (y :: ys)))
            end) l)
  | JsObject m =>
      res_map AttrM
        ((fix go (m : list (string * JsValue))
            : Res (list (string * AttributeValue)) :=
            match m with
            | [] => Ok []
            | (k, x) :: r =>
                res_bind (convertToAttr x)
                  (λ y, res_bind (go r) (λ ys, Ok ((k, y) :: ys)))
            end) m)
  end.

Definition okValue {A} (r : Res A) : option A :=
  match r with Ok a => Some a | Throw _ => None end.

(** Convert every member of a record.  Each conversion can fail with one
    error only, which is the error of the whole when some member fails. *)
Definition convertRecord {A B} (f : A → Res B) (err : JsError)
    (m : gmap string A) : Res (gmap string B) :=
  if bool_decide (map_Forall (λ _ v, is_Some (okValue (f v))) m)
  then Ok (omap (λ v, okValue (f v)) m)
  else Throw err.

Definition unmarshall (item : Item) : Res JsRecord :=
  convertRecord convertToNative noValue item.

Definition marshall (data : JsRecord) : Res Item :=
  convertRecord convertToAttr undefinedValue data.

End Codec.

(** ** Configuration ([types.ts]) *)

Record Keys : Type := mkKeys {
  pk : string;
  sk : option string;
  ex : string
}.

Record Config : Type := mkConfig {
  table : string;
  keys : Keys;
  ttl : option Z;                       (* default TTL, milliseconds *)
  meta : option (JsValue → JsRecord)    (* metadata derived from a value *)
}.

(** ** [utils.ts]: key codec, pattern check, expiration *)

Definition DELIMITER : ascii := "+"%char.
Definition MASK : ascii := "*"%char.

(** [Math.round(ms / 1000)] on an integer number of milliseconds:
    [Math.round] rounds halves upwards. *)
Definition msToS (ms : Z) : Z := (ms + 500) `div` 1000.

(** Property reads.  Reading a member of [undefined] throws a [TypeError];
    reading an absent member of an object gives [undefined]. *)
Definition readOf (what : string) : JsError :=
  TypeError ("Cannot read properties of undefined (reading '" +:+ what +:+ "')").

Definition memberS (a : option AttributeValue) : Res (option string) :=
  match a with
  | None => Throw (readOf "S")
  | Some (AttrS s) => Ok s
  | Some _ => Ok None
  end.

Definition memberN (a : option AttributeValue) : Res (option string) :=
  match a with
  | None => Throw (readOf "N")
  | Some (AttrN n) => Ok (Some n)
  | Some _ => Ok None
  end.

(** [`${pk}${DELIMITER}${sk}`]; an [undefined] partition value is printed as
    the word [undefined]. *)
Definition template (pk : option string) (sk : string) : string :=
  default "undefined" pk +:+ String DELIMITER sk.

Definition serializeKey (item : Item) (config : Config) : Res (option string) :=
  res_bind (memberS (item !! pk (keys config))) (λ pkv,
  res_bind (memberS (item !! default EmptyString (sk (keys config)))) (λ skv,
    Ok (match skv with
        | Some s => if Js.truthy s then Some (template pkv s) else pkv
        | None => pkv
        end))).

Definition unsupportedKey : JsError := Error "Unsupported cache key".

(** The TypeScript signature admits only strings, so the [typeof] test of
    the guard is true by typing; the two other tests are kept. *)
Definition deserializeKey (key : string) (config : Config) : Res Item :=
  if negb (Js.truthy key) || Js.startsWith key DELIMITER
  then Throw unsupportedKey
  else
    let segs := Js.split DELIMITER key in
    let dbKey : Item := {[ pk (keys config) := AttrS (segs !! 0%nat) ]} in
    Ok (if Js.truthy_opt (sk (keys config))
        then <[ default EmptyString (sk (keys config)) := AttrS (segs !! 1%nat) ]> dbKey
        else dbKey).

Definition quote : string := String (ascii_of_nat 34) EmptyString.

Definition badPattern : JsError :=
  Error ("Bad key pattern provided. Possible value " +:+ quote +:+ "bar+fo*" +:+ quote).

(** [undefined] and the empty string are both falsy, so both pass. *)
Definition validateKeyPattern (pattern : option string) : Res unit :=
  if negb (Js.truthy_opt pattern) then Ok tt
  else
    let p := default EmptyString pattern in
    let isValid :=
      Js.endsWith p MASK
      && bool_decide (length (Js.split MASK p) < 3)%nat
      && bool_decide (length (Js.split DELIMITER p) = 2%nat) in
    if isValid then Ok tt else Throw badPattern.

Definition eraseMask (pattern : string) : string := Js.eraseFirst MASK pattern.

(** *** Dynamic property reads

    [isExpired] is declared on [Record<string, AttributeValue>] but the store
    hands it the result of [unmarshall]; what it computes is decided by the
    JavaScript object it receives.  It is therefore defined on JavaScript
    records, and [attrAsJs] gives the object that an attribute is. *)

Fixpoint attrAsJs (v : AttributeValue) : JsValue :=
  match v with
  | AttrS (Some s) => JsObject [("S", JsString s)]
  | AttrS None => JsObject [("S", JsUndefined)]
  | AttrN n => JsObject [("N", JsString n)]
  | AttrBOOL b => JsObject [("BOOL", JsBool b)]
  | AttrNULL => JsObject [("NULL", JsBool true)]
  | AttrL l => JsObject [("L", JsArray (map attrAsJs l))]
  | AttrM m => JsObject [("M", JsObject (map (λ kv, (kv.1, attrAsJs kv.2)) m))]
  end.

Fixpoint assoc {A} (name : string) (m : list (string * A)) : option A :=
  match m with
  | [] => None
  | (k, v) :: r => if bool_decide (k = name) then Some v else assoc name r
  end.

(** [v.N] for a value [v] read out of a record ([None]: the record has no
    such entry, so [v] is [undefined]).  Numbers, strings, booleans and
    arrays have no member [N]. *)
Definition readN (v : option JsValue) : Res JsValue :=
  match v with
  | None | Some JsUndefined | Some JsNull => Throw (readOf "N")
  | Some (JsObject m) => Ok (default JsUndefined (assoc "N" m))
  | Some _ => Ok JsUndefined
  end.

(** The string that [parseInt] makes of its argument. *)
Fixpoint jsToString (v : JsValue) : string :=
  match v with
  | JsUndefined => "undefined"
  | JsNull => "null"
  | JsBool b => if b then "true" else "false"
  | JsNumber literal => literal
  | JsString s => s
  | JsArray l =>
      Js.join ","
        (map (λ x, match x with
                   | JsUndefined | JsNull => EmptyString
                   | _ => jsToString x
                   end) l)
  | JsObject _ => "[object Object]"
  end.

(** [expiresAt * 1000 < now]; a comparison with [NaN] is false. *)
Definition expiredAt (expiresAt : option Z) (now : Z) : bool :=
  match expiresAt with
  | Some e => bool_decide (e * 1000 < now)
  | None => false
  end.

(** ** Requests and responses

    The request builders return plain objects; one record with optional
    members stands for them.  The members whose value is a fixed [NONE]
    ([ReturnValues], [ReturnConsumedCapacity], [ReturnItemCollectionMetrics])
    carry no information and are left out. *)

Inductive WriteRequest : Type :=
| PutRequest (item : Item)
| DeleteRequest (key : Item).

Inductive RequestItems : Type :=
| ReadRequests (m : gmap string (list Item))          (* {table: {Keys}} *)
| WriteRequests (m : gmap string (list WriteRequest)). (* {table: [...]} *)

Record Input : Type := mkInput {
  TableName : option string;
  Key : option Item;
  PutItem : option Item;                                    (* [Item] *)
  BatchItems : option RequestItems;                         (* [RequestItems] *)
  ExpressionAttributeNames : option (gmap string (option string));
  ExpressionAttributeValues : option (gmap string (option AttributeValue));
  ProjectionExpression : option string;
  KeyConditionExpression : option string;
  UpdateExpression : option string;
  ExclusiveStartKey : option Item
}.

Definition emptyInput : Input :=
  mkInput None None None None None None None None None None.

Inductive CommandKind : Type :=
| GetItemCommand | PutItemCommand | DeleteItemCommand
| BatchGetItemCommand | BatchWriteItemCommand
| UpdateItemCommand | ScanCommand | QueryCommand.

Record Command : Type := mkCommand {
  kind : CommandKind;
  input : Input
}.

Record Response : Type := mkResponse {
  RItem : option Item;                                       (* [Item] *)
  Responses : option (gmap string (list Item));
  UnprocessedKeys : option (gmap string (list Item));
  UnprocessedItems : option (gmap string (list WriteRequest));
  Items : option (list Item);
  LastEvaluatedKey : option Item
}.

Definition emptyResponse : Response :=
  mkResponse None None None None None None.

(** *** Builders that do not read the clock *)

Definition buildGetInput (key : string) (config : Config) : Res Input :=
  res_map (λ k, mkInput (Some (table config)) (Some k)
                  None None None None None None None None)
    (deserializeKey key config).

Definition buildDelInput (key : string) (config : Config) : Res Input :=
  res_map (λ k, mkInput (Some (table config)) (Some k)
                  None None None None None None None None)
    (deserializeKey key config).

(** [config.unprocessed || {[config.table]: {Keys: keys.map(...)}}]: the
    right operand is evaluated only when no remainder is supplied. *)
Definition buildMGetInput (keys : list string) (config : Config)
    (unprocessed : option (gmap string (list Item))) : Res Input :=
  res_map (λ r, mkInput None None None (Some (ReadRequests r))
                  None None None None None None)
    match unprocessed with
    | Some u => Ok u
    | None =>
        res_map (λ ks, {[ table config := ks ]})
          (res_mapM (λ key, deserializeKey key config) keys)
    end.

Definition buildMDelInput (keys : list string) (config : Config)
    (unprocessed : option (gmap string (list WriteRequest))) : Res Input :=
  res_map (λ r, mkInput None None None (Some (WriteRequests r))
                  None None None None None None)
    match unprocessed with
    | Some u => Ok u
    | None =>
        res_map (λ ks, {[ table config := DeleteRequest <$> ks ]})
          (res_mapM (λ key, deserializeKey key config) keys)
    end.

Definition keyNames (config : Config) : gmap string (option string) :=
  <[ "#sk" := sk (keys config) ]> {[ "#pk" := Some (pk (keys config)) ]}.

Definition projection (config : Config) : string :=
  if Js.truthy_opt (sk (keys config)) then "#pk, #sk" else "#pk".

Definition buildScanKeysInput (cursor : option Item) (config : Config) : Input :=
  mkInput (Some (table config)) None None None
    (Some (keyNames config)) None (Some (projection config)) None None cursor.

(** [key[config.keys.sk]] with an absent sort field reads the member named
    [undefined]. *)
Definition buildQueryKeysInput (pattern : string) (cursor : option Item)
    (config : Config) : Res Input :=
  res_map (λ key : Item,
    let pkv := key !! pk (keys config) in
    let skv := key !! default "undefined" (sk (keys config)) in
    mkInput (Some (table config)) None None None
      (Some (keyNames config))
      (Some (<[ ":sk" := skv ]> {[ ":pk" := pkv ]}))
      (Some (projection config))
      (Some "#pk = :pk and begins_with(#sk, :sk)")
      None cursor)
    (deserializeKey (eraseMask pattern) config).

Definition buildTTLInput (key : string) (config : Config) : Res Input :=
  res_map (λ k, mkInput (Some (table config)) (Some k) None None
                  (Some {[ "#ex" := Some (ex (keys config)) ]})
                  None (Some "#ex") None None None)
    (deserializeKey key config).

(** The command of one turn of [keys]: a query when a pattern is given, a
    scan otherwise. *)
Definition keysCommand (config : Config) (pattern : option string)
    (cursor : option Item) : Res Command :=
  if Js.truthy_opt pattern
  then res_map (mkCommand QueryCommand)
         (buildQueryKeysInput (default EmptyString pattern) cursor config)
  else Ok (mkCommand ScanCommand (buildScanKeysInput cursor config)).

(** [lodash.chunk]: consecutive slices of [size] elements, the last one
    possibly shorter; nothing for an empty array or a size below 1. *)
Fixpoint chunkFrom {A} (fuel size : nat) (l : list A) : list (list A) :=
  match fuel, l with
  | O, _ | _, [] => []
  | S fuel', _ => take size l :: chunkFrom fuel' size (drop size l)
  end.

Definition chunk {A} (l : list A) (size : nat) : list (list A) :=
  match size with
  | O => []
  | _ => chunkFrom (length l) size l
  end.

(** ** The store ([store.ts])

    The methods run in a world made of the DynamoDB client, the commands
    sent so far with the outcome of each, and the number of clock readings
    taken.  The client is an arbitrary state machine, so that it can stand
    for a table as well as for a scripted mock; [clock n] is what the
    [n]-th call of [Date.now()] returns.  [console.log] is not modelled. *)

Section Store.

Context {Client : Type}.
Variable send : Client → Command → Client * Res Response.
Variable clock : nat → Z.

Record World : Type := mkWorld {
  client : Client;
  sent : list (Command * Res Response);
  reads : nat
}.

Definition M (A : Type) : Type := World → Res A * World.

Definition ret {A} (a : A) : M A := λ w, (Ok a, w).

Definition lift {A} (r : Res A) : M A := λ w, (r, w).

Definition bind {A B} (m : M A) (k : A → M B) : M B :=
  λ w, match m w with
       | (Ok a, w') => k a w'
       | (Throw e, w') => (Throw e, w')
       end.

Notation "'let*' x ':=' m 'in' k" := (bind m (λ x, k))
  (at level 10, x name, m at level 100, k at level 200).

(** A [try] around [m]: the throw becomes a value, the effects stay. *)
Definition attempt {A} (m : M A) : M (Res A) :=
  λ w, let '(r, w') := m w in (Ok r, w').

Fixpoint mapM {A B} (f : A → M B) (xs : list A) : M (list B) :=
  match xs with
  | [] => ret []
  | x :: r => let* y := f x in let* ys := mapM f r in ret (y :: ys)
  end.

Definition DateNow : M Z :=
  λ w, (Ok (clock (reads w)), mkWorld (client w) (sent w) (S (reads w))).

(** [client.send(command)]: the call is made at once and recorded; the
    promise it returns settles later, with the outcome kept here. *)
Definition clientSend (command : Command) : M (Res Response) :=
  λ w, let '(c, r) := send (client w) command in
       (Ok r, mkWorld c (sent w ++ [(command, r)])%list (reads w)).

(** [await client.send(command)]. *)
Definition sendAwait (command : Command) : M Response :=
  let* promise := clientSend command in lift promise.

(** *** Builders that read the clock *)

Definition isExpired (record : JsRecord) (config : Config) : M bool :=
  let* n := lift (readN (record !! ex (keys config))) in
  let expiresAt := Js.parseInt (jsToString n) in
  let* now := DateNow in
  ret (expiredAt expiresAt now).

Definition expiresAtOf (ttl : Z) : M string :=
  let* now := DateNow in ret (Js.toString (msToS (now + ttl))).

(** [{...data, ...deserializeKey(key, config), [config.keys.ex]: {N}}] *)
Definition buildItem (key : string) (data : Item) (config : Config)
    (ttl : Z) : M Item :=
  let* expiresAt := expiresAtOf ttl in
  let* dbKey := lift (deserializeKey key config) in
  ret (<[ ex (keys config) := AttrN expiresAt ]> (dbKey ∪ data)).

Definition buildSetInput (key : string) (data : Item) (config : Config)
    (ttl : Z) : M Input :=
  let* item := buildItem key data config ttl in
  ret (mkInput (Some (table config)) None (Some item)
         None None None None None None None).

(** The items are built before the remainder is looked at. *)
Definition buildMSetInput (args : list (string * Item)) (config : Config)
    (ttl : Z) (unprocessed : option (gmap string (list WriteRequest)))
    : M Input :=
  let* items :=
    mapM (λ kd, let* item := buildItem kd.1 kd.2 config ttl in
                ret (PutRequest item)) args in
  ret (mkInput None None None
         (Some (WriteRequests
                  (default {[ table config := items ]} unprocessed)))
         None None None None None None).

Definition buildTouchInput (key : string) (config : Config) (ttl : Z)
    : M Input :=
  let* expiresAt := expiresAtOf ttl in
  let* dbKey := lift (deserializeKey key config) in
  ret (mkInput (Some (table config)) (Some dbKey) None None
         (Some {[ "#ex" := Some (ex (keys config)) ]})
         (Some {[ ":ex" := Some (AttrN expiresAt) ]})
         None None (Some "set #ex = :ex") None).

(** *** Promises

    An [async] arrow runs until its first [await] when it is called; a
    throw in that part gives a promise that is already rejected.  The
    promises of the client settle in the order of the calls. *)

Inductive Promise (A : Type) : Type :=
| Rejected (e : JsError)
| Settles (r : Res A).
Arguments Rejected {A} e.
Arguments Settles {A} r.

Definition outcome {A} (p : Promise A) : Res A :=
  match p with Rejected e => Throw e | Settles r => r end.

Fixpoint firstRejected {A} (ps : list (Promise A)) : option JsError :=
  match ps with
  | [] => None
  | Rejected e :: _ => Some e
  | Settles _ :: r => firstRejected r
  end.

(** [await Promise.all(ps)]: the first rejection wins, and a promise that
    was rejected from the start comes before any that settles later. *)
Definition promiseAll {A} (ps : list (Promise A)) : Res (list A) :=
  match firstRejected ps with
  | Some e => Throw e
  | None => res_mapM outcome ps
  end.

(** [xs.map(async (x) => { const r = await client.send(prefix(x));
    return rest(x, r); })]: every arrow is started, in order, before any
    of them resumes. *)
Definition started {X} (prefix : X → M Command) (x : X)
    : M (X * Res (Res Response)) :=
  let* s := attempt (let* command := prefix x in clientSend command) in
  ret (x, s).

Definition resumed {X A} (rest : X → Response → M A)
    (s : X * Res (Res Response)) : M (Promise A) :=
  match s.2 with
  | Throw e => ret (Rejected e)
  | Ok (Throw e) => ret (Settles (Throw e))
  | Ok (Ok response) =>
      let* r := attempt (rest s.1 response) in ret (Settles r)
  end.

Definition asyncMap {X A} (prefix : X → M Command)
    (rest : X → Response → M A) (xs : list X) : M (list (Promise A)) :=
  let* ss := mapM (started prefix) xs in
  mapM (resumed rest) ss.

(** *** Methods

    [keys] and [ttl] are [keysOf] and [ttlOf] here, the short names being
    those of the configuration's members. *)

Definition defaultTtl : Z := 60000.

(** [ttl || this.config.ttl || DynamoDBStore.defaultTtl]: an absent or
    zero operand is falsy. *)
Definition orElse (a : option Z) (b : Z) : Z :=
  match a with
  | Some z => if bool_decide (z = 0) then b else z
  | None => b
  end.

Definition effectiveTtl (config : Config) (ttlArg : option Z) : Z :=
  orElse ttlArg (orElse (ttl config) defaultTtl).

(** [{ data, ...meta }] *)
Definition withMeta (config : Config) (data : JsValue) : JsRecord :=
  match meta config with
  | Some f => f data ∪ {[ "data" := data ]}
  | None => {[ "data" := data ]}
  end.

Definition dataOf (item : JsRecord) : JsValue :=
  default JsUndefined (item !! "data").

(** [isExpired(item, config) ? undefined : item.data] *)
Definition liveData (config : Config) (attrs : Item) : M JsValue :=
  let* item := lift (Codec.unmarshall attrs) in
  let* expired := isExpired item config in
  ret (if expired then JsUndefined else dataOf item).

Definition get (config : Config) (key : string) : M JsValue :=
  let* input := lift (buildGetInput key config) in
  let* response := sendAwait (mkCommand GetItemCommand input) in
  match RItem response with
  | None => ret JsUndefined
  | Some attrs => liveData config attrs
  end.

Definition set (config : Config) (key : string) (data : JsValue)
    (ttlArg : option Z) : M unit :=
  let* attrs := lift (Codec.marshall (withMeta config data)) in
  let* input := buildSetInput key attrs config (effectiveTtl config ttlArg) in
  let* _ := sendAwait (mkCommand PutItemCommand input) in
  ret tt.

Definition del (config : Config) (key : string) : M unit :=
  let* input := lift (buildDelInput key config) in
  let* _ := sendAwait (mkCommand DeleteItemCommand input) in
  ret tt.

(** [items.reduce((acc, item) => { acc[serializeKey(item)] = item; ... }, {})]:
    a later item replaces an earlier one with the same key, and an
    [undefined] key is the property named [undefined]. *)
Fixpoint byKey (config : Config) (acc : gmap string Item)
    (items : list Item) : Res (gmap string Item) :=
  match items with
  | [] => Ok acc
  | item :: r =>
      res_bind (serializeKey item config) (λ key,
        byKey config (<[ default "undefined" key := item ]> acc) r)
  end.

Definition mgetPrefix (config : Config) (keys : list string) : M Command :=
  let* input := lift (buildMGetInput keys config None) in
  ret (mkCommand BatchGetItemCommand input).

Definition mgetRest (config : Config) (keys : list string)
    (response : Response) : M (list JsValue) :=
  let items := default [] (Responses response ≫= (.!! table config)) in
  let* map := lift (byKey config ∅ items) in
  mapM (λ key, match map !! key with
               | None => ret JsUndefined
               | Some attrs => liveData config attrs
               end) keys.

Definition mget (config : Config) (args : list string) : M (list JsValue) :=
  let chunks := chunk args 100 in
  let* promises := asyncMap (mgetPrefix config) (mgetRest config) chunks in
  let* items := lift (promiseAll promises) in
  ret (concat items).

Definition msetPrefix (config : Config) (ttlArg : option Z)
    (values : list (string * JsValue)) : M Command :=
  let* args :=
    lift (res_mapM (λ kd, res_map (pair kd.1)
                            (Codec.marshall (withMeta config kd.2))) values) in
  let* input := buildMSetInput args config (effectiveTtl config ttlArg) None in
  ret (mkCommand BatchWriteItemCommand input).

Definition mset (config : Config) (args : list (string * JsValue))
    (ttlArg : option Z) : M unit :=
  let chunks := chunk args 25 in
  let* promises :=
    asyncMap (msetPrefix config ttlArg) (λ _ responses, ret responses) chunks in
  let* _ := lift (promiseAll promises) in
  ret tt.

(** The arrow of [mdel] is not [async]: a throw while building the input
    leaves [chunks.map] at once. *)
Definition mdelArrow (config : Config) (ks : list string)
    : M (Promise Response) :=
  let* input := lift (buildMDelInput ks config None) in
  let* promise := clientSend (mkCommand BatchWriteItemCommand input) in
  ret (Settles promise).

Definition mdel (config : Config) (args : list string) : M unit :=
  let chunks := chunk args 25 in
  let* promises := mapM (mdelArrow config) chunks in
  let* _ := lift (promiseAll promises) in
  ret tt.

(** One turn of the [do ... while (!!cursor)] loop per unit of fuel;
    [None] when the fuel runs out before the provider stops returning a
    cursor. *)
Fixpoint keysLoop (fuel : nat) (config : Config) (pattern : option string)
    (cursor : option Item) (found : list (option string))
    : M (option (list (option string))) :=
  match fuel with
  | O => ret None
  | S fuel' =>
      let* command := lift (keysCommand config pattern cursor) in
      let* response := sendAwait command in
      let* serialized :=
        lift (res_mapM (λ item, serializeKey item config)
                (default [] (Items response))) in
      let found' := (found ++ serialized)%list in
      match LastEvaluatedKey response with
      | Some c => keysLoop fuel' config pattern (Some c) found'
      | None => ret (Some found')
      end
  end.

Definition keysOf (fuel : nat) (config : Config) (pattern : option string)
    : M (option (list (option string))) :=
  let* _ := lift (validateKeyPattern pattern) in
  keysLoop fuel config pattern None [].

(** [expiresAt ? parseInt(expiresAt, 10) * 1000 - Date.now() : -1];
    [None] is [NaN]. *)
Definition ttlOf (config : Config) (key : string) : M (option Z) :=
  let* input := lift (buildTTLInput key config) in
  let* response := sendAwait (mkCommand GetItemCommand input) in
  let* expiresAt :=
    match RItem response with
    | None => ret None
    | Some attrs => lift (memberN (attrs !! ex (keys config)))
    end in
  if Js.truthy_opt expiresAt
  then let seconds := Js.parseInt (default EmptyString expiresAt) in
       let* now := DateNow in
       ret ((λ s, s * 1000 - now) <$> seconds)
  else ret (Some (-1)).

Definition touch (config : Config) (key : string) (ttlArg : option Z)
    : M unit :=
  let* input := buildTouchInput key config (effectiveTtl config ttlArg) in
  let* _ := sendAwait (mkCommand UpdateItemCommand input) in
  ret tt.

(** [reset]: the keys that [keys()] returns are handed to [mdel]; a key
    that is [undefined] fails the guard of [deserializeKey] as the empty
    string does.  [None] when the loop of [keys] runs out of fuel. *)
Definition reset (fuel : nat) (config : Config) : M (option unit) :=
  let* found := keysOf fuel config None in
  match found with
  | None => ret None
  | Some ks =>
      let* _ := mdel config (default EmptyString <$> ks) in ret (Some tt)
  end.

End Store.

Arguments Rejected {A} e.
Arguments Settles {A} r.

(** ** The retry helper ([utils/backoff.ts])

    [backoff(request, options)] calls [backOff] of the [exponential-backoff]
    package with a [retry] predicate that accepts only
    [UnprocessedDataException].

    The package is a dependency, not part of the repository; the loop
    below is what its documentation describes (the request is attempted at
    most [numOfAttempts] times, 10 by default and at least 1; after a failed
    attempt the predicate decides whether another one is made), without the
    delays.  The unit tests of the helper fix the same behaviour. *)

Module Backoff.
Section Backoff.

Context {W A : Type}.

(** A request is a computation over some world [W]. *)
Variable request : W → Res A * W.

Definition retry (err : JsError) : bool :=
  match err with UnprocessedDataException => true | _ => false end.

(** [more] is the number of attempts still allowed after this one. *)
Fixpoint attempts (more : nat) (w : W) : Res A * W :=
  match request w with
  | (Ok a, w') => (Ok a, w')
  | (Throw err, w') =>
      match more with
      | S n => if retry err then attempts n w' else (Throw err, w')
      | O => (Throw err, w')
      end
  end.

Definition defaultAttempts : nat := 10.

Definition backoff (numOfAttempts : option nat) (w : W) : Res A * W :=
  attempts (Nat.max 1 (default defaultAttempts numOfAttempts) - 1) w.

End Backoff.
End Backoff.

(** ** A reference provider

    The database is an external service; this is a reference model of it,
    used where a statement speaks of what is stored.  A table is a list of
    rows identified by the string values of the table's key attributes; the
    commands are answered as the service documents them, for the
    expressions that the request builders produce, in a single page and
    with nothing left unprocessed.  A batch that names a key twice, which
    the service refuses, is answered here key by key. *)

Module DynamoDB.

Record Table : Type := mkTable {
  keyAttributes : list string;
  rows : list Item
}.

Definition stringOf (a : option AttributeValue) : option string :=
  match a with Some (AttrS s) => s | _ => None end.

Definition keyOf (names : list string) (item : Item) : list (option string) :=
  (λ n, stringOf (item !! n)) <$> names.

Definition sameKey (names : list string) (a b : Item) : bool :=
  bool_decide (keyOf names a = keyOf names b).

Fixpoint lookupRow (names : list string) (k : Item) (rs : list Item)
    : option Item :=
  match rs with
  | [] => None
  | r :: rs' => if sameKey names k r then Some r else lookupRow names k rs'
  end.

Fixpoint alterRow (names : list string) (k : Item) (f : Item → Item)
    (rs : list Item) : option (list Item) :=
  match rs with
  | [] => None
  | r :: rs' =>
      if sameKey names k r then Some (f r :: rs')
      else cons r <$> alterRow names k f rs'
  end.

Definition removeRow (names : list string) (k : Item) (rs : list Item)
    : list Item :=
  filter (λ r, sameKey names k r = false) rs.

Definition putRow (names : list string) (item : Item) (rs : list Item)
    : list Item :=
  default (rs ++ [item])%list (alterRow names item (λ _, item) rs).

(** [set #name = :value] on the row of a key; the row is created when the
    table has none. *)
Definition upsert (names : list string) (k : Item) (name : string)
    (value : AttributeValue) (rs : list Item) : list Item :=
  default (rs ++ [<[ name := value ]> k])%list
    (alterRow names k (insert name value) rs).

(** [ProjectionExpression]: the attributes named by the placeholders. *)
Definition project (input : Input) (row : Item) : Item :=
  match ProjectionExpression input with
  | None => row
  | Some _ =>
      let wanted := (map_to_list (default ∅ (ExpressionAttributeNames input))).*2 in
      filter (λ kv, Some kv.1 ∈ wanted) row
  end.

Definition validation : JsError := ServiceException "ValidationException".

Definition write (names : list string) (rs : list Item) (w : WriteRequest)
    : list Item :=
  match w with
  | PutRequest item => putRow names item rs
  | DeleteRequest k => removeRow names k rs
  end.

(** [#pk = :pk and begins_with(#sk, :sk)] *)
Definition matches (pkName pkv skName skv : string) (r : Item) : bool :=
  bool_decide (stringOf (r !! pkName) = Some pkv)
  && match stringOf (r !! skName) with
     | Some s => String.prefix skv s
     | None => false
     end.

Definition found (names : list string) (rs : list Item) (ks : list Item)
    : list Item :=
  omap (λ k, lookupRow names k rs) ks.

Definition valueOf (vs : gmap string (option AttributeValue))
    (placeholder : string) : option string :=
  match vs !! placeholder with
  | Some v => stringOf v
  | None => None
  end.

Definition send (t : Table) (command : Command) : Table * Res Response :=
  let names := keyAttributes t in
  let i := input command in
  match kind command with
  | GetItemCommand =>
      match Key i with
      | Some k =>
          (t, Ok (mkResponse (option_map (project i) (lookupRow names k (rows t)))
                    None None None None None))
      | None => (t, Throw validation)
      end
  | PutItemCommand =>
      match PutItem i with
      | Some item => (mkTable names (putRow names item (rows t)), Ok emptyResponse)
      | None => (t, Throw validation)
      end
  | DeleteItemCommand =>
      match Key i with
      | Some k => (mkTable names (removeRow names k (rows t)), Ok emptyResponse)
      | None => (t, Throw validation)
      end
  | UpdateItemCommand =>
      match Key i,
            default ∅ (ExpressionAttributeNames i) !! "#ex",
            default ∅ (ExpressionAttributeValues i) !! ":ex" with
      | Some k, Some (Some name), Some (Some value) =>
          if bool_decide (UpdateExpression i = Some "set #ex = :ex")
          then (mkTable names (upsert names k name value (rows t)),
                Ok emptyResponse)
          else (t, Throw validation)
      | _, _, _ => (t, Throw validation)
      end
  | BatchGetItemCommand =>
      match BatchItems i with
      | Some (ReadRequests m) =>
          (t, Ok (mkResponse None
                    (Some (found names (rows t) <$> m))
                    (Some ∅) None None None))
      | _ => (t, Throw validation)
      end
  | BatchWriteItemCommand =>
      match BatchItems i with
      | Some (WriteRequests m) =>
          (mkTable names
             (foldl (write names) (rows t) (concat (map_to_list m).*2)),
           Ok (mkResponse None None None (Some ∅) None None))
      | _ => (t, Throw validation)
      end
  | ScanCommand =>
      (t, Ok (mkResponse None None None None
                (Some (map (project i) (rows t))) None))
  | QueryCommand =>
      let ns := default ∅ (ExpressionAttributeNames i) in
      let vs := default ∅ (ExpressionAttributeValues i) in
      match ns !! "#pk", ns !! "#sk",
            valueOf vs ":pk", valueOf vs ":sk" with
      | Some (Some pkName), Some (Some skName), Some pkv, Some skv =>
          (t, Ok (mkResponse None None None None
                    (Some (map (project i)
                       (filter (λ r, matches pkName pkv skName skv r = true)
                          (rows t))))
                    None))
      | _, _, _, _ => (t, Throw validation)
      end
  end.

End DynamoDB.

(** ** The claims in the words of the specification

    These definitions follow the specification, not the code; they are what
    the code is compared with. *)

Module Spec.

(** A valid logical key: non-empty, not starting with the delimiter. *)
Definition validKey (k : string) : Prop :=
  k ≠ EmptyString ∧ Js.startsWith k DELIMITER = false.

(** A schema with a sort field. *)
Definition hasSortField (config : Config) : Prop :=
  ∃ name, sk (keys config) = Some name ∧ name ≠ EmptyString.

(** [encode(decode(k))] *)
Definition roundTrip (k : string) (config : Config) : Res (option string) :=
  res_bind (deserializeKey k config) (λ sKey, serializeKey sKey config).

(** Number of mask characters that the pattern ends with. *)
Fixpoint trailingMasks (p : string) : nat :=
  match p with
  | EmptyString => 0%nat
  | String a r =>
      if bool_decide (a = MASK) && bool_decide (Js.count MASK r = String.length r)
      then S (String.length r)
      else trailingMasks r
  end.

(** The validity rule as the specification words it. *)
Definition validPattern (p : string) : bool :=
  bool_decide (trailingMasks p = 1%nat)
  && bool_decide (Js.count DELIMITER p = 1%nat)
  && bool_decide (Js.count MASK p ≤ 2)%nat.

(** [entry.expiresAt * 1000 < now], read off the stored record. *)
Definition isExpired (record : Item) (config : Config) (now : Z) : bool :=
  match record !! ex (keys config) with
  | Some (AttrN n) => expiredAt (Js.parseInt n) now
  | _ => false
  end.

End Spec.

(** Value of a decimal numeral whose digits are read after [acc]. *)
Fixpoint numeral (d : Decimal.uint) (acc : Z) : Z :=
  match d with
  | Decimal.Nil => acc
  | Decimal.D0 r => numeral r (10 * acc)
  | Decimal.D1 r => numeral r (10 * acc + 1)
  | Decimal.D2 r => numeral r (10 * acc + 2)
  | Decimal.D3 r => numeral r (10 * acc + 3)
  | Decimal.D4 r => numeral r (10 * acc + 4)
  | Decimal.D5 r => numeral r (10 * acc + 5)
  | Decimal.D6 r => numeral r (10 * acc + 6)
  | Decimal.D7 r => numeral r (10 * acc + 7)
  | Decimal.D8 r => numeral r (10 * acc + 8)
  | Decimal.D9 r => numeral r (10 * acc + 9)
  end.

(** ** Vocabulary for the statements about batches *)

(** [m] neither calls the client nor touches the record of calls. *)
Definition quiet {Client A} (m : @M Client A) : Prop :=
  ∀ w, client (m w).2 = client w ∧ sent (m w).2 = sent w.

(** The call that [client.send(command)] makes in world [w]. *)
Definition callOf {Client} (send : Client → Command → Client * Res Response)
    (w : World) (command : Command) : Command * Res Response :=
  (command, (send (client w) command).2).

(** Number of keys or write requests that a batch command carries. *)
Definition batchSize (command : Command) : nat :=
  match BatchItems (input command) with
  | Some (ReadRequests m) => sum_list (length <$> (map_to_list m).*2)
  | Some (WriteRequests m) => sum_list (length <$> (map_to_list m).*2)
  | None => 0
  end.

(** The command that a chunk of [mget], or of [mset] and [mdel], sends. *)
Definition readsChunk (ks : list string) (command : Command) : Prop :=
  kind command = BatchGetItemCommand ∧ batchSize command = length ks.

Definition writesChunk {X} (xs : list X) (command : Command) : Prop :=
  kind command = BatchWriteItemCommand ∧ batchSize command = length xs.

Definition settles {A} (p : Promise A) : Prop := ∃ r, p = Settles r.

(** The promise of a chunk whose call raised is rejected with that error. *)
Definition answered {A} (call : Command * Res Response) (p : Promise A) : Prop :=
  ∃ r, p = Settles r ∧ ∀ e, call.2 = Throw e → r = Throw e.

(** [e] is the error of the first promise that is rejected. *)
Definition firstFailure {A} (ps : list (Promise A)) (e : JsError) : Prop :=
  ∃ i, ps !! i = Some (Settles (Throw e))
       ∧ ∀ j, (j < i)%nat → ∃ a, ps !! j = Some (Settles (Ok a)).

(** An entry that [mset] can store: a valid key and a value that [marshall]
    accepts. *)
Definition storable (config : Config) (kd : string * JsValue) : Prop :=
  Spec.validKey kd.1
  ∧ ∃ attrs, Codec.marshall (withMeta config kd.2) = Ok attrs.

(** [Number.isSafeInteger]: the integers that JavaScript numbers hold
    exactly, and that [toString] prints in plain digits. *)
Definition safeInteger (n : Z) : Prop :=
  (- 9007199254740991 ≤ n ≤ 9007199254740991)%Z.

(** A segment of a key: a non-empty string free of the delimiter. *)
Definition plain (s : string) : Prop :=
  s ≠ EmptyString ∧ Js.count DELIMITER s = 0%nat.

(** A key made of a partition segment and a sort segment. *)
Definition compositeKey (key : string) : Prop :=
  ∃ a b, key = a +:+ String DELIMITER b ∧ plain a ∧ plain b.

(** A row whose expiration attribute is a number, as the store writes it. *)
Definition timed (config : Config) (row : Item) : Prop :=
  ∃ n, row !! ex (keys config) = Some (AttrN n).

(** A row whose key attributes are plain segments. *)
Definition keyed (config : Config) (row : Item) : Prop :=
  ∃ a b,
    row !! pk (keys config) = Some (AttrS (Some a))
    ∧ row !! default EmptyString (sk (keys config)) = Some (AttrS (Some b))
    ∧ plain a ∧ plain b.

(** The item that [set] and [mset] store for an entry. *)
Definition stores (config : Config) (kd : string * JsValue) (item : Item) : Prop :=
  ∃ d attrs seconds,
    deserializeKey kd.1 config = Ok d
    ∧ Codec.marshall (withMeta config kd.2) = Ok attrs
    ∧ item = <[ ex (keys config) := AttrN (Js.toString seconds) ]> (d ∪ attrs).

(** ** Fixtures of the test suite

    The configuration and the scripted clients of [test/store.test.ts]. *)

Module Fixture.

Definition config : Config :=
  mkConfig "TestCache" (mkKeys "Id" (Some "Name") "ExpiresAt") (Some 300000) None.

(** A clock that starts at [t0] and advances one millisecond per reading. *)
Definition clockAt (t0 : Z) (n : nat) : Z := t0 + Z.of_nat n.

(** The client of the cases "never done": every answer lists something
    unprocessed.  Its state counts the calls made. *)
Definition throttled (calls : nat) (command : Command) : nat * Res Response :=
  (S calls,
   Ok match kind command with
      | BatchGetItemCommand =>
          mkResponse None None
            (Some {[ "TestCache" :=
                       [ {[ "Id" := AttrS (Some "123");
                            "Name" := AttrS (Some "bbb") ]} ] ]})
            None None None
      | _ =>
          mkResponse None None None
            (Some {[ "TestCache" := [PutRequest {[ "b" := AttrN "1" ]}] ]})
            None None
      end).

(** The client of the cases "dynamodb throws service exception". *)
Definition ddbError : JsError := Error "DDB Exception".

Definition failing (calls : nat) (command : Command) : nat * Res Response :=
  (S calls, Throw ddbError).

(** A table with one entry whose expiration (second 1) is long past. *)
Definition expiredRow : Item :=
  {[ "Id" := AttrS (Some "123"); "Name" := AttrS (Some "foo");
     "data" := AttrN "1000"; "ExpiresAt" := AttrN "1" ]}.

Definition staleTable : DynamoDB.Table :=
  DynamoDB.mkTable ["Id"; "Name"] [expiredRow].

(** The key of that entry, and the entry as [unmarshall] gives it. *)
Definition expiredKey : Item :=
  {[ "Id" := AttrS (Some "123"); "Name" := AttrS (Some "foo") ]}.

Definition expiredRecord : JsRecord :=
  {[ "Id" := JsString "123"; "Name" := JsString "foo";
     "data" := JsNumber "1000"; "ExpiresAt" := JsNumber "1" ]}.

(** The instant at which the stale table is read, in milliseconds. *)
Definition today : Z := 1700000000000.

End Fixture.

(** ** A provider that answers in pages *)

(** A client that answers from a script, one answer per call. *)
Definition scripted (script : list (Res Response)) (command : Command)
    : list (Res Response) * Res Response :=
  match script with
  | answer :: rest => (rest, answer)
  | [] => ([], Throw (Error "No answer left"))
  end.

(** The answer that carries one page of [keys]. *)
Definition page (items : list Item) (cursor : option Item) : Res Response :=
  Ok (mkResponse None None None None (Some items) cursor).

(** The script of a provider that returns its result in pages. *)
Definition paged (pages : list (list Item * Item)) (lastItems : list Item)
    : list (Res Response) :=
  ((λ pg : list Item * Item, page pg.1 (Some pg.2)) <$> pages)
  ++ [page lastItems None].

(** * Properties *)

(** ** Strings *)

Lemma split_length c s : length (Js.split c s) = S (Js.count c s).
Proof.
  induction s as [|a r IH]; simpl; [done|].
  case_bool_decide; simpl; [by rewrite IH|].
  destruct (Js.split c r); simpl in *; lia.
Qed.

Lemma split_no_separator c s : Js.count c s = 0%nat → Js.split c s = [s].
Proof.
  induction s as [|a r IH]; simpl; [done|].
  case_bool_decide as Ha; [done|]. intros Hc. by rewrite IH.
Qed.

Lemma count_app c s t :
  Js.count c (s +:+ t) = (Js.count c s + Js.count c t)%nat.
Proof. induction s as [|a r IH]; simpl; [done|]. rewrite IH. lia. Qed.

(** The first segment and what follows the first separator. *)
Lemma split_cons c s :
  (0 < Js.count c s)%nat →
  ∃ a b, s = a +:+ String c b ∧ Js.count c a = 0%nat
         ∧ Js.split c s = a :: Js.split c b.
Proof.
  induction s as [|x r IH]; simpl; [lia|].
  case_bool_decide as Hx.
  - subst x. intros _. by exists EmptyString, r.
  - intros Hc. destruct (IH Hc) as (a & b & -> & Ha & Hs).
    exists (String x a), b. simpl. rewrite Hs.
    rewrite bool_decide_eq_false_2 by done. by rewrite Ha.
Qed.

Lemma endsWith_app_sep c a b :
  Js.endsWith (a +:+ String c b) c
  = match b with EmptyString => true | _ => Js.endsWith b c end.
Proof.
  induction a as [|x r IH]; simpl.
  - destruct b; [by rewrite bool_decide_eq_true_2|done].
  - rewrite IH. by destruct r.
Qed.

Lemma endsWith_no_occurrence c s : Js.count c s = 0%nat → Js.endsWith s c = false.
Proof.
  induction s as [|x r IH]; simpl; [done|].
  case_bool_decide as Hx; [done|]. intros Hc.
  destruct r; [done|by apply IH].
Qed.

Lemma truthy_true s : Js.truthy s = true ↔ s ≠ EmptyString.
Proof. by destruct s. Qed.

(** ** The key pattern check *)

(** What the check computes for a non-empty pattern. *)
Lemma validateKeyPattern_nonempty p :
  p ≠ EmptyString →
  validateKeyPattern (Some p) = Ok tt ↔
    Js.endsWith p MASK = true ∧ Js.count MASK p = 1%nat
    ∧ Js.count DELIMITER p = 1%nat.
Proof.
  intros Hp. unfold validateKeyPattern. simpl.
  apply truthy_true in Hp as ->. simpl.
  rewrite !split_length.
  destruct (Js.endsWith p MASK) eqn:He; simpl.
  - assert (0 < Js.count MASK p)%nat as Hpos.
    { destruct (Js.count MASK p) eqn:Hc; [|lia].
      by rewrite endsWith_no_occurrence in He. }
    repeat case_bool_decide; simpl; split; try done; intros; try lia.
    all: naive_solver lia.
  - split; [done|]. by intros [? _].
Qed.

(** C4, as amended: [validateKeyPattern] succeeds exactly when the pattern
    is absent or empty, or it ends with the mask character, contains the
    mask character exactly once and contains exactly one delimiter.
    ["bar+fo*"] is accepted; ["bar*"], ["bar+fo**"] and ["bar+fo*+baz*"] are
    rejected with the bad-pattern error. *)
Theorem validateKeyPattern_accepts (pattern : option string) :
  (validateKeyPattern pattern = Ok tt ↔
     pattern = None ∨ pattern = Some EmptyString
     ∨ ∃ p, pattern = Some p ∧ Js.endsWith p MASK = true
            ∧ Js.count MASK p = 1%nat ∧ Js.count DELIMITER p = 1%nat)
  ∧ validateKeyPattern (Some "bar+fo*") = Ok tt
  ∧ validateKeyPattern (Some "bar*") = Throw badPattern
  ∧ validateKeyPattern (Some "bar+fo**") = Throw badPattern
  ∧ validateKeyPattern (Some "bar+fo*+baz*") = Throw badPattern.
Proof.
  split; [|by vm_compute].
  destruct pattern as [p|]; [|by split; [left|]].
  destruct (decide (p = EmptyString)) as [->|Hp]; [by split; [right; left|]|].
  rewrite (validateKeyPattern_nonempty p Hp). split.
  - intros H. right. right. by exists p.
  - intros [?|[[= ?]|(q & [= <-] & H)]]; done.
Qed.

Lemma validateKeyPattern_accepts_witness :
  validateKeyPattern (Some "123+b*") = Ok tt.
Proof.
  apply (proj1 (validateKeyPattern_accepts (Some "123+b*"))).
  right. right. exists "123+b*". by vm_compute.
Defined.

(** The rule in the words of the specification accepts a pattern with an
    embedded mask character, which the check rejects; and the check lets the
    empty pattern through, which is neither absent nor valid by the rule. *)
Lemma validateKeyPattern_counterexample :
  (Spec.validPattern "b*r+fo*" = true
   ∧ validateKeyPattern (Some "b*r+fo*") = Throw badPattern)
  ∧ (Spec.validPattern EmptyString = false
     ∧ validateKeyPattern (Some EmptyString) = Ok tt).
Proof. by vm_compute. Qed.

(** ** The key codec *)

Lemma deserializeKey_valid k config :
  Spec.validKey k →
  deserializeKey k config
  = Ok (if Js.truthy_opt (sk (keys config))
        then <[ default EmptyString (sk (keys config))
                  := AttrS (Js.split DELIMITER k !! 1%nat) ]>
               {[ pk (keys config) := AttrS (Js.split DELIMITER k !! 0%nat) ]}
        else {[ pk (keys config) := AttrS (Js.split DELIMITER k !! 0%nat) ]}).
Proof.
  intros [Hne Hs]. unfold deserializeKey.
  apply truthy_true in Hne as ->. by rewrite Hs.
Qed.

(** What encoding the decoded key gives, in terms of the segments. *)
Lemma roundTrip_segments k config :
  Spec.validKey k → Spec.hasSortField config →
  sk (keys config) ≠ Some (pk (keys config)) →
  Spec.roundTrip k config
  = Ok (match Js.split DELIMITER k !! 1%nat with
        | Some s => if Js.truthy s
                    then Some (template (Js.split DELIMITER k !! 0%nat) s)
                    else Js.split DELIMITER k !! 0%nat
        | None => Js.split DELIMITER k !! 0%nat
        end).
Proof.
  intros Hk (name & Hsk & Hname) Hdiff. unfold Spec.roundTrip.
  rewrite (deserializeKey_valid _ _ Hk), Hsk. simpl.
  apply truthy_true in Hname as Ht. rewrite Ht. simpl.
  unfold serializeKey. rewrite Hsk. simpl.
  rewrite lookup_insert_ne by congruence.
  rewrite lookup_singleton_eq, lookup_insert_eq. done.
Qed.

Lemma app_sep_neq a c : a +:+ String c EmptyString ≠ a.
Proof.
  induction a as [|x r IH]; simpl; [done|]. intros [= H]. by apply IH.
Qed.

(** C2, as amended: for a valid logical key (non-empty, not starting with
    the delimiter), under a schema with a sort field whose name differs
    from the partition field's, [encode (decode k)] is [k] exactly when [k]
    contains no delimiter, or contains one delimiter and does not end with
    it. *)
Theorem key_round_trip (k : string) (config : Config) :
  Spec.validKey k → Spec.hasSortField config →
  sk (keys config) ≠ Some (pk (keys config)) →
  Spec.roundTrip k config = Ok (Some k) ↔
    Js.count DELIMITER k = 0%nat
    ∨ (Js.count DELIMITER k = 1%nat ∧ Js.endsWith k DELIMITER = false).
Proof.
  intros Hk Hs Hd. rewrite (roundTrip_segments _ _ Hk Hs Hd).
  destruct (Js.count DELIMITER k) as [|n] eqn:Hc.
  { rewrite (split_no_separator _ _ Hc). simpl. split; [by left|done]. }
  destruct (split_cons DELIMITER k) as (a & b & -> & Ha & ->); [lia|].
  rewrite count_app in Hc. simpl in Hc.
  rewrite ?bool_decide_eq_true_2 in Hc by done.
  rewrite endsWith_app_sep. simpl.
  destruct (Js.count DELIMITER b) as [|m] eqn:Hb.
  - rewrite (split_no_separator _ _ Hb). simpl.
    destruct b as [|x b']; simpl.
    + split; [|intros [?|[? ?]]; done]. intros [= H]. symmetry in H.
      by apply app_sep_neq in H.
    + split; [intros _; right|done].
      split; [lia|]. exact (endsWith_no_occurrence _ _ Hb).
  - destruct (split_cons DELIMITER b) as (b0 & b1 & -> & Hb0 & ->); [lia|].
    simpl. split; [|intros [?|[? _]]; lia].
    assert (∀ r, Js.count DELIMITER r ≤ 1 →
                 Ok (Some r) = Ok (Some (a +:+ String DELIMITER
                                           (b0 +:+ String DELIMITER b1))) →
                 False)%nat as Hcount.
    { intros r Hr [= ->]. rewrite !count_app in Hr. simpl in Hr.
      rewrite count_app in Hr. simpl in Hr.
      rewrite ?bool_decide_eq_true_2 in Hr by done. lia. }
    destruct (Js.truthy b0); intros H; exfalso; eapply Hcount; try exact H.
    + unfold template. simpl. rewrite count_app. simpl.
      rewrite ?bool_decide_eq_true_2 by done. lia.
    + lia.
Qed.

(** The guard of [deserializeKey] lets through keys that do not survive the
    round trip: everything after a second delimiter is dropped, and so is a
    trailing delimiter. *)
Lemma key_round_trip_counterexample :
  let config := mkConfig "TestCache" (mkKeys "Id" (Some "Name") "ExpiresAt")
                  (Some 300000) None in
  (Spec.validKey "a+b+c" ∧ Spec.hasSortField config
   ∧ Spec.roundTrip "a+b+c" config = Ok (Some "a+b"))
  ∧ (Spec.validKey "a+" ∧ Spec.roundTrip "a+" config = Ok (Some "a")).
Proof.
  repeat split; try done; try by vm_compute.
  by exists "Name".
Qed.

Lemma key_round_trip_witness :
  Spec.roundTrip "123+foo"
    (mkConfig "TestCache" (mkKeys "Id" (Some "Name") "ExpiresAt") None None)
  = Ok (Some "123+foo").
Proof.
  apply key_round_trip.
  - by split.
  - by exists "Name".
  - done.
  - right. by vm_compute.
Defined.


(** ** Chunks *)

Lemma chunkFrom_enough {A} (size : nat) fuel1 : ∀ fuel2 (l : list A),
  (0 < size)%nat → (length l ≤ fuel1)%nat → (length l ≤ fuel2)%nat →
  chunkFrom fuel1 size l = chunkFrom fuel2 size l.
Proof.
  induction fuel1 as [|fuel1 IH]; intros fuel2 l Hs H1 H2.
  - destruct l; [by destruct fuel2|simpl in H1; lia].
  - destruct l as [|x l]; [by destruct fuel2|].
    destruct fuel2 as [|fuel2]; [simpl in H2; lia|].
    cbn [chunkFrom]. f_equal.
    apply IH; [done| |]; rewrite length_drop; simpl in *; lia.
Qed.

Lemma chunk_cons {A} (size : nat) (l : list A) :
  (0 < size)%nat → l ≠ [] →
  chunk l size = take size l :: chunk (drop size l) size.
Proof.
  intros Hs Hl. unfold chunk. destruct size as [|n]; [lia|].
  destruct l as [|x l]; [done|]. cbn [chunkFrom length]. f_equal.
  apply chunkFrom_enough; [lia| |done]. rewrite length_drop. simpl. lia.
Qed.

Lemma chunk_nil {A} (size : nat) : chunk (@nil A) size = [].
Proof. by destruct size. Qed.

Lemma chunk_single {A} (size : nat) (l : list A) :
  l ≠ [] → (length l ≤ size)%nat → chunk l size = [l].
Proof.
  intros Hl Hs. rewrite chunk_cons; [|destruct l; simpl in *; [done|lia]|done].
  rewrite take_ge, drop_ge by done. by rewrite chunk_nil.
Qed.

(** Concatenating the chunks gives the list back, and no chunk is longer than the size *)
Lemma chunk_concat {A} (size : nat) (l : list A) :
  (0 < size)%nat → concat (chunk l size) = l.
Proof.
  intros Hs. remember (length l) as n eqn:Hn. revert l Hn.
  induction (lt_wf n) as [n _ IH]. intros l ->.
  destruct l as [|x l]; [by rewrite chunk_nil|].
  rewrite chunk_cons by done. cbn [concat].
  rewrite (IH (length (drop size (x :: l)))); [apply take_drop| |done].
  rewrite length_drop. simpl. lia.
Qed.

Lemma chunk_bounded {A} (size : nat) (l : list A) :
  Forall (λ c, 0 < length c ≤ size)%nat (chunk l size).
Proof.
  destruct size as [|m]; [by constructor|].
  remember (length l) as n eqn:Hn. revert l Hn.
  induction (lt_wf n) as [n _ IH]. intros l ->.
  destruct l as [|x l]; [by rewrite chunk_nil|].
  rewrite chunk_cons by (done || lia). constructor.
  - rewrite length_take. simpl. lia.
  - apply (IH (length (drop (S m) (x :: l)))); [|done].
    rewrite length_drop. simpl. lia.
Qed.

(** The sizes of the chunks when the list does not fit in one *)
Lemma chunk_two {A} (size : nat) (l : list A) :
  (size < length l ≤ 2 * size)%nat →
  chunk l size = [take size l; drop size l].
Proof.
  intros H. rewrite chunk_cons; [|lia|by destruct l; simpl in *; [lia|]].
  f_equal. apply chunk_single.
  - intros Hd. apply (f_equal length) in Hd. rewrite length_drop in Hd. simpl in Hd. lia.
  - rewrite length_drop. lia.
Qed.

(** ** A schema without a sort field *)

Lemma serializeKey_sortless item config :
  Js.truthy_opt (sk (keys config)) = false →
  item !! EmptyString = None →
  serializeKey item config = Throw (readOf "S").
Proof.
  intros Hsk Hitem. unfold serializeKey.
  destruct (memberS (item !! pk (keys config))) as [pkv|e] eqn:Hpk.
  - assert (item !! default EmptyString (sk (keys config)) = None) as ->; [|done].
    destruct (sk (keys config)) as [[|??]|]; done.
  - destruct (item !! pk (keys config)) as [[]|]; simpl in *; congruence.
Qed.

(** C9: when the schema defines no sort field, [serializeKey] reads the
    member [S] of the attribute named by the empty string; for a record
    without such an attribute the read throws.  Hence [keys] fails as soon
    as the provider returns a record, and so does [mget]. *)
Theorem sortless_schema_cannot_encode (config : Config) :
  Js.truthy_opt (sk (keys config)) = false →
  (∀ item : Item, item !! EmptyString = None →
     serializeKey item config = Throw (readOf "S"))
  ∧ (∀ Client (send : Client → Command → Client * Res Response)
       fuel pattern (w : World) c command response item rest,
       validateKeyPattern pattern = Ok tt →
       keysCommand config pattern None = Ok command →
       send (client w) command = (c, Ok response) →
       Items response = Some (item :: rest) →
       item !! EmptyString = None →
       (keysOf send (S fuel) config pattern w).1 = Throw (readOf "S"))
  ∧ (∀ Client (send : Client → Command → Client * Res Response) clock
       args (w : World) c input response item rest,
       args ≠ [] → (length args ≤ 100)%nat →
       buildMGetInput args config None = Ok input →
       send (client w) (mkCommand BatchGetItemCommand input) = (c, Ok response) →
       Responses response ≫= (.!! table config) = Some (item :: rest) →
       item !! EmptyString = None →
       (mget send clock config args w).1 = Throw (readOf "S")).
Proof.
  intros Hsk. split; [|split].
  - intros. by apply serializeKey_sortless.
  - intros Client send fuel pattern w c command response item rest
      Hv Hc Hs Hi Hitem.
    unfold keysOf, bind, lift. rewrite Hv. cbn [keysLoop].
    unfold bind at 1. unfold lift at 1. rewrite Hc.
    unfold bind at 1. unfold sendAwait, bind, clientSend, lift.
    cbn [client]. rewrite Hs. rewrite Hi. cbn [from_option id res_mapM].
    by rewrite serializeKey_sortless.
  - intros Client send clock args w c input response item rest
      Hne Hlen Hb Hs Hr Hitem.
    unfold mget. rewrite (chunk_single 100 args Hne Hlen).
    unfold asyncMap. cbn [mapM].
    unfold started, resumed, mgetPrefix, mgetRest, attempt, clientSend, bind, lift, ret.
    rewrite Hb. cbn [client]. rewrite Hs. cbn [fst snd mapM]. rewrite Hr.
    cbn [from_option id byKey].
    rewrite serializeKey_sortless by done. done.
Qed.

Lemma sortless_schema_cannot_encode_witness :
  serializeKey {[ "Id" := AttrS (Some "123") ]}
    (mkConfig "TestCache" (mkKeys "Id" None "ExpiresAt") None None)
  = Throw (readOf "S").
Proof.
  apply (proj1 (sortless_schema_cannot_encode
                  (mkConfig "TestCache" (mkKeys "Id" None "ExpiresAt") None None)
                  eq_refl)).
  by vm_compute.
Defined.

(** ** Computations that leave the client alone *)

Section Runs.

Context {Client : Type}.
Variable send : Client → Command → Client * Res Response.
Variable clock : nat → Z.

Local Abbreviation M := (@M Client).
Local Abbreviation quiet := (quiet (Client:=Client)).

Lemma quiet_ret {A} (a : A) : quiet (ret a).
Proof. done. Qed.

Lemma quiet_lift {A} (r : Res A) : quiet (lift r).
Proof. done. Qed.

Lemma quiet_DateNow : quiet (DateNow clock).
Proof. done. Qed.

Lemma quiet_bind {A B} (m : M A) (k : A → M B) :
  quiet m → (∀ a, quiet (k a)) → quiet (bind m k).
Proof.
  intros Hm Hk w. unfold bind. specialize (Hm w).
  destruct (m w) as [[a|e] w1]; simpl in *; [|done].
  destruct (Hk a w1) as [-> ->]. done.
Qed.

Lemma quiet_attempt {A} (m : M A) : quiet m → quiet (attempt m).
Proof.
  intros Hm w. unfold attempt. specialize (Hm w). by destruct (m w).
Qed.

Lemma quiet_mapM {A B} (f : A → M B) (xs : list A) :
  (∀ x, quiet (f x)) → quiet (mapM f xs).
Proof.
  intros Hf. induction xs as [|x xs IH]; [done|].
  simpl. apply quiet_bind; [done|]. intros y.
  apply quiet_bind; [done|]. done.
Qed.

Lemma quiet_isExpired record config : quiet (isExpired clock record config).
Proof.
  unfold isExpired. apply quiet_bind; [apply quiet_lift|]. intros n.
  apply quiet_bind; [apply quiet_DateNow|]. done.
Qed.

Lemma quiet_liveData config attrs : quiet (liveData clock config attrs).
Proof.
  unfold liveData. apply quiet_bind; [apply quiet_lift|]. intros item.
  apply quiet_bind; [apply quiet_isExpired|]. done.
Qed.

Lemma quiet_mgetRest config ks response : quiet (mgetRest clock config ks response).
Proof.
  unfold mgetRest. apply quiet_bind; [apply quiet_lift|]. intros m.
  apply quiet_mapM. intros key. destruct (m !! key); [apply quiet_liveData|done].
Qed.

Lemma quiet_buildItem key data config t : quiet (buildItem clock key data config t).
Proof.
  unfold buildItem, expiresAtOf.
  repeat (apply quiet_bind; [by repeat first [apply quiet_DateNow|apply quiet_lift|apply quiet_ret|apply quiet_bind; [|intros ?]]|intros ?]).
  done.
Qed.

Lemma quiet_msetPrefix config ttlArg values : quiet (msetPrefix clock config ttlArg values).
Proof.
  unfold msetPrefix, buildMSetInput.
  apply quiet_bind; [apply quiet_lift|]. intros args.
  apply quiet_bind; [|done].
  apply quiet_bind; [|done].
  apply quiet_mapM. intros kd. apply quiet_bind; [apply quiet_buildItem|done].
Qed.

(** *** Starting the arrows *)

Lemma started_run {X} (prefix : X → M Command) x w command w1 :
  prefix x w = (Ok command, w1) →
  client w1 = client w → sent w1 = sent w →
  started send prefix x w
  = (Ok (x, Ok (send (client w) command).2),
     mkWorld (send (client w) command).1
       (sent w ++ [callOf send w command]) (reads w1)).
Proof.
  intros Hp Hc Hs. unfold started, attempt, bind, clientSend, ret.
  rewrite Hp, Hc, Hs. unfold callOf. by destruct (send (client w) command).
Qed.

Lemma mapM_started {X} (prefix : X → M Command) (P : X → Command → Prop) xs :
  (∀ x, quiet (prefix x)) →
  (∀ x w, x ∈ xs → ∃ command w1, prefix x w = (Ok command, w1) ∧ P x command) →
  ∀ w, ∃ ss w2 calls,
    mapM (started send prefix) xs w = (Ok ss, w2)
    ∧ sent w2 = (sent w ++ calls)%list
    ∧ Forall2 (λ x call, P x call.1) xs calls
    ∧ Forall2 (λ s call, s.2 = Ok call.2) ss calls.
Proof.
  intros Hq. induction xs as [|x xs IH]; intros Hp w.
  - exists [], w, []. rewrite app_nil_r. by repeat split; constructor.
  - destruct (Hp x w) as (command & w1 & Hx & HP); [by left|].
    destruct (Hq x w) as [Hc Hs]. rewrite Hx in Hc, Hs. simpl in Hc, Hs.
    cbn [mapM]. unfold bind at 1.
    rewrite (started_run _ _ _ _ _ Hx Hc Hs).
    set (w' := mkWorld _ _ _).
    destruct (IH (λ y v Hy, Hp y v (list_elem_of_further _ _ _ Hy)) w')
      as (ss & w2 & calls & Hm & Hsent & HF1 & HF2).
    unfold bind at 1. rewrite Hm. unfold ret.
    exists ((x, Ok (send (client w) command).2) :: ss), w2,
      (callOf send w command :: calls).
    split; [done|]. split; [|split].
    + rewrite Hsent. subst w'. simpl. by rewrite <- app_assoc.
    + by constructor.
    + by constructor.
Qed.

(** *** Resuming them *)

Lemma mapM_resumed {X A} (rest : X → Response → M A)
    (Q : X → Response → Res A → Prop) ss :
  (∀ x response, quiet (rest x response)) →
  (∀ x response w, Q x response (rest x response w).1) →
  ∀ w, ∃ ps w3,
    mapM (resumed rest) ss w = (Ok ps, w3)
    ∧ sent w3 = sent w
    ∧ Forall2 (λ (s : X * Res (Res Response)) p,
                 match s.2 with
                 | Throw e => p = Rejected e
                 | Ok (Throw e) => p = Settles (Throw e)
                 | Ok (Ok response) => ∃ r, p = Settles r ∧ Q s.1 response r
                 end) ss ps.
Proof.
  intros Hq HQ. induction ss as [|s ss IH]; intros w.
  - exists [], w. by repeat split; constructor.
  - cbn [mapM]. unfold bind at 1.
    assert (∃ p w1, resumed rest s w = (Ok p, w1) ∧ sent w1 = sent w
                    ∧ match s.2 with
                      | Throw e => p = Rejected e
                      | Ok (Throw e) => p = Settles (Throw e)
                      | Ok (Ok response) => ∃ r, p = Settles r ∧ Q s.1 response r
                      end) as (p & w1 & -> & Hs1 & Hp).
    { unfold resumed. destruct s.2 as [[response|e]|e].
      - unfold bind, attempt, ret.
        specialize (Hq s.1 response w). specialize (HQ s.1 response w).
        destruct (rest s.1 response w) as [r w1]. simpl in *.
        exists (Settles r), w1. destruct Hq. eauto.
      - by exists (Settles (Throw e)), w.
      - by exists (Rejected e), w. }
    destruct (IH w1) as (ps & w3 & Hm & Hs3 & HF).
    unfold bind at 1. rewrite Hm. unfold ret.
    exists (p :: ps), w3. split; [done|]. split; [congruence|by constructor].
Qed.


Lemma firstRejected_settled {A} (ps : list (Promise A)) :
  Forall settles ps → firstRejected ps = None.
Proof. induction 1 as [|p ps [r ->] _ IH]; [done|]. done. Qed.

Lemma promiseAll_settled {A} (ps : list (Promise A)) :
  Forall settles ps → promiseAll ps = res_mapM outcome ps.
Proof. intros H. unfold promiseAll. by rewrite firstRejected_settled. Qed.

Lemma promiseAll_firstFailure {A} (ps : list (Promise A)) e :
  Forall settles ps → firstFailure ps e → promiseAll ps = Throw e.
Proof.
  intros Hs (i & Hi & Hbefore). rewrite promiseAll_settled by done. clear Hs.
  revert ps Hi Hbefore. induction i as [|i IH]; intros [|p ps] Hi Hb; try done.
  - simpl in Hi. by injection Hi as ->.
  - destruct (Hb 0%nat) as [a Ha]; [lia|]. simpl in Ha. injection Ha as ->.
    simpl. rewrite (IH ps); [done|done|].
    intros j Hj. apply (Hb (S j)). lia.
Qed.

Lemma promiseAll_fulfilled {A} (ps : list (Promise A)) :
  Forall (λ p, ∃ a, p = Settles (Ok a)) ps → ∃ xs, promiseAll ps = Ok xs.
Proof.
  intros H. rewrite promiseAll_settled.
  - induction H as [|p ps [a ->] _ [xs IH]]; [by exists []|].
    simpl. rewrite IH. by eexists.
  - eapply Forall_impl; [done|]. intros p [a ->]. by eexists.
Qed.

Lemma res_mapM_ok {A B} (f : A → Res B) xs :
  Forall (λ x, ∃ y, f x = Ok y) xs →
  ∃ ys, res_mapM f xs = Ok ys ∧ length ys = length xs.
Proof.
  induction 1 as [|x xs [y Hy] _ (ys & IH & Hl)]; [by exists []|].
  exists (y :: ys). simpl. rewrite Hy, IH. simpl. by rewrite Hl.
Qed.

Lemma mapM_ok {A B} (f : A → M B) xs :
  (∀ x w, x ∈ xs → ∃ y w1, f x w = (Ok y, w1)) →
  ∀ w, ∃ ys w1, mapM f xs w = (Ok ys, w1) ∧ length ys = length xs.
Proof.
  induction xs as [|x xs IH]; intros Hf w; [by exists [], w|].
  destruct (Hf x w) as (y & w1 & Hy); [by left|].
  destruct (IH (λ z v Hz, Hf z v (list_elem_of_further _ _ _ Hz)) w1)
    as (ys & w2 & Hys & Hl).
  exists (y :: ys), w2. cbn [mapM]. unfold bind. rewrite Hy, Hys.
  split; [done|]. simpl. by rewrite Hl.
Qed.

Lemma chunk_Forall {A} (P : A → Prop) (l : list A) size :
  Forall P l → Forall (Forall P) (chunk l size).
Proof.
  destruct size as [|n]; [by constructor|]. intros H.
  apply Forall_concat. by rewrite chunk_concat by lia.
Qed.

Lemma batchSize_read (m : list Item) name i :
  BatchItems i = Some (ReadRequests {[ name := m ]}) →
  ∀ k, batchSize (mkCommand k i) = length m.
Proof.
  intros H k. unfold batchSize. simpl. rewrite H, map_to_list_singleton.
  simpl. lia.
Qed.

Lemma batchSize_write (m : list WriteRequest) name i :
  BatchItems i = Some (WriteRequests {[ name := m ]}) →
  ∀ k, batchSize (mkCommand k i) = length m.
Proof.
  intros H k. unfold batchSize. simpl. rewrite H, map_to_list_singleton.
  simpl. lia.
Qed.

Lemma decode_all config ks :
  Forall Spec.validKey ks →
  ∃ decoded, res_mapM (λ key, deserializeKey key config) ks = Ok decoded
             ∧ length decoded = length ks.
Proof.
  intros H. apply res_mapM_ok. eapply Forall_impl; [done|].
  intros k Hk. rewrite (deserializeKey_valid _ _ Hk). by eexists.
Qed.

Lemma mgetPrefix_run config ks (w : @World Client) :
  Forall Spec.validKey ks →
  ∃ command w1, mgetPrefix config ks w = (Ok command, w1) ∧ readsChunk ks command.
Proof.
  intros Hk. destruct (decode_all config ks Hk) as (decoded & Hd & Hl).
  unfold mgetPrefix, bind, lift, ret, buildMGetInput. rewrite Hd. simpl.
  eexists _, w. split; [done|]. split; [done|].
  by rewrite (batchSize_read decoded (table config)).
Qed.

Lemma quiet_mgetPrefix config ks : quiet (mgetPrefix config ks).
Proof. unfold mgetPrefix. apply quiet_bind; [apply quiet_lift|done]. Qed.

Lemma mget_chunks config args w :
  Forall Spec.validKey args →
  ∃ ps w' calls,
    asyncMap send (mgetPrefix config) (mgetRest clock config) (chunk args 100) w
    = (Ok ps, w')
    ∧ sent w' = (sent w ++ calls)%list
    ∧ Forall2 (λ ks call, readsChunk ks call.1) (chunk args 100) calls
    ∧ Forall2 answered calls ps.
Proof.
  intros Hk. unfold asyncMap.
  destruct (mapM_started (mgetPrefix config) readsChunk (chunk args 100)
              (quiet_mgetPrefix config)) with (w := w)
    as (ss & w2 & calls & Hm & Hsent & HF1 & HF2).
  { intros ks v Hin. apply mgetPrefix_run.
    by apply (proj1 (Forall_forall (Forall Spec.validKey) (chunk args 100))
                (chunk_Forall _ _ _ Hk)). }
  destruct (mapM_resumed (mgetRest clock config) (λ _ _ _, True) ss
              (quiet_mgetRest config)) with (w := w2)
    as (ps & w3 & Hr & Hsent3 & HF3); [done|].
  exists ps, w3, calls. unfold bind. rewrite Hm, Hr.
  split; [done|]. split; [congruence|]. split; [done|].
  clear -HF2 HF3. revert ps HF3.
  induction HF2 as [|s call ss calls Hs _ IH]; intros ps HF3.
  - apply Forall2_nil_inv_l in HF3 as ->. constructor.
  - apply Forall2_cons_inv_l in HF3 as (p & ps' & Hp & HF3' & ->).
    constructor; [|by apply IH].
    rewrite Hs in Hp. unfold answered. destruct call.2 as [response|e].
    + destruct Hp as (r & -> & _). by exists r.
    + subst p. exists (Throw e). split; [done|]. by intros ? [= ->].
Qed.


Lemma res_mapM_Forall2 {A B} (f : A → Res B) xs ys :
  res_mapM f xs = Ok ys → Forall2 (λ x y, f x = Ok y) xs ys.
Proof.
  revert ys. induction xs as [|x xs IH]; intros ys; simpl.
  - intros [= <-]. constructor.
  - destruct (f x) as [y|e] eqn:Hy; [|done]. simpl.
    destruct (res_mapM f xs) as [ys'|e]; [|done]. simpl.
    intros [= <-]. constructor; [done|by apply IH].
Qed.

Lemma buildItem_run key data config t (w : @World Client) :
  Spec.validKey key →
  ∃ dbKey,
    deserializeKey key config = Ok dbKey
    ∧ buildItem clock key data config t w
      = (Ok (<[ ex (keys config)
                  := AttrN (Js.toString (msToS (clock (reads w) + t))) ]>
               (dbKey ∪ data)),
         mkWorld (client w) (sent w) (S (reads w))).
Proof.
  intros Hk. eexists. split; [by apply deserializeKey_valid|].
  unfold buildItem, expiresAtOf, bind, DateNow, ret, lift.
  by rewrite (deserializeKey_valid _ _ Hk).
Qed.

Lemma msetPrefix_run config ttlArg values (w : @World Client) :
  Forall (storable config) values →
  ∃ command w1, msetPrefix clock config ttlArg values w = (Ok command, w1)
                ∧ writesChunk values command.
Proof.
  intros Hv.
  destruct (res_mapM_ok
              (λ kd, res_map (pair kd.1) (Codec.marshall (withMeta config kd.2)))
              values) as (args & Ha & Hl).
  { eapply Forall_impl; [done|]. intros kd [_ [attrs ->]]. by eexists. }
  assert (Forall (λ a : string * Item, Spec.validKey a.1) args) as Hargs.
  { apply res_mapM_Forall2 in Ha. clear Hl.
    induction Ha as [|kd a values args Hkd _ IH]; [constructor|].
    apply Forall_cons in Hv as [[Hk _] Hv]. constructor; [|by apply IH].
    destruct (Codec.marshall (withMeta config kd.2)); [|done].
    simpl in Hkd. by injection Hkd as <-. }
  destruct (mapM_ok
              (λ kd : string * Item,
                 bind (buildItem clock kd.1 kd.2 config (effectiveTtl config ttlArg))
                   (λ item, ret (PutRequest item)))
              args) with (w := w) as (items & w1 & Hi & Hli).
  { intros a v Hin.
    destruct (buildItem_run a.1 a.2 config (effectiveTtl config ttlArg) v)
      as (dbKey & _ & Hb).
    { by apply (proj1 (Forall_forall _ args) Hargs). }
    unfold bind. rewrite Hb. by eexists _, _. }
  unfold msetPrefix, buildMSetInput, bind at 1, lift. rewrite Ha.
  unfold bind at 1 2. rewrite Hi. unfold ret.
  eexists _, w1. split; [done|]. split; [done|].
  rewrite (batchSize_write items (table config)) by done. congruence.
Qed.

Lemma mset_chunks config ttlArg args w :
  Forall (storable config) args →
  ∃ ps w' calls,
    asyncMap send (msetPrefix clock config ttlArg)
      (λ _ responses, ret responses) (chunk args 25) w
    = (Ok ps, w')
    ∧ sent w' = (sent w ++ calls)%list
    ∧ Forall2 (λ values call, writesChunk values call.1) (chunk args 25) calls
    ∧ Forall2 (λ call p, p = Settles call.2) calls ps.
Proof.
  intros Hk. unfold asyncMap.
  destruct (mapM_started (msetPrefix clock config ttlArg) writesChunk
              (chunk args 25) (quiet_msetPrefix config ttlArg)) with (w := w)
    as (ss & w2 & calls & Hm & Hsent & HF1 & HF2).
  { intros values v Hin. apply msetPrefix_run.
    by apply (proj1 (Forall_forall (Forall (storable config)) (chunk args 25))
                (chunk_Forall _ _ _ Hk)). }
  destruct (mapM_resumed (λ (_ : list (string * JsValue)) responses, ret responses)
              (λ _ response r, r = Ok response) ss) with (w := w2)
    as (ps & w3 & Hr & Hsent3 & HF3); [done|done|].
  exists ps, w3, calls. unfold bind. rewrite Hm, Hr.
  split; [done|]. split; [congruence|]. split; [done|].
  clear -HF2 HF3. revert ps HF3.
  induction HF2 as [|s call ss calls Hs _ IH]; intros ps HF3.
  - apply Forall2_nil_inv_l in HF3 as ->. constructor.
  - apply Forall2_cons_inv_l in HF3 as (p & ps' & Hp & HF3' & ->).
    constructor; [|by apply IH].
    rewrite Hs in Hp. destruct call.2 as [response|e].
    + by destruct Hp as (r & -> & ->).
    + done.
Qed.

Lemma mdelArrow_run config ks (w : @World Client) :
  Forall Spec.validKey ks →
  ∃ command,
    writesChunk ks command
    ∧ mdelArrow send config ks w
      = (Ok (Settles (send (client w) command).2),
         mkWorld (send (client w) command).1
           (sent w ++ [callOf send w command]) (reads w)).
Proof.
  intros Hks. destruct (decode_all config ks Hks) as (decoded & Hd & Hl).
  unfold mdelArrow, bind, lift, buildMDelInput, clientSend, ret, callOf.
  rewrite Hd. cbn [res_map].
  exists (mkCommand BatchWriteItemCommand
            (mkInput None None None
               (Some (WriteRequests {[ table config := DeleteRequest <$> decoded ]}))
               None None None None None None)).
  split; [|by destruct (send _ _)].
  split; [done|].
  rewrite (batchSize_write (DeleteRequest <$> decoded) (table config)) by done.
  by rewrite length_fmap.
Qed.

Lemma mdel_chunks config (chunks : list (list string)) w :
  Forall (Forall Spec.validKey) chunks →
  ∃ ps w' calls,
    mapM (mdelArrow send config) chunks w = (Ok ps, w')
    ∧ sent w' = (sent w ++ calls)%list
    ∧ Forall2 (λ ks call, writesChunk ks call.1) chunks calls
    ∧ Forall2 (λ call p, p = Settles call.2) calls ps.
Proof.
  intros Hk. revert w.
  induction Hk as [|ks chunks Hks _ IH]; intros w.
  - exists [], w, []. rewrite app_nil_r. by repeat split; constructor.
  - destruct (mdelArrow_run config ks w Hks) as (command & Hc & Hrun).
    cbn [mapM]. unfold bind at 1. rewrite Hrun.
    set (w1 := mkWorld _ _ _).
    destruct (IH w1) as (ps & w' & calls & Hm & Hsent & HF1 & HF2).
    unfold bind at 1. rewrite Hm. unfold ret.
    eexists (_ :: ps), w', (callOf send w command :: calls).
    split; [done|]. split; [|split].
    + rewrite Hsent. subst w1. simpl. by rewrite <- app_assoc.
    + by constructor.
    + by constructor.
Qed.


Lemma sizes_of_calls {X} (chunks : list (list X)) (k : CommandKind)
    (calls : list (Command * Res Response)) :
  Forall2 (λ xs call, kind call.1 = k ∧ batchSize call.1 = length xs) chunks calls →
  (λ call, batchSize call.1) <$> calls = length <$> chunks.
Proof.
  induction 1 as [|xs call chunks calls [_ H] _ IH]; [done|].
  rewrite !fmap_cons. by rewrite H, IH.
Qed.

Lemma sizes_bounded {X} (l : list X) size k
    (calls : list (Command * Res Response)) :
  Forall2 (λ xs call, kind call.1 = k ∧ batchSize call.1 = length xs)
    (chunk l size) calls →
  Forall (λ call, 0 < batchSize call.1 ≤ size)%nat calls.
Proof.
  intros H. pose proof (chunk_bounded size l) as Hb.
  induction H as [|xs call chunks calls [_ H] _ IH]; [constructor|].
  apply Forall_cons in Hb as [Hx Hb]. constructor; [lia|by apply IH].
Qed.

Lemma sizes_two {X} (l : list X) size k
    (calls : list (Command * Res Response)) :
  (size < length l ≤ 2 * size)%nat →
  Forall2 (λ xs call, kind call.1 = k ∧ batchSize call.1 = length xs)
    (chunk l size) calls →
  (λ call, batchSize call.1) <$> calls = [size; (length l - size)%nat].
Proof.
  intros Hl H. etrans; [exact (sizes_of_calls _ _ _ H)|].
  rewrite (chunk_two size l Hl).
  simpl. rewrite length_take, length_drop. f_equal. lia.
Qed.

Lemma mget_run config args w ps w' :
  asyncMap send (mgetPrefix config) (mgetRest clock config) (chunk args 100) w
  = (Ok ps, w') →
  mget send clock config args w
  = (res_map (λ items, concat items) (promiseAll ps), w').
Proof.
  intros H. unfold mget, bind, lift, ret. rewrite H.
  by destruct (promiseAll ps).
Qed.

Lemma mset_run config args ttlArg w ps w' :
  asyncMap send (msetPrefix clock config ttlArg)
    (λ _ responses, ret responses) (chunk args 25) w = (Ok ps, w') →
  mset send clock config args ttlArg w
  = (res_map (λ _, tt) (promiseAll ps), w').
Proof.
  intros H. unfold mset. unfold bind at 1. rewrite H.
  unfold bind, lift, ret. by destruct (promiseAll ps).
Qed.

Lemma mdel_run config args w ps w' :
  mapM (mdelArrow send config) (chunk args 25) w = (Ok ps, w') →
  mdel send config args w = (res_map (λ _, tt) (promiseAll ps), w').
Proof.
  intros H. unfold mdel, bind, lift, ret. rewrite H.
  by destruct (promiseAll ps).
Qed.

(** C7: [mget] cuts its keys into chunks of at most 100 and sends one
    [BatchGetItem] per chunk; [mset] and [mdel] cut theirs into chunks of at
    most 25 and send one [BatchWriteItem] per chunk.  150 keys give two reads
    of 100 and 50 keys, 30 entries or keys give two writes of 25 and 5. *)
Theorem batches_are_chunked (config : Config) :
  (∀ args w, Forall Spec.validKey args →
     ∃ calls,
       sent (mget send clock config args w).2 = (sent w ++ calls)%list
       ∧ Forall2 (λ ks call, readsChunk ks call.1) (chunk args 100) calls
       ∧ Forall (λ call, 0 < batchSize call.1 ≤ 100)%nat calls
       ∧ (length args = 150%nat →
          (λ call, batchSize call.1) <$> calls = [100; 50]%nat))
  ∧ (∀ args ttlArg w, Forall (storable config) args →
       ∃ calls,
         sent (mset send clock config args ttlArg w).2 = (sent w ++ calls)%list
         ∧ Forall2 (λ values call, writesChunk values call.1) (chunk args 25) calls
         ∧ Forall (λ call, 0 < batchSize call.1 ≤ 25)%nat calls
         ∧ (length args = 30%nat →
            (λ call, batchSize call.1) <$> calls = [25; 5]%nat))
  ∧ (∀ args w, Forall Spec.validKey args →
       ∃ calls,
         sent (mdel send config args w).2 = (sent w ++ calls)%list
         ∧ Forall2 (λ ks call, writesChunk ks call.1) (chunk args 25) calls
         ∧ Forall (λ call, 0 < batchSize call.1 ≤ 25)%nat calls
         ∧ (length args = 30%nat →
            (λ call, batchSize call.1) <$> calls = [25; 5]%nat)).
Proof.
  split; [|split].
  - intros args w Hk.
    destruct (mget_chunks config args w Hk) as (ps & w' & calls & Ha & Hs & HF & _).
    exists calls. rewrite (mget_run _ _ _ _ _ Ha). split; [done|].
    split; [done|]. split; [by eapply sizes_bounded|].
    intros Hl. rewrite (sizes_two args 100 _ calls) by (done || lia).
    by rewrite Hl.
  - intros args ttlArg w Hk.
    destruct (mset_chunks config ttlArg args w Hk)
      as (ps & w' & calls & Ha & Hs & HF & _).
    exists calls. rewrite (mset_run _ _ _ _ _ _ Ha). split; [done|].
    split; [done|]. split; [by eapply sizes_bounded|].
    intros Hl. rewrite (sizes_two args 25 _ calls) by (done || lia).
    by rewrite Hl.
  - intros args w Hk.
    destruct (mdel_chunks config (chunk args 25) w (chunk_Forall _ _ _ Hk))
      as (ps & w' & calls & Ha & Hs & HF & _).
    exists calls. rewrite (mdel_run _ _ _ _ _ Ha). split; [done|].
    split; [done|]. split; [by eapply sizes_bounded|].
    intros Hl. rewrite (sizes_two args 25 _ calls) by (done || lia).
    by rewrite Hl.
Qed.

Lemma settled_answered {A} (calls : list (Command * Res Response))
    (ps : list (Promise A)) :
  Forall2 answered calls ps → Forall settles ps.
Proof.
  induction 1 as [|call p calls ps (r & -> & _) _ IH]; constructor; [|done].
  by exists r.
Qed.

Lemma settled_calls (calls : list (Command * Res Response))
    (ps : list (Promise Response)) :
  Forall2 (λ call p, p = Settles call.2) calls ps →
  ps = Settles <$> calls.*2.
Proof. induction 1 as [|call p calls ps -> _ IH]; [done|]. simpl. by rewrite IH. Qed.

Lemma firstFailure_calls (calls : list (Command * Res Response)) i e :
  calls.*2 !! i = Some (Throw e) →
  (∀ j, (j < i)%nat → ∃ response, calls.*2 !! j = Some (Ok response)) →
  firstFailure (Settles <$> calls.*2) e.
Proof.
  intros Hi Hb. exists i. split.
  - by rewrite list_lookup_fmap, Hi.
  - intros j Hj. destruct (Hb j Hj) as [response Hr]. exists response.
    by rewrite list_lookup_fmap, Hr.
Qed.

(** The promise of each chunk of [mget]: rejected with the error of its
    call when the call raised, settled with what the rest of its arrow
    makes of the response otherwise. *)
Lemma started_fst {X} (prefix : X → M Command) xs w ss w2 :
  mapM (started send prefix) xs w = (Ok ss, w2) → ss.*1 = xs.
Proof.
  revert w ss. induction xs as [|x xs IH]; intros w ss.
  - cbn. unfold ret. by intros [= <- _].
  - cbn [mapM]. unfold bind at 1. unfold started at 1, bind at 1, attempt.
    destruct (bind (prefix x) (λ command, clientSend send command) w) as [r w1].
    unfold ret at 1. unfold bind at 1.
    destruct (mapM (started send prefix) xs w1) as [[ss'|e] w3] eqn:Hm; [|done].
    unfold ret. intros [= <- <-]. rewrite fmap_cons. cbn [fst].
    f_equal. by eapply IH.
Qed.

Lemma mget_promises config args w :
  Forall Spec.validKey args →
  ∃ ps w' calls,
    asyncMap send (mgetPrefix config) (mgetRest clock config) (chunk args 100) w
    = (Ok ps, w')
    ∧ sent w' = (sent w ++ calls)%list
    ∧ length calls = length (chunk args 100)
    ∧ Forall settles ps
    ∧ ∀ i (call : Command * Res Response), calls !! i = Some call →
        ∃ ks p, chunk args 100 !! i = Some ks ∧ ps !! i = Some p
                ∧ match call.2 with
                  | Throw e => p = Settles (Throw e)
                  | Ok response =>
                      ∃ w0 : @World Client,
                        p = Settles (mgetRest clock config ks response w0).1
                  end.
Proof.
  intros Hk. unfold asyncMap.
  destruct (mapM_started (mgetPrefix config) readsChunk (chunk args 100)
              (quiet_mgetPrefix config)) with (w := w)
    as (ss & w2 & calls & Hm & Hsent & HF1 & HF2).
  { intros ks v Hin. apply mgetPrefix_run.
    by apply (proj1 (Forall_forall (Forall Spec.validKey) (chunk args 100))
                (chunk_Forall _ _ _ Hk)). }
  pose proof (started_fst _ _ _ _ _ Hm) as Hfst.
  destruct (mapM_resumed (mgetRest clock config)
              (λ ks response r,
                 ∃ w0 : @World Client,
                   r = (mgetRest clock config ks response w0).1)
              ss (quiet_mgetRest config)) with (w := w2)
    as (ps & w3 & Hr & Hsent3 & HF3); [by eexists|].
  exists ps, w3, calls. unfold bind. rewrite Hm, Hr.
  split; [done|]. split; [congruence|].
  split; [symmetry; by eapply Forall2_length|]. split.
  - clear -HF2 HF3. revert ps HF3.
    induction HF2 as [|s call ss calls Hs _ IH]; intros ps HF3.
    + apply Forall2_nil_inv_l in HF3 as ->. constructor.
    + apply Forall2_cons_inv_l in HF3 as (p & ps' & Hp & HF3' & ->).
      constructor; [|by apply IH].
      rewrite Hs in Hp. destruct call.2 as [response|e].
      * destruct Hp as (r & -> & _). by exists r.
      * subst p. by eexists.
  - intros i call Hcall.
    destruct (Forall2_lookup_r _ _ _ _ _ HF2 Hcall) as (s & Hs & Hs2).
    destruct (Forall2_lookup_l _ _ _ _ _ HF3 Hs) as (p & Hp & Hsp).
    exists s.1, p. split; [|split; [done|]].
    + rewrite <- Hfst, list_lookup_fmap. by rewrite Hs.
    + rewrite Hs2 in Hsp. destruct call.2 as [response|e]; [|done].
      destruct Hsp as (r & -> & w0 & ->). by exists w0.
Qed.

(** C6: in every batched operation the provider is called once per chunk,
    whatever it answers, and the error that a call raises is the error of
    the operation, unchanged, when no earlier chunk has failed: for [mset]
    and [mdel] when every earlier call returned, for [mget] when every
    earlier call returned a response that the store can read. *)
Theorem provider_error_propagates (config : Config) :
  (∀ args w, Forall Spec.validKey args →
     ∃ calls,
       sent (mget send clock config args w).2 = (sent w ++ calls)%list
       ∧ length calls = length (chunk args 100)
       ∧ ∀ i e, calls.*2 !! i = Some (Throw e) →
                (∀ j ks, (j < i)%nat → chunk args 100 !! j = Some ks →
                   ∃ response,
                     calls.*2 !! j = Some (Ok response)
                     ∧ ∀ w0 : @World Client, ∃ items,
                         (mgetRest clock config ks response w0).1 = Ok items) →
                (mget send clock config args w).1 = Throw e)
  ∧ (∀ args ttlArg w, Forall (storable config) args →
       ∃ calls,
         sent (mset send clock config args ttlArg w).2 = (sent w ++ calls)%list
         ∧ length calls = length (chunk args 25)
         ∧ ∀ i e, calls.*2 !! i = Some (Throw e) →
                  (∀ j, (j < i)%nat → ∃ response, calls.*2 !! j = Some (Ok response)) →
                  (mset send clock config args ttlArg w).1 = Throw e)
  ∧ (∀ args w, Forall Spec.validKey args →
       ∃ calls,
         sent (mdel send config args w).2 = (sent w ++ calls)%list
         ∧ length calls = length (chunk args 25)
         ∧ ∀ i e, calls.*2 !! i = Some (Throw e) →
                  (∀ j, (j < i)%nat → ∃ response, calls.*2 !! j = Some (Ok response)) →
                  (mdel send config args w).1 = Throw e).
Proof.
  split; [|split].
  - intros args w Hk.
    destruct (mget_promises config args w Hk)
      as (ps & w' & calls & Ha & Hs & Hlen & Hset & Hp).
    exists calls. rewrite (mget_run _ _ _ _ _ Ha).
    split; [done|]. split; [done|].
    intros i e Hi Hb. cbn [fst].
    rewrite (promiseAll_firstFailure ps e Hset); [done|].
    rewrite list_lookup_fmap in Hi.
    destruct (calls !! i) as [call|] eqn:Hcall; [|done].
    cbn in Hi. injection Hi as Hi.
    destruct (Hp i call Hcall) as (ks & p & _ & Hpi & Hm).
    rewrite Hi in Hm. subst p. exists i. split; [done|].
    intros j Hj.
    assert (j < length calls)%nat as Hjl
      by (apply lookup_lt_Some in Hcall; lia).
    destruct (lookup_lt_is_Some_2 calls j Hjl) as [callj Hcj].
    destruct (Hp j callj Hcj) as (ksj & pj & Hkj & Hpj & Hmj).
    destruct (Hb j ksj Hj Hkj) as (response & Hrj & Hrest).
    rewrite list_lookup_fmap, Hcj in Hrj. cbn in Hrj. injection Hrj as Hrj.
    rewrite Hrj in Hmj. destruct Hmj as (w0 & ->).
    destruct (Hrest w0) as [items Hitems]. exists items.
    by rewrite Hpj, Hitems.
  - intros args ttlArg w Hk.
    destruct (mset_chunks config ttlArg args w Hk)
      as (ps & w' & calls & Ha & Hs & HF & Hp).
    exists calls. rewrite (mset_run _ _ _ _ _ _ Ha).
    split; [done|]. split; [symmetry; by eapply Forall2_length|].
    intros i e Hi Hb. simpl. apply settled_calls in Hp as ->.
    rewrite (promiseAll_firstFailure _ e); [done| |by apply (firstFailure_calls calls i)].
    apply Forall_fmap, Forall_forall. intros r _. by exists r.
  - intros args w Hk.
    destruct (mdel_chunks config (chunk args 25) w (chunk_Forall _ _ _ Hk))
      as (ps & w' & calls & Ha & Hs & HF & Hp).
    exists calls. rewrite (mdel_run _ _ _ _ _ Ha).
    split; [done|]. split; [symmetry; by eapply Forall2_length|].
    intros i e Hi Hb. simpl. apply settled_calls in Hp as ->.
    rewrite (promiseAll_firstFailure _ e); [done| |by apply (firstFailure_calls calls i)].
    apply Forall_fmap, Forall_forall. intros r _. by exists r.
Qed.

(** Whatever the answers say about unprocessed items, [mset] and [mdel]
    call the provider once per chunk and succeed as soon as no call
    raises. *)
Lemma mset_ignores_unprocessed config args ttlArg w :
  Forall (storable config) args →
  ∃ calls,
    sent (mset send clock config args ttlArg w).2 = (sent w ++ calls)%list
    ∧ length calls = length (chunk args 25)
    ∧ (Forall (λ call, ∃ response, call.2 = Ok response) calls →
       (mset send clock config args ttlArg w).1 = Ok tt).
Proof.
  intros Hk.
  destruct (mset_chunks config ttlArg args w Hk)
    as (ps & w' & calls & Ha & Hs & HF & Hp).
  exists calls. rewrite (mset_run _ _ _ _ _ _ Ha).
  split; [done|]. split; [symmetry; by eapply Forall2_length|].
  intros Hok. simpl. apply settled_calls in Hp as ->.
  destruct (promiseAll_fulfilled (Settles <$> calls.*2)) as [xs ->]; [|done].
  apply Forall_fmap, Forall_fmap. eapply Forall_impl; [done|].
  intros call [response Hr]. exists response. simpl. by rewrite Hr.
Qed.

Lemma mdel_ignores_unprocessed config args w :
  Forall Spec.validKey args →
  ∃ calls,
    sent (mdel send config args w).2 = (sent w ++ calls)%list
    ∧ length calls = length (chunk args 25)
    ∧ (Forall (λ call, ∃ response, call.2 = Ok response) calls →
       (mdel send config args w).1 = Ok tt).
Proof.
  intros Hk.
  destruct (mdel_chunks config (chunk args 25) w (chunk_Forall _ _ _ Hk))
    as (ps & w' & calls & Ha & Hs & HF & Hp).
  exists calls. rewrite (mdel_run _ _ _ _ _ Ha).
  split; [done|]. split; [symmetry; by eapply Forall2_length|].
  intros Hok. simpl. apply settled_calls in Hp as ->.
  destruct (promiseAll_fulfilled (Settles <$> calls.*2)) as [xs ->]; [|done].
  apply Forall_fmap, Forall_fmap. eapply Forall_impl; [done|].
  intros call [response Hr]. exists response. simpl. by rewrite Hr.
Qed.

End Runs.

(** ** Zero TTL *)

Section Zero.

Context {Client : Type}.
Variable send : Client → Command → Client * Res Response.
Variable clock : nat → Z.
Variable config : Config.

(** The TTL that an absent or zero argument stands for. *)
Local Abbreviation fallback :=
  (match ttl config with
   | Some t => if bool_decide (t = 0) then 60000 else t
   | None => 60000
   end).

(** The item stored for the entry read at clock reading [r]. *)
Local Abbreviation itemAt t r d attrs :=
  (<[ ex (keys config) := AttrN (Js.toString (msToS (clock r + t))) ]>
     (d ∪ attrs) : Item).

Lemma buildItems_exact (args : list (string * Item)) t0 (w : @World Client) :
  Forall (λ a : string * Item, Spec.validKey a.1) args →
  ∃ items,
    mapM (λ kd : string * Item,
            bind (buildItem clock kd.1 kd.2 config t0)
              (λ item, ret (PutRequest item))) args w
    = (Ok (PutRequest <$> items),
       mkWorld (client w) (sent w) (reads w + length args)%nat)
    ∧ length items = length args
    ∧ ∀ i a, args !! i = Some a →
        ∃ d, deserializeKey a.1 config = Ok d
             ∧ items !! i = Some (itemAt t0 (reads w + i)%nat d a.2).
Proof.
  intros H. revert w.
  set (step := λ kd : string * Item,
         bind (buildItem clock kd.1 kd.2 config t0)
           (λ item, ret (PutRequest item))).
  induction H as [|a args Ha _ IH]; intros w.
  - exists []. split; [|done]. cbn. unfold ret. destruct w. cbn.
    do 2 f_equal. lia.
  - destruct (buildItem_run clock a.1 a.2 config t0 w Ha) as (d & Hd & Hb).
    destruct (IH (mkWorld (client w) (sent w) (S (reads w))))
      as (items & Hi & Hl & Hat).
    eexists (_ :: items). split; [|split].
    + cbn [mapM]. unfold bind at 1. unfold step at 1. unfold bind at 1.
      rewrite Hb. unfold ret at 1. unfold bind. rewrite Hi. unfold ret.
      cbn. do 3 f_equal. lia.
    + cbn. by rewrite Hl.
    + intros [|i] b Hb'.
      * injection Hb' as <-. exists d. split; [done|].
        cbn. by rewrite Nat.add_0_r.
      * destruct (Hat i b Hb') as (d' & Hd' & Hi').
        exists d'. split; [done|].
        replace (reads w + S i)%nat with (S (reads w) + i)%nat by lia.
        exact Hi'.
Qed.

Lemma msetPrefix_exact ttlArg (values : list (string * JsValue))
    (w : @World Client) :
  Forall (storable config) values →
  ∃ items,
    msetPrefix clock config ttlArg values w
    = (Ok (mkCommand BatchWriteItemCommand
             (mkInput None None None
                (Some (WriteRequests {[ table config := PutRequest <$> items ]}))
                None None None None None None)),
       mkWorld (client w) (sent w) (reads w + length values)%nat)
    ∧ length items = length values
    ∧ ∀ i kd, values !! i = Some kd →
        ∃ d attrs,
          deserializeKey kd.1 config = Ok d
          ∧ Codec.marshall (withMeta config kd.2) = Ok attrs
          ∧ items !! i
            = Some (itemAt (effectiveTtl config ttlArg) (reads w + i)%nat d attrs).
Proof.
  intros Hv.
  destruct (res_mapM_ok
              (λ kd : string * JsValue,
                 res_map (pair kd.1) (Codec.marshall (withMeta config kd.2)))
              values) as (args & Ha & Hl).
  { eapply Forall_impl; [done|]. intros kd [_ [attrs ->]]. by eexists. }
  pose proof (res_mapM_Forall2 _ _ _ Ha) as HF.
  assert (Forall (λ a : string * Item, Spec.validKey a.1) args) as Hargs.
  { clear Hl Ha. induction HF as [|kd a values args Hkd _ IH]; [constructor|].
    apply Forall_cons in Hv as [[Hk _] Hv]. constructor; [|by apply IH].
    destruct (Codec.marshall (withMeta config kd.2)); [|done].
    simpl in Hkd. by injection Hkd as <-. }
  destruct (buildItems_exact args (effectiveTtl config ttlArg) w Hargs)
    as (items & Hi & Hli & Hat).
  exists items. split; [|split].
  - unfold msetPrefix, buildMSetInput, bind at 1, lift. rewrite Ha.
    unfold bind at 1 2. rewrite Hi. unfold ret. cbn [from_option id].
    by rewrite Hl.
  - congruence.
  - intros i kd Hkd.
    destruct (Forall2_lookup_l _ _ _ _ _ HF Hkd) as (a & Ha' & Hkda).
    destruct (Codec.marshall (withMeta config kd.2)) as [attrs|] eqn:Hm; [|done].
    cbn in Hkda. injection Hkda as <-.
    destruct (Hat i _ Ha') as (d & Hd & Hitem).
    by exists d, attrs.
Qed.

Lemma mset_started_exact ttlArg (chunks : list (list (string * JsValue)))
    (w : @World Client) :
  Forall (Forall (storable config)) chunks →
  ∃ ss itemChunks calls w1,
    mapM (started send (msetPrefix clock config ttlArg)) chunks w = (Ok ss, w1)
    ∧ sent w1 = (sent w ++ calls)%list
    ∧ Forall2 (λ items (call : Command * Res Response),
        call.1 = mkCommand BatchWriteItemCommand
                   (mkInput None None None
                      (Some (WriteRequests
                               {[ table config := PutRequest <$> items ]}))
                      None None None None None None)) itemChunks calls
    ∧ Forall2 (λ (s : list (string * JsValue) * Res (Res Response)) call,
                 s.2 = Ok call.2) ss calls
    ∧ Forall2 (λ (items : list Item) (values : list (string * JsValue)),
                 length items = length values) itemChunks chunks
    ∧ ∀ i kd, concat chunks !! i = Some kd →
        ∃ d attrs,
          deserializeKey kd.1 config = Ok d
          ∧ Codec.marshall (withMeta config kd.2) = Ok attrs
          ∧ concat itemChunks !! i
            = Some (itemAt (effectiveTtl config ttlArg) (reads w + i)%nat d attrs).
Proof.
  intros H. revert w. induction H as [|values chunks Hv _ IH]; intros w.
  - exists [], [], [], w. rewrite app_nil_r. by repeat split; try constructor.
  - destruct (msetPrefix_exact ttlArg values w Hv) as (items & Hp & Hl & Hat).
    cbn [mapM]. unfold bind at 1.
    rewrite (started_run send _ _ _ _ _ Hp eq_refl eq_refl).
    cbn [reads].
    match goal with |- context [bind _ _ ?v] =>
      destruct (IH v)
        as (ss & itemChunks & calls & w1 & Hm & Hs & HF1 & HF2 & HF3 & Hat')
    end.
    unfold bind at 1. rewrite Hm. unfold ret.
    eexists _, (items :: itemChunks), (_ :: calls), w1.
    split; [done|]. split; [|split; [|split; [|split]]].
    + rewrite Hs. cbn [sent]. by rewrite <- app_assoc.
    + by constructor.
    + by constructor.
    + by constructor.
    + intros i kd. cbn [concat]. intros Hi.
      destruct (decide (i < length values)%nat) as [Hlt|Hge].
      * rewrite lookup_app_l in Hi by done.
        destruct (Hat i kd Hi) as (d & attrs & Hd & Hma & Hitem).
        exists d, attrs. split; [done|]. split; [done|].
        rewrite lookup_app_l by lia. done.
      * rewrite lookup_app_r in Hi by lia.
        destruct (Hat' _ kd Hi) as (d & attrs & Hd & Hma & Hitem).
        exists d, attrs. split; [done|]. split; [done|].
        rewrite lookup_app_r by lia. rewrite Hl.
        replace (reads w + i)%nat
          with (reads w + length values + (i - length values))%nat by lia.
        exact Hitem.
Qed.

(** C10: a TTL argument of 0 stands for the configured default TTL, or
    for the built-in 60000 ms when none (or 0) is configured, exactly as
    an omitted TTL does.  [set] called with 0 sends one [PutItem] whose
    item carries the expiration computed from that default, [touch] one
    [UpdateItem] that sets the expiration computed from it, and [mset] its
    [BatchWriteItem]s whose items carry it, each computed at its own clock
    reading; each does what it does without a TTL.  The instants are safe
    integers, which JavaScript prints in plain digits. *)
Theorem zero_ttl_is_default :
  effectiveTtl config (Some 0) = fallback
  ∧ effectiveTtl config None = fallback
  ∧ (∀ key data dbKey attrs (w : @World Client),
       deserializeKey key config = Ok dbKey →
       Codec.marshall (withMeta config data) = Ok attrs →
       safeInteger (clock (reads w) + fallback) →
       let command :=
         mkCommand PutItemCommand
           (mkInput (Some (table config)) None
              (Some (itemAt fallback (reads w) dbKey attrs))
              None None None None None None None) in
       set send clock config key data (Some 0) w
       = set send clock config key data None w
       ∧ sent (set send clock config key data (Some 0) w).2
         = (sent w ++ [(command, (send (client w) command).2)])%list)
  ∧ (∀ key dbKey (w : @World Client),
       deserializeKey key config = Ok dbKey →
       safeInteger (clock (reads w) + fallback) →
       let command :=
         mkCommand UpdateItemCommand
           (mkInput (Some (table config)) (Some dbKey) None None
              (Some {[ "#ex" := Some (ex (keys config)) ]})
              (Some {[ ":ex" := Some (AttrN (Js.toString
                                    (msToS (clock (reads w) + fallback)))) ]})
              None None (Some "set #ex = :ex") None) in
       touch send clock config key (Some 0) w
       = touch send clock config key None w
       ∧ sent (touch send clock config key (Some 0) w).2
         = (sent w ++ [(command, (send (client w) command).2)])%list)
  ∧ (∀ args (w : @World Client),
       Forall (storable config) args →
       (∀ i, (i < length args)%nat →
             safeInteger (clock (reads w + i)%nat + fallback)) →
       mset send clock config args (Some 0) w
       = mset send clock config args None w
       ∧ ∃ itemChunks calls,
           sent (mset send clock config args (Some 0) w).2
           = (sent w ++ calls)%list
           ∧ Forall2 (λ items (call : Command * Res Response),
               call.1 = mkCommand BatchWriteItemCommand
                          (mkInput None None None
                             (Some (WriteRequests
                                      {[ table config := PutRequest <$> items ]}))
                             None None None None None None)) itemChunks calls
           ∧ Forall2 (λ (items : list Item) (values : list (string * JsValue)),
                        length items = length values)
               itemChunks (chunk args 25)
           ∧ ∀ i kd, args !! i = Some kd →
               ∃ d attrs,
                 deserializeKey kd.1 config = Ok d
                 ∧ Codec.marshall (withMeta config kd.2) = Ok attrs
                 ∧ concat itemChunks !! i
                   = Some (itemAt fallback (reads w + i)%nat d attrs)).
Proof.
  assert (effectiveTtl config (Some 0) = effectiveTtl config None) as Heq by done.
  assert (effectiveTtl config None = fallback) as Hdef by done.
  split; [by rewrite Heq|]. split; [done|].
  split; [|split].
  - intros key data dbKey attrs w Hd Hm _ command.
    split; [unfold set; by rewrite Heq|]. subst command.
    unfold set, buildSetInput, buildItem, expiresAtOf, sendAwait, clientSend,
      bind, DateNow, ret, lift.
    rewrite Hm, Hd, Heq, Hdef. cbn [client sent reads].
    by destruct (send (client w) _) as [c [response|e]].
  - intros key dbKey w Hd _ command.
    split; [unfold touch; by rewrite Heq|]. subst command.
    unfold touch, buildTouchInput, expiresAtOf, sendAwait, clientSend,
      bind, DateNow, ret, lift.
    rewrite Hd, Heq, Hdef. cbn [client sent reads].
    by destruct (send (client w) _) as [c [response|e]].
  - intros args w Hargs _.
    split; [unfold mset, msetPrefix; by rewrite Heq|].
    destruct (mset_started_exact (Some 0) (chunk args 25) w
                (chunk_Forall _ _ _ Hargs))
      as (ss & itemChunks & calls & w1 & Hm & Hs & HF1 & HF2 & HF3 & Hat).
    destruct (mapM_resumed (Client:=Client)
                (λ (_ : list (string * JsValue)) responses, ret responses)
                (λ _ response r, r = Ok response) ss
                ltac:(done) ltac:(done) w1)
      as (ps & w3 & Hr & Hsent3 & _).
    exists itemChunks, calls.
    rewrite (mset_run send clock config args (Some 0) w ps w3).
    2:{ unfold asyncMap, bind. by rewrite Hm, Hr. }
    cbn [snd]. split; [congruence|]. split; [done|]. split; [done|].
    intros i kd Hkd. rewrite chunk_concat in Hat by lia.
    destruct (Hat i kd Hkd) as (d & attrs & Hd & Hma & Hitem).
    exists d, attrs. rewrite Heq, Hdef in Hitem. done.
Qed.

End Zero.

Lemma zero_ttl_is_default_witness :
  (∃ item outcome,
     sent (set Fixture.failing (Fixture.clockAt 0) Fixture.config "123+foo"
             (JsNumber "100") (Some 0) (mkWorld 0%nat [] 0%nat)).2
     = [(mkCommand PutItemCommand
           (mkInput (Some "TestCache") None (Some item)
              None None None None None None None), outcome)]
     ∧ item !! "ExpiresAt" = Some (AttrN "300"))
  ∧ (∃ input outcome,
       sent (touch Fixture.failing (Fixture.clockAt 0) Fixture.config "123+foo"
               (Some 0) (mkWorld 0%nat [] 0%nat)).2
       = [(mkCommand UpdateItemCommand input, outcome)]
       ∧ ExpressionAttributeValues input
         = Some {[ ":ex" := Some (AttrN "300") ]}).
Proof.
  pose proof (zero_ttl_is_default Fixture.failing (Fixture.clockAt 0)
                Fixture.config) as (_ & _ & Hset & Htouch & _).
  split.
  - destruct (Hset "123+foo" (JsNumber "100") Fixture.expiredKey
                {[ "data" := AttrN "100" ]} (mkWorld 0%nat [] 0%nat))
      as [_ Hs].
    + vm_compute. reflexivity.
    + vm_compute. reflexivity.
    + vm_compute. by split.
    + eexists _, _. split; [exact Hs|]. vm_compute. reflexivity.
  - destruct (Htouch "123+foo" Fixture.expiredKey (mkWorld 0%nat [] 0%nat))
      as [_ Hs].
    + vm_compute. reflexivity.
    + vm_compute. by split.
    + eexists _, _. split; [exact Hs|]. reflexivity.
Defined.

(** ** Unprocessed items *)

(** The retry helper gives up after the configured number of attempts when
    every attempt raises [UnprocessedDataException], having made exactly
    that many; and it does not repeat an attempt that raises anything else. *)
Lemma backoff_attempts {W A} (step : W → W) (n : nat) (w : W) :
  Backoff.attempts (A:=A) (λ v, (Throw UnprocessedDataException, step v)) n w
  = (Throw UnprocessedDataException, Nat.iter (S n) step w).
Proof.
  revert w. induction n as [|n IH]; intros w; [done|].
  cbn [Backoff.attempts Backoff.retry]. rewrite IH.
  f_equal. simpl. f_equal. clear. induction n as [|n IH]; [done|].
  simpl. by rewrite <- IH.
Qed.

Lemma backoff_gives_up {A} :
  Backoff.backoff (A:=A) (λ calls, (Throw UnprocessedDataException, S calls))
    None 0%nat
  = (Throw UnprocessedDataException, 10%nat).
Proof. unfold Backoff.backoff. by rewrite backoff_attempts. Qed.

Lemma backoff_other_error {W A} (request : W → Res A * W) numOfAttempts w e w' :
  request w = (Throw e, w') → e ≠ UnprocessedDataException →
  Backoff.backoff request numOfAttempts w = (Throw e, w').
Proof.
  intros H He. unfold Backoff.backoff.
  destruct (Nat.max 1 _ - 1)%nat; simpl; rewrite H; [done|].
  by destruct e.
Qed.

(** C1 (the code departs from the claim): against a client whose every
    answer lists something unprocessed, [mset], [mget] and [mdel] each call
    the client once, drop the remainder and succeed; the tests expect ten
    calls and [UnprocessedDataException]. *)
Theorem unprocessed_not_retried :
  let w0 : World := mkWorld 0%nat [] 0%nat in
  let written :=
    mset Fixture.throttled (Fixture.clockAt 0) Fixture.config
      [("123+aaa", JsNumber "100")] None w0 in
  let read :=
    mget Fixture.throttled (Fixture.clockAt 0) Fixture.config
      ["123+aaa"; "123+bbb"; "123+ccc"] w0 in
  let deleted :=
    mdel Fixture.throttled Fixture.config ["123+aaa"; "123+bbb"; "123+ccc"] w0 in
  (written.1 = Ok tt ∧ client written.2 = 1%nat ∧ length (sent written.2) = 1%nat)
  ∧ (read.1 = Ok [JsUndefined; JsUndefined; JsUndefined]
     ∧ client read.2 = 1%nat ∧ length (sent read.2) = 1%nat)
  ∧ (deleted.1 = Ok tt ∧ client deleted.2 = 1%nat ∧ length (sent deleted.2) = 1%nat).
Proof. by vm_compute. Qed.

(** ** Witnesses for the batch theorems *)

(** A response without items is read without a throw. *)
Lemma mgetRest_nothing {Client} clock config ks (w0 : @World Client) :
  ∃ items, (mgetRest clock config ks emptyResponse w0).1 = Ok items.
Proof.
  unfold mgetRest. cbn [Responses emptyResponse mbind option_bind from_option byKey].
  change (bind (lift (Ok ?m)) ?k w0) with (k m w0). cbv beta.
  destruct (mapM_ok (Client:=Client) (λ key : string,
              match (∅ : gmap string Item) !! key with
              | Some attrs => liveData clock config attrs
              | None => ret JsUndefined
              end) ks) with (w := w0) as (ys & w1 & -> & _); [|by eexists].
  intros key w _. rewrite lookup_empty. by eexists _, _.
Qed.

Lemma provider_error_propagates_witness :
  (mget scripted (Fixture.clockAt 0) Fixture.config (replicate 101 "123+foo")
     (mkWorld [Ok emptyResponse] [] 0%nat)).1
  = Throw (Error "No answer left")
  ∧ (mset Fixture.failing (Fixture.clockAt 0) Fixture.config
       [("123+aaa", JsNumber "100")] None (mkWorld 0%nat [] 0%nat)).1
    = Throw Fixture.ddbError.
Proof.
  split.
  - destruct (provider_error_propagates scripted (Fixture.clockAt 0)
                Fixture.config) as (H & _).
    destruct (H (replicate 101 "123+foo") (mkWorld [Ok emptyResponse] [] 0%nat))
      as (calls & Hs & _ & Hp).
    + apply Forall_replicate. by split.
    + cbn [sent app] in Hs. subst calls. apply (Hp 1%nat).
      * vm_compute. reflexivity.
      * intros j ks Hj Hks. destruct j as [|j]; [|lia].
        exists emptyResponse. split; [vm_compute; reflexivity|].
        intros w0. apply mgetRest_nothing.
  - destruct (provider_error_propagates Fixture.failing (Fixture.clockAt 0)
                Fixture.config) as (_ & H & _).
    destruct (H [("123+aaa", JsNumber "100")] None (mkWorld 0%nat [] 0%nat))
      as (calls & Hs & _ & Hp).
    + constructor; [|constructor]. split; [by split|].
      eexists. vm_compute. reflexivity.
    + apply (Hp 0%nat).
      * vm_compute in Hs. subst calls. reflexivity.
      * intros j Hj. lia.
Defined.

Lemma batches_are_chunked_witness :
  ∃ calls,
    sent (mdel Fixture.throttled Fixture.config (replicate 30 "123+foo")
            (mkWorld 0%nat [] 0%nat)).2 = calls
    ∧ (λ call, batchSize call.1) <$> calls = [25; 5]%nat.
Proof.
  destruct (batches_are_chunked Fixture.throttled (Fixture.clockAt 0)
              Fixture.config) as (_ & _ & H).
  destruct (H (replicate 30 "123+foo") (mkWorld 0%nat [] 0%nat))
    as (calls & Hs & _ & _ & Hl).
  - apply Forall_replicate. by split.
  - exists calls. split; [exact Hs|]. apply Hl. reflexivity.
Defined.

(** ** Expiration on read *)

Section Expiry.
Context {Client : Type}.
Variable send : Client → Command → Client * Res Response.
Variable clock : nat → Z.

(** A record that [unmarshall] produced holds a number where the record of
    the provider holds [{N: ...}]; a number has no member [N], and
    [isExpired] answers no whatever the clock says. *)
Lemma isExpired_unmarshalled (record : JsRecord) config literal (w : @World Client) :
  record !! ex (keys config) = Some (JsNumber literal) →
  isExpired clock record config w
  = (Ok false, mkWorld (client w) (sent w) (S (reads w))).
Proof. intros H. unfold isExpired, bind, lift, DateNow, ret. by rewrite H. Qed.

(** On the record as the provider returns it, the same function computes
    what the specification asks for. *)
Lemma isExpired_marshalled (attrs : Item) config n (w : @World Client) :
  attrs !! ex (keys config) = Some (AttrN n) →
  isExpired clock (attrAsJs <$> attrs) config w
  = (Ok (Spec.isExpired attrs config (clock (reads w))),
     mkWorld (client w) (sent w) (S (reads w))).
Proof.
  intros H. unfold isExpired, Spec.isExpired, bind, lift, DateNow, ret.
  by rewrite lookup_fmap, H.
Qed.

Lemma unmarshall_lookup (attrs : Item) (record : JsRecord) name :
  Codec.unmarshall attrs = Ok record →
  record !! name = attrs !! name ≫= (λ v, Codec.okValue (Codec.convertToNative v)).
Proof.
  unfold Codec.unmarshall, Codec.convertRecord.
  case_bool_decide; [|done]. intros [= <-]. by rewrite lookup_omap.
Qed.

Lemma liveData_number config attrs record n (w : @World Client) :
  Codec.unmarshall attrs = Ok record →
  attrs !! ex (keys config) = Some (AttrN n) →
  liveData clock config attrs w
  = (Ok (dataOf record), mkWorld (client w) (sent w) (S (reads w))).
Proof.
  intros Hu Hex. unfold liveData, bind at 1, lift. rewrite Hu.
  unfold bind. rewrite (isExpired_unmarshalled record config n).
  - done.
  - by rewrite (unmarshall_lookup _ _ _ Hu), Hex.
Qed.

End Expiry.

(** C5 (the code departs from the claim): the table holds an entry whose
    expiration is long past.  [keys] lists it and [get] sends nothing but
    the read, as the claim says; but [get] returns the payload instead of
    the absent marker, because [isExpired] is given the unmarshalled
    record. *)
Theorem expired_entry_is_returned :
  let w0 : World := mkWorld Fixture.staleTable [] 0%nat in
  let clock := Fixture.clockAt Fixture.today in
  let got := get DynamoDB.send clock Fixture.config "123+foo" w0 in
  let listed := keysOf DynamoDB.send 1 Fixture.config None w0 in
  Spec.isExpired Fixture.expiredRow Fixture.config Fixture.today = true
  ∧ got.1 = Ok (JsNumber "1000")
  ∧ kind <$> (sent got.2).*1 = [GetItemCommand]
  ∧ listed.1 = Ok (Some [Some "123+foo"])
  ∧ kind <$> (sent listed.2).*1 = [ScanCommand].
Proof. by vm_compute. Qed.

(** C3 (the code departs from the claim): the result of [mget] follows the
    order of the requested keys and a key without a matching record is
    absent, but an expired record is returned like a live one, for the same
    reason as in [get]. *)
Theorem mget_returns_expired_entry :
  let w0 : World := mkWorld Fixture.staleTable [] 0%nat in
  let clock := Fixture.clockAt Fixture.today in
  Spec.isExpired Fixture.expiredRow Fixture.config Fixture.today = true
  ∧ (mget DynamoDB.send clock Fixture.config ["123+foo"; "123+bar"] w0).1
    = Ok [JsNumber "1000"; JsUndefined].
Proof. by vm_compute. Qed.

(** ** Decimal numerals *)

Lemma digits_numeral d acc :
  Js.digits (Some acc) (NilEmpty.string_of_uint d) = Some (numeral d acc).
Proof.
  revert acc.
  induction d; intros acc; cbn [NilEmpty.string_of_uint numeral]; [done|..];
    cbn [Js.digits]; (change (Js.isDigit _) with true);
    cbn [default from_option id]; rewrite IHd; do 2 f_equal;
    match goal with
    | |- context [Js.digitVal ?c] =>
        let v := eval vm_compute in (Js.digitVal c) in
        change (Js.digitVal c) with v
    end; lia.
Qed.

Lemma digits_numeral_start d :
  d ≠ Decimal.Nil →
  Js.digits None (NilEmpty.string_of_uint d) = Some (numeral d 0).
Proof.
  destruct d; [done|..]; intros _;
    cbn [NilEmpty.string_of_uint numeral Js.digits];
    (change (Js.isDigit _) with true); cbn [default from_option id];
    rewrite digits_numeral; do 2 f_equal.
Qed.

Lemma numeral_acc d acc :
  numeral d (Z.pos acc) = Z.pos (Pos.of_uint_acc d acc).
Proof.
  revert acc. induction d; intros acc; cbn [numeral Pos.of_uint_acc]; [done|..];
    rewrite <- IHd; f_equal; lia.
Qed.

Lemma numeral_of_uint d : numeral d 0 = Z.of_uint d.
Proof.
  unfold Z.of_uint.
  induction d; cbn [numeral Pos.of_uint]; [done|by rewrite <- IHd|..];
    exact (numeral_acc _ _).
Qed.

Lemma skipSpaces_numeral d :
  d ≠ Decimal.Nil →
  Js.skipSpaces (NilEmpty.string_of_uint d) = NilEmpty.string_of_uint d.
Proof. by destruct d. Qed.

(** [parseInt] reads back what [toString] prints. *)
Lemma parseInt_toString (n : Z) : Js.parseInt (Js.toString n) = Some n.
Proof.
  unfold Js.toString.
  destruct n as [|p|p]; [done|..]; cbn [Z.to_int NilZero.string_of_int];
    pose proof (DecimalPos.Unsigned.to_uint_nonnil p) as Hnil;
    pose proof (DecimalPos.Unsigned.of_to p) as Hp;
    assert (numeral (Pos.to_uint p) 0 = Z.pos p) as Hv
      by (by rewrite numeral_of_uint; unfold Z.of_uint; rewrite Hp).
  - unfold NilZero.string_of_uint, Js.parseInt.
    destruct (Pos.to_uint p) eqn:Hd; [done|..];
      rewrite <- Hv; by rewrite <- digits_numeral_start.
  - unfold Js.parseInt. cbn [Js.skipSpaces]. change (Js.isSpace "-"%char) with false.
    cbn iota.
    assert (NilZero.string_of_uint (Pos.to_uint p)
            = NilEmpty.string_of_uint (Pos.to_uint p)) as ->
      by (by destruct (Pos.to_uint p)).
    rewrite digits_numeral_start by done. by rewrite Hv.
Qed.

Lemma toString_truthy (n : Z) : Js.truthy (Js.toString n) = true.
Proof.
  unfold Js.toString. destruct n as [|p|p]; [done| |done].
  cbn [Z.to_int NilZero.string_of_int]. unfold NilZero.string_of_uint.
  pose proof (DecimalPos.Unsigned.to_uint_nonnil p).
  by destruct (Pos.to_uint p).
Qed.

(** ** The reference table *)

Local Open Scope Z_scope.

Lemma keyOf_insert names name v (row : Item) :
  name ∉ names →
  DynamoDB.keyOf names (<[ name := v ]> row) = DynamoDB.keyOf names row.
Proof.
  intros Hn. unfold DynamoDB.keyOf. apply list_fmap_ext.
  intros i n Hi. rewrite lookup_insert_ne; [done|].
  intros ->. apply Hn. by eapply list_elem_of_lookup_2.
Qed.

Lemma sameKey_insert names name v k (row : Item) :
  name ∉ names →
  DynamoDB.sameKey names k (<[ name := v ]> row) = DynamoDB.sameKey names k row.
Proof. intros Hn. unfold DynamoDB.sameKey. by rewrite keyOf_insert. Qed.

(** Updating the row of a key leaves it findable under the same key, and
    leaves what every key finds otherwise as it was. *)
Lemma lookupRow_upsert names k k' name v rs row :
  name ∉ names →
  DynamoDB.lookupRow names k rs = Some row →
  DynamoDB.lookupRow names k' (DynamoDB.upsert names k name v rs)
  = if DynamoDB.sameKey names k' row
    then Some (<[ name := v ]> row)
    else DynamoDB.lookupRow names k' rs.
Proof.
  intros Hn. unfold DynamoDB.upsert.
  induction rs as [|r rs IH]; [done|]. cbn [DynamoDB.lookupRow DynamoDB.alterRow].
  destruct (DynamoDB.sameKey names k r) eqn:Hk.
  - intros [= ->]. cbn [from_option id DynamoDB.lookupRow].
    rewrite sameKey_insert by done. by destruct (DynamoDB.sameKey names k' row).
  - intros Hrow. specialize (IH Hrow).
    destruct (DynamoDB.alterRow names k (insert name v) rs) as [rs'|] eqn:Ha.
    + cbn [fmap option_fmap option_map from_option id DynamoDB.lookupRow] in *.
      destruct (DynamoDB.sameKey names k' r) eqn:Hk'; [|done].
      destruct (DynamoDB.sameKey names k' row) eqn:Hr; [|done].
      exfalso. unfold DynamoDB.sameKey in *.
      apply bool_decide_eq_true_1 in Hk', Hr.
      apply bool_decide_eq_false_1 in Hk. apply Hk.
      assert (DynamoDB.keyOf names k = DynamoDB.keyOf names row) as ->; [|congruence].
      clear -Hrow. induction rs as [|x rs IH]; [done|].
      cbn [DynamoDB.lookupRow] in Hrow. unfold DynamoDB.sameKey in Hrow.
      case_bool_decide; [congruence|by apply IH].
    + exfalso. clear -Hrow Ha. induction rs as [|x rs IH]; [done|].
      cbn [DynamoDB.lookupRow DynamoDB.alterRow] in *.
      destruct (DynamoDB.sameKey names k x); [done|].
      destruct (DynamoDB.alterRow names k (insert name v) rs); [done|].
      by apply IH.
Qed.

Lemma lookupRow_sameKey names k rs row :
  DynamoDB.lookupRow names k rs = Some row → DynamoDB.sameKey names k row = true.
Proof.
  induction rs as [|x rs IH]; [done|]. cbn [DynamoDB.lookupRow].
  destruct (DynamoDB.sameKey names k x) eqn:Hk; [by intros [= <-]|done].
Qed.

(** ** The attribute codec *)

Lemma unmarshall_insert_number (attrs : Item) (record : JsRecord) name n :
  Codec.unmarshall attrs = Ok record →
  Codec.unmarshall (<[ name := AttrN n ]> attrs)
  = Ok (<[ name := JsNumber n ]> record).
Proof.
  unfold Codec.unmarshall, Codec.convertRecord.
  case_bool_decide as Hall; [|done]. intros [= <-].
  rewrite bool_decide_eq_true_2.
  - by rewrite (omap_insert_Some _ _ _ _ (JsNumber n)).
  - apply map_Forall_insert_2; [by eexists|done].
Qed.

Lemma msToS_monotone (ms1 ms2 : Z) :
  (ms1 ≤ ms2 → msToS ms1 ≤ msToS ms2)
  ∧ (ms1 + 1000 ≤ ms2 → msToS ms1 < msToS ms2).
Proof.
  unfold msToS. split; intros H.
  - apply Z.div_le_mono; lia.
  - assert ((ms1 + 500) `div` 1000 + 1 ≤ (ms2 + 500) `div` 1000); [|lia].
    replace ((ms1 + 500) `div` 1000 + 1)
      with ((ms1 + 500 + 1 * 1000) `div` 1000)
      by (by rewrite Z.div_add by lia).
    apply Z.div_le_mono; lia.
Qed.

(** ** [touch], [get] and [ttl] on the reference table *)

Section Touch.

Variable clock : nat → Z.
Variable config : Config.

Lemma touch_run key ttlArg k t calls n :
  deserializeKey key config = Ok k →
  ∃ command,
    kind command = UpdateItemCommand
    ∧ touch DynamoDB.send clock config key ttlArg (mkWorld t calls n)
      = (Ok tt,
         mkWorld
           (DynamoDB.mkTable (DynamoDB.keyAttributes t)
              (DynamoDB.upsert (DynamoDB.keyAttributes t) k (ex (keys config))
                 (AttrN (Js.toString (msToS (clock n + effectiveTtl config ttlArg))))
                 (DynamoDB.rows t)))
           (calls ++ [(command, Ok emptyResponse)])
           (S n)).
Proof.
  intros Hk. eexists. split; [|].
  2:{ unfold touch, buildTouchInput, expiresAtOf, sendAwait, clientSend,
        bind, DateNow, ret, lift.
      rewrite Hk. cbn [client sent reads]. unfold DynamoDB.send.
      cbn [kind input Key ExpressionAttributeNames ExpressionAttributeValues
           UpdateExpression from_option id].
      rewrite !lookup_singleton_eq.
      rewrite bool_decide_eq_true_2 by done. reflexivity. }
  done.
Qed.

Lemma get_run key k t calls n row record literal :
  deserializeKey key config = Ok k →
  DynamoDB.lookupRow (DynamoDB.keyAttributes t) k (DynamoDB.rows t) = Some row →
  Codec.unmarshall row = Ok record →
  row !! ex (keys config) = Some (AttrN literal) →
  (get DynamoDB.send clock config key (mkWorld t calls n)).1 = Ok (dataOf record).
Proof.
  intros Hk Hrow Hu Hex.
  unfold get, buildGetInput, sendAwait, clientSend, bind at 1 2 3, lift.
  rewrite Hk. cbn [res_map client sent reads]. unfold DynamoDB.send.
  cbn [kind input Key]. rewrite Hrow.
  unfold DynamoDB.project. cbn [ProjectionExpression option_map RItem].
  by rewrite (liveData_number clock config row record literal).
Qed.

Lemma ttl_run key k t calls n row literal :
  deserializeKey key config = Ok k →
  DynamoDB.lookupRow (DynamoDB.keyAttributes t) k (DynamoDB.rows t) = Some row →
  row !! ex (keys config) = Some (AttrN literal) →
  Js.truthy literal = true →
  (ttlOf DynamoDB.send clock config key (mkWorld t calls n)).1
  = Ok ((λ s, s * 1000 - clock n) <$> Js.parseInt literal).
Proof.
  intros Hk Hrow Hex Ht.
  unfold ttlOf, buildTTLInput, sendAwait, clientSend, bind at 1 2 3, lift.
  rewrite Hk. cbn [res_map client sent reads]. unfold DynamoDB.send.
  cbn [kind input Key]. rewrite Hrow.
  unfold DynamoDB.project.
  cbn [ProjectionExpression ExpressionAttributeNames option_map RItem
       from_option id].
  rewrite map_to_list_singleton.
  rewrite (map_lookup_filter_Some_2 _ _ _ (AttrN literal)); [|done|by left].
  unfold bind, lift, DateNow, ret. cbn [memberN Js.truthy_opt].
  rewrite Ht. done.
Qed.

End Touch.

(** C8, as amended: [touch] sends one update that sets the expiration
    attribute and nothing else.  On a table that holds the entry, every
    other attribute of the entry and every other entry stay as they were
    and [get] returns the same value before and after.  [ttl], read at one
    and the same instant, is computed from the stored second before the
    touch and from [round((now + ttl) / 1000)] after it; that second is
    never earlier than the one stored from a TTL not bigger, and it is
    later when the TTL is bigger by at least 1000 ms. *)
Theorem touch_updates_only_expiration
    (clock : nat → Z) (config : Config) (key : string) (ttlArg : option Z)
    (t : DynamoDB.Table) (calls : list (Command * Res Response)) (n : nat)
    (k row : Item) (record : JsRecord) (stored : Z) :
  let names := DynamoDB.keyAttributes t in
  let w := mkWorld t calls n in
  let touched := touch DynamoDB.send clock config key ttlArg w in
  let seconds := msToS (clock n + effectiveTtl config ttlArg) in
  let row' := <[ ex (keys config) := AttrN (Js.toString seconds) ]> row in
  deserializeKey key config = Ok k →
  ex (keys config) ∉ names →
  ex (keys config) ≠ "data" →
  DynamoDB.lookupRow names k (DynamoDB.rows t) = Some row →
  row !! ex (keys config) = Some (AttrN (Js.toString stored)) →
  Codec.unmarshall row = Ok record →
  (touched.1 = Ok tt
   ∧ ∃ command, kind command = UpdateItemCommand
                ∧ sent touched.2 = (calls ++ [(command, Ok emptyResponse)])%list)
  ∧ (∀ k', DynamoDB.lookupRow names k' (DynamoDB.rows (client touched.2))
           = if DynamoDB.sameKey names k' row then Some row'
             else DynamoDB.lookupRow names k' (DynamoDB.rows t))
  ∧ (∀ a, a ≠ ex (keys config) → row' !! a = row !! a)
  ∧ (get DynamoDB.send clock config key w).1 = Ok (dataOf record)
  ∧ (get DynamoDB.send clock config key touched.2).1 = Ok (dataOf record)
  ∧ (ttlOf DynamoDB.send clock config key (mkWorld t calls (S n))).1
    = Ok (Some (stored * 1000 - clock (S n)))
  ∧ (ttlOf DynamoDB.send clock config key touched.2).1
    = Ok (Some (seconds * 1000 - clock (S n)))
  ∧ (∀ now0 ttl0,
       stored = msToS (now0 + ttl0) → now0 ≤ clock n →
       (ttl0 ≤ effectiveTtl config ttlArg → stored ≤ seconds)
       ∧ (ttl0 + 1000 ≤ effectiveTtl config ttlArg → stored < seconds)).
Proof.
  intros names w touched seconds row' Hk Hnames Hdata Hrow Hold Hu.
  destruct (touch_run clock config key ttlArg k t calls n Hk)
    as (command & Hkind & Hrun).
  assert (∀ k', DynamoDB.lookupRow names k'
                  (DynamoDB.rows (client touched.2))
                = if DynamoDB.sameKey names k' row then Some row'
                  else DynamoDB.lookupRow names k' (DynamoDB.rows t)) as Hlook.
  { intros k'. subst touched w. rewrite Hrun. cbn [snd client DynamoDB.rows].
    by apply lookupRow_upsert. }
  assert (DynamoDB.lookupRow names k (DynamoDB.rows (client touched.2))
          = Some row') as Hrow'.
  { by rewrite Hlook, (lookupRow_sameKey _ _ _ _ Hrow). }
  assert (row' !! ex (keys config) = Some (AttrN (Js.toString seconds))) as Hex'
    by apply lookup_insert_eq.
  subst touched w. rewrite Hrun in *. cbn [fst snd client sent] in *.
  split; [split; [done|by exists command]|].
  split; [done|]. split; [by intros a Ha; apply lookup_insert_ne|].
  split; [by eapply get_run|]. split; [|split; [|split]].
  - rewrite (get_run clock config key k _ _ _ row'
               (<[ ex (keys config) := JsNumber (Js.toString seconds) ]> record)
               (Js.toString seconds)); try done.
    + unfold dataOf. by rewrite lookup_insert_ne.
    + by apply unmarshall_insert_number.
  - rewrite (ttl_run clock config key k _ _ _ row (Js.toString stored));
      try done.
    + by rewrite parseInt_toString.
    + apply toString_truthy.
  - rewrite (ttl_run clock config key k _ _ _ row' (Js.toString seconds));
      try done.
    + by rewrite parseInt_toString.
    + apply toString_truthy.
  - intros now0 ttl0 -> Hnow. subst seconds. split; intros Httl.
    + apply msToS_monotone. lia.
    + apply msToS_monotone. lia.
Qed.

(** A bigger TTL that stays within the same second leaves [ttl] where it
    was: the expiration is stored in whole seconds. *)
Lemma touch_counterexample :
  let clock : nat → Z := λ _, 0 in
  let w0 : World := mkWorld (DynamoDB.mkTable ["Id"; "Name"] []) [] 0%nat in
  let w1 := (set DynamoDB.send clock Fixture.config "123+foo"
               (JsNumber "1000") (Some 1000) w0).2 in
  let before := (ttlOf DynamoDB.send clock Fixture.config "123+foo" w1).1 in
  let w2 := (touch DynamoDB.send clock Fixture.config "123+foo" (Some 1400) w1).2 in
  let after := (ttlOf DynamoDB.send clock Fixture.config "123+foo" w2).1 in
  (1000 < 1400)%Z ∧ before = Ok (Some 1000) ∧ after = Ok (Some 1000).
Proof. by vm_compute. Qed.

Lemma touch_updates_only_expiration_witness :
  let clock := Fixture.clockAt Fixture.today in
  let w : World := mkWorld Fixture.staleTable [] 0%nat in
  (get DynamoDB.send clock Fixture.config "123+foo"
     (touch DynamoDB.send clock Fixture.config "123+foo" (Some 900000) w).2).1
  = Ok (dataOf Fixture.expiredRecord).
Proof.
  intros clock w.
  refine (proj1 (proj2 (proj2 (proj2 (proj2
    (touch_updates_only_expiration clock Fixture.config "123+foo"
       (Some 900000) Fixture.staleTable [] 0%nat
       Fixture.expiredKey Fixture.expiredRow Fixture.expiredRecord 1
       _ _ _ _ _ _)))))).
  - vm_compute. reflexivity.
  - simpl. intros H. apply elem_of_cons in H as [?|H]; [done|].
    apply elem_of_cons in H as [?|H]; [done|]. by apply elem_of_nil in H.
  - done.
  - vm_compute. reflexivity.
  - vm_compute. reflexivity.
  - vm_compute. reflexivity.
Defined.

(** * Further properties *)

(** ** Decoding an encoded key *)

Lemma split_app_sep c a b :
  Js.count c a = 0%nat → Js.split c (a +:+ String c b) = a :: Js.split c b.
Proof.
  induction a as [|x r IH]; simpl.
  - intros _. by rewrite bool_decide_eq_true_2.
  - case_bool_decide as Hx; [done|]. intros Hc. by rewrite IH.
Qed.

Lemma startsWith_app c a b :
  a ≠ EmptyString → Js.startsWith (a +:+ b) c = Js.startsWith a c.
Proof. by destruct a. Qed.

Lemma startsWith_no_occurrence c s :
  Js.count c s = 0%nat → Js.startsWith s c = false.
Proof. destruct s as [|x r]; simpl; [done|]. by case_bool_decide. Qed.

Lemma app_nonempty a b : a ≠ EmptyString → a +:+ b ≠ EmptyString.
Proof. by destruct a. Qed.

Lemma serializeKey_segments (item : Item) (config : Config) (skName a b : string) :
  sk (keys config) = Some skName →
  item !! pk (keys config) = Some (AttrS (Some a)) →
  item !! skName = Some (AttrS (Some b)) →
  b ≠ EmptyString →
  serializeKey item config = Ok (Some (a +:+ String DELIMITER b)).
Proof.
  intros Hsk Hpk Hskv Hb.
  unfold serializeKey. rewrite Hsk. simpl. rewrite Hpk, Hskv. simpl.
  by apply truthy_true in Hb as ->.
Qed.

Lemma deserializeKey_segments (config : Config) (skName a b : string) :
  sk (keys config) = Some skName → skName ≠ EmptyString →
  a ≠ EmptyString → Js.count DELIMITER a = 0%nat →
  Js.count DELIMITER b = 0%nat →
  deserializeKey (a +:+ String DELIMITER b) config
  = Ok (<[ skName := AttrS (Some b) ]> {[ pk (keys config) := AttrS (Some a) ]}).
Proof.
  intros Hsk Hname Ha Hca Hcb.
  rewrite deserializeKey_valid.
  - rewrite Hsk. simpl. apply truthy_true in Hname as ->.
    rewrite split_app_sep by done. by rewrite (split_no_separator _ _ Hcb).
  - split; [by apply app_nonempty|].
    rewrite startsWith_app by done. by apply startsWith_no_occurrence.
Qed.

(** X1: a record whose partition and sort values are non-empty strings free
    of the delimiter is encoded as [pk+sk], and decoding that key gives the
    key attributes of the record back. *)
Theorem decode_encode (item : Item) (config : Config) (skName a b : string) :
  sk (keys config) = Some skName → skName ≠ EmptyString →
  item !! pk (keys config) = Some (AttrS (Some a)) →
  item !! skName = Some (AttrS (Some b)) →
  a ≠ EmptyString → Js.count DELIMITER a = 0%nat →
  b ≠ EmptyString → Js.count DELIMITER b = 0%nat →
  serializeKey item config = Ok (Some (a +:+ String DELIMITER b))
  ∧ deserializeKey (a +:+ String DELIMITER b) config
    = Ok (<[ skName := AttrS (Some b) ]> {[ pk (keys config) := AttrS (Some a) ]}).
Proof.
  intros Hsk Hname Hpk Hskv Ha Hca Hb Hcb. split.
  - by apply (serializeKey_segments item config skName a b).
  - by apply deserializeKey_segments.
Qed.

Lemma decode_encode_witness :
  deserializeKey "123+foo" Fixture.config = Ok Fixture.expiredKey.
Proof.
  refine (proj2 (decode_encode Fixture.expiredRow Fixture.config
                   "Name" "123" "foo" _ _ _ _ _ _ _ _)); try done.
Defined.

(** ** Single-key operations *)

Lemma msToS_bounds (ms : Z) : ms - 500 < msToS ms * 1000 ≤ ms + 500.
Proof.
  unfold msToS.
  pose proof (Z.div_mod (ms + 500) 1000 ltac:(lia)) as Hd.
  pose proof (Z.mod_pos_bound (ms + 500) 1000 ltac:(lia)) as Hm.
  lia.
Qed.

Lemma deserializeKey_invalid key config :
  key = EmptyString ∨ Js.startsWith key DELIMITER = true →
  deserializeKey key config = Throw unsupportedKey.
Proof.
  unfold deserializeKey. intros [->|H]; [done|].
  rewrite H. by rewrite orb_true_r.
Qed.

Section Single.

Context {Client : Type}.
Variable send : Client → Command → Client * Res Response.
Variable clock : nat → Z.
Variable config : Config.

(** X2: what [set] stores.  The item carries the decoded key under the key
    attribute names, whatever the payload or the metadata hold under those
    names, and the expiration attribute above all; every other attribute is
    the payload's.  When [now + ttl] is a safe integer, which JavaScript
    prints in plain digits, the expiration is a decimal string whose value
    is within half a second of [now + ttl]. *)
Theorem buildItem_attributes (key : string) (data : Item) (t : Z)
    (w : @World Client) :
  Spec.validKey key →
  safeInteger (clock (reads w) + t) →
  ∃ dbKey item seconds,
    deserializeKey key config = Ok dbKey
    ∧ buildItem clock key data config t w
      = (Ok item, mkWorld (client w) (sent w) (S (reads w)))
    ∧ item !! ex (keys config) = Some (AttrN (Js.toString seconds))
    ∧ Js.parseInt (Js.toString seconds) = Some seconds
    ∧ clock (reads w) + t - 500 < seconds * 1000 ≤ clock (reads w) + t + 500
    ∧ (∀ name v, name ≠ ex (keys config) → dbKey !! name = Some v →
                 item !! name = Some v)
    ∧ (∀ name, name ≠ ex (keys config) → dbKey !! name = None →
               item !! name = data !! name).
Proof.
  intros Hk _.
  destruct (buildItem_run clock key data config t w Hk) as (dbKey & Hd & Hrun).
  eexists dbKey, _, (msToS (clock (reads w) + t)).
  split; [done|]. split; [exact Hrun|]. split; [apply lookup_insert_eq|].
  split; [apply parseInt_toString|]. split; [apply msToS_bounds|]. split.
  - intros name v Hne Hv. rewrite lookup_insert_ne by done.
    by apply lookup_union_Some_l.
  - intros name Hne Hv. rewrite lookup_insert_ne by done.
    by apply lookup_union_r.
Qed.

(** X3: a key that is empty or starts with the delimiter is refused before
    anything is sent: [get], [del], [ttl] and [touch] throw the
    unsupported-key error and the client is not called; so does [set] once
    its value has been marshalled. *)
Theorem invalid_key_no_call (key : string) (w : @World Client) :
  key = EmptyString ∨ Js.startsWith key DELIMITER = true →
  (get send clock config key w = (Throw unsupportedKey, w))
  ∧ (del send config key w = (Throw unsupportedKey, w))
  ∧ (ttlOf send clock config key w = (Throw unsupportedKey, w))
  ∧ (∀ ttlArg,
       touch send clock config key ttlArg w
       = (Throw unsupportedKey, mkWorld (client w) (sent w) (S (reads w))))
  ∧ (∀ data ttlArg attrs,
       Codec.marshall (withMeta config data) = Ok attrs →
       set send clock config key data ttlArg w
       = (Throw unsupportedKey, mkWorld (client w) (sent w) (S (reads w)))).
Proof.
  intros Hk. pose proof (deserializeKey_invalid key config Hk) as Hd.
  repeat split.
  - unfold get, buildGetInput, bind, lift. by rewrite Hd.
  - unfold del, buildDelInput, bind, lift. by rewrite Hd.
  - unfold ttlOf, buildTTLInput, bind, lift. by rewrite Hd.
  - intros ttlArg.
    unfold touch, buildTouchInput, expiresAtOf, bind, lift, DateNow, ret.
    by rewrite Hd.
  - intros data ttlArg attrs Hm.
    unfold set, buildSetInput, buildItem, expiresAtOf, bind, lift, DateNow, ret.
    rewrite Hm. by rewrite Hd.
Qed.

(** X4: when the provider has no item for the key, [get] returns
    [undefined] and [ttl] returns -1; each makes its one read and neither
    looks at the clock. *)
Theorem absent_item (key : string) (w : @World Client) :
  Spec.validKey key →
  (∀ command, ∃ response,
     (send (client w) command).2 = Ok response ∧ RItem response = None) →
  let got := get send clock config key w in
  let left := ttlOf send clock config key w in
  got.1 = Ok JsUndefined
  ∧ left.1 = Ok (Some (-1))
  ∧ kind <$> (sent got.2).*1 = ((kind <$> (sent w).*1) ++ [GetItemCommand])%list
  ∧ kind <$> (sent left.2).*1 = ((kind <$> (sent w).*1) ++ [GetItemCommand])%list
  ∧ reads got.2 = reads w ∧ reads left.2 = reads w.
Proof.
  intros Hk Habsent got left. subst got left.
  unfold get, ttlOf, buildGetInput, buildTTLInput, sendAwait, clientSend,
    bind, lift, ret.
  rewrite (deserializeKey_valid _ _ Hk). cbn [res_map].
  match goal with
  | |- context [send (client w) ?c] =>
      destruct (Habsent c) as (r1 & Hs1 & Hr1);
      destruct (send (client w) c) as [c1 o1] eqn:E1
  end.
  match goal with
  | |- context [send (client w) ?c] =>
      destruct (Habsent c) as (r2 & Hs2 & Hr2);
      destruct (send (client w) c) as [c2 o2] eqn:E2
  end.
  simpl in Hs1, Hs2. subst o1 o2. cbn [fst snd sent reads]. rewrite Hr1, Hr2.
  cbn [fst snd sent reads Js.truthy_opt].
  rewrite !fmap_app. done.
Qed.

End Single.

(** ** Patterns *)

(** Removing the first mask character of a string that has one, at its
    end, removes its last character. *)
Lemma eraseFirst_last c s :
  Js.count c s = 1%nat → Js.endsWith s c = true →
  s = Js.eraseFirst c s +:+ String c EmptyString.
Proof.
  induction s as [|x r IH]; simpl; [done|].
  case_bool_decide as Hx.
  - subst x. intros Hc He.
    destruct r as [|y r']; [done|].
    assert (Js.count c (String y r') = 0%nat) as H0 by lia.
    by rewrite (endsWith_no_occurrence _ _ H0) in He.
  - intros Hc He.
    change (String x r = String x (Js.eraseFirst c r +:+ String c EmptyString)).
    f_equal. apply IH; [lia|]. destruct r; [simpl in Hc; lia|done].
Qed.

Lemma count_eraseFirst c d s :
  c ≠ d → Js.count d (Js.eraseFirst c s) = Js.count d s.
Proof.
  intros Hcd. induction s as [|x r IH]; simpl; [done|].
  case_bool_decide as Hx.
  - subst x. by rewrite bool_decide_eq_false_2.
  - simpl. by rewrite IH.
Qed.

Lemma append_assoc (a b c : string) : (a +:+ b) +:+ c = a +:+ (b +:+ c).
Proof.
  induction a as [|x r IH]; [done|].
  change (String x ((r +:+ b) +:+ c) = String x (r +:+ (b +:+ c))).
  by f_equal.
Qed.

Lemma count_eraseFirst_same c s :
  Js.count c (Js.eraseFirst c s) = Nat.pred (Js.count c s).
Proof.
  induction s as [|x r IH]; simpl; [done|].
  case_bool_decide as Hx; [done|]. simpl.
  by rewrite bool_decide_eq_false_2 by done.
Qed.

Lemma startsWith_eraseFirst c d s :
  c ≠ d → Js.count c s = 1%nat → Js.endsWith s c = true →
  Js.count d s = 1%nat →
  Js.startsWith (Js.eraseFirst c s) d = Js.startsWith s d
  ∧ Js.eraseFirst c s ≠ EmptyString.
Proof.
  intros Hcd Hc He Hd. destruct s as [|x r]; [done|].
  destruct (decide (x = c)) as [->|Hx].
  - exfalso. destruct r as [|y r'].
    + simpl in Hd. rewrite bool_decide_eq_false_2 in Hd by done. lia.
    + assert (Js.count c (String y r') = 0%nat) as H0.
      { simpl in Hc. rewrite bool_decide_eq_true_2 in Hc by done.
        simpl. lia. }
      change (Js.endsWith (String y r') c = true) in He.
      by rewrite (endsWith_no_occurrence _ _ H0) in He.
  - simpl. by rewrite bool_decide_eq_false_2 by done.
Qed.

Lemma keysCommand_pattern (config : Config) (p skName : string)
    (cursor : option Item) :
  p ≠ EmptyString → validateKeyPattern (Some p) = Ok tt →
  Js.startsWith p DELIMITER = false →
  sk (keys config) = Some skName → skName ≠ EmptyString →
  skName ≠ pk (keys config) →
  ∃ a b,
    p = a +:+ String DELIMITER (b +:+ String MASK EmptyString)
    ∧ eraseMask p = a +:+ String DELIMITER b
    ∧ Js.count DELIMITER a = 0%nat ∧ Js.count DELIMITER b = 0%nat
    ∧ Js.count MASK a = 0%nat ∧ Js.count MASK b = 0%nat
    ∧ keysCommand config (Some p) cursor
      = Ok (mkCommand QueryCommand
              (mkInput (Some (table config)) None None None
                 (Some (keyNames config))
                 (Some (<[ ":sk" := Some (AttrS (Some b)) ]>
                          {[ ":pk" := Some (AttrS (Some a)) ]}))
                 (Some (projection config))
                 (Some "#pk = :pk and begins_with(#sk, :sk)")
                 None cursor)).
Proof.
  intros Hp Hv Hs Hsk Hname Hdiff.
  apply (validateKeyPattern_nonempty p Hp) in Hv as (He & Hm & Hd).
  assert (MASK ≠ DELIMITER) as Hmd by done.
  pose proof (eraseFirst_last MASK p Hm He) as Hlast.
  pose proof (count_eraseFirst MASK DELIMITER p Hmd) as Hcd.
  rewrite Hd in Hcd.
  destruct (split_cons DELIMITER (Js.eraseFirst MASK p)) as (a & b & Hab & Ha & Hsp);
    [lia|].
  assert (Js.count DELIMITER b = 0%nat) as Hb.
  { rewrite Hab, count_app in Hcd. simpl in Hcd.
    rewrite ?bool_decide_eq_true_2 in Hcd by done. lia. }
  assert (Js.count MASK a = 0%nat ∧ Js.count MASK b = 0%nat) as [Hma Hmb].
  { pose proof (count_eraseFirst_same MASK p) as Hz.
    rewrite Hm, Hab, count_app in Hz. simpl in Hz. lia. }
  exists a, b. split.
  { rewrite Hlast at 1. rewrite Hab. apply append_assoc. }
  split; [done|]. repeat (split; [done|]).
  destruct (startsWith_eraseFirst MASK DELIMITER p Hmd Hm He Hd) as [Hst Hne].
  unfold keysCommand, buildQueryKeysInput, eraseMask. simpl.
  apply truthy_true in Hp as ->.
  rewrite deserializeKey_valid by (split; [done|by rewrite Hst]).
  rewrite Hsk. simpl. apply truthy_true in Hname as ->. simpl.
  rewrite Hsp, (split_no_separator _ _ Hb). simpl.
  rewrite lookup_insert_eq, lookup_insert_ne by congruence.
  by rewrite lookup_singleton_eq.
Qed.

(** X5: for a pattern that [validateKeyPattern] accepts and that does not
    start with the delimiter, [eraseMask] removes the final mask character,
    and the query that [keys] sends asks for the partition before the
    delimiter and for the sort values that begin with what follows it. *)
Theorem pattern_query (config : Config) (p : string) (cursor : option Item) :
  p ≠ EmptyString → validateKeyPattern (Some p) = Ok tt →
  Js.startsWith p DELIMITER = false →
  Spec.hasSortField config → sk (keys config) ≠ Some (pk (keys config)) →
  ∃ a b,
    p = a +:+ String DELIMITER (b +:+ String MASK EmptyString)
    ∧ eraseMask p = a +:+ String DELIMITER b
    ∧ Js.count DELIMITER a = 0%nat ∧ Js.count DELIMITER b = 0%nat
    ∧ Js.count MASK a = 0%nat ∧ Js.count MASK b = 0%nat
    ∧ ∃ input,
        keysCommand config (Some p) cursor = Ok (mkCommand QueryCommand input)
        ∧ ExpressionAttributeValues input
          = Some (<[ ":sk" := Some (AttrS (Some b)) ]>
                    {[ ":pk" := Some (AttrS (Some a)) ]})
        ∧ KeyConditionExpression input
          = Some "#pk = :pk and begins_with(#sk, :sk)"
        ∧ ExclusiveStartKey input = cursor.
Proof.
  intros Hp Hv Hs (skName & Hsk & Hname) Hdiff.
  destruct (keysCommand_pattern config p skName cursor Hp Hv Hs Hsk Hname)
    as (a & b & H1 & H2 & H3 & H4 & H5 & H6 & H7).
  { intros ->. by rewrite Hsk in Hdiff. }
  exists a, b. repeat (split; [done|]). by eexists.
Qed.


Lemma pattern_query_witness :
  ∃ a b, "123+b*" = a +:+ String DELIMITER (b +:+ String MASK EmptyString)
         ∧ eraseMask "123+b*" = a +:+ String DELIMITER b.
Proof.
  destruct (pattern_query Fixture.config "123+b*" None)
    as (a & b & Hp & He & _).
  - done.
  - by vm_compute.
  - done.
  - by exists "Name".
  - done.
  - by exists a, b.
Defined.

(** ** Refusals of [keys], raw records and remainders *)

Section More.

Context {Client : Type}.
Variable send : Client → Command → Client * Res Response.
Variable clock : nat → Z.
Variable config : Config.

(** X6: [keys] refuses a pattern before anything is sent: with the
    bad-pattern error when the check rejects it, and with the
    unsupported-key error when the check accepts it but it starts with the
    delimiter. *)
Theorem keys_rejects_before_call (pattern : option string) (fuel : nat)
    (w : @World Client) :
  (validateKeyPattern pattern = Throw badPattern →
   keysOf send fuel config pattern w = (Throw badPattern, w))
  ∧ (∀ p, pattern = Some p → validateKeyPattern pattern = Ok tt →
          Js.startsWith p DELIMITER = true →
          keysOf send (S fuel) config pattern w = (Throw unsupportedKey, w)).
Proof.
  split.
  - intros Hv. unfold keysOf, bind, lift. by rewrite Hv.
  - intros p -> Hv Hs.
    assert (p ≠ EmptyString) as Hp by (by destruct p).
    pose proof Hv as Hv'.
    apply (validateKeyPattern_nonempty p Hp) in Hv' as (He & Hm & Hd).
    destruct (startsWith_eraseFirst MASK DELIMITER p) as [Hst _]; try done.
    unfold keysOf, bind at 1, lift at 1. rewrite Hv. cbn [keysLoop].
    unfold bind at 1, lift at 1, keysCommand, buildQueryKeysInput, eraseMask.
    simpl. apply truthy_true in Hp as ->.
    rewrite deserializeKey_invalid; [done|]. right. by rewrite Hst.
Qed.

(** X7: on a record in the provider's form whose expiration attribute is
    [{N: n}], [isExpired] reads the clock once and answers
    [parseInt(n) * 1000 < now]; on a record without the expiration
    attribute it throws without reading the clock. *)
Theorem isExpired_raw (attrs : Item) (w : @World Client) :
  (∀ n, attrs !! ex (keys config) = Some (AttrN n) →
        isExpired clock (attrAsJs <$> attrs) config w
        = (Ok (expiredAt (Js.parseInt n) (clock (reads w))),
           mkWorld (client w) (sent w) (S (reads w))))
  ∧ (attrs !! ex (keys config) = None →
     isExpired clock (attrAsJs <$> attrs) config w = (Throw (readOf "N"), w)).
Proof.
  split.
  - intros n Hn. unfold isExpired, bind, lift, DateNow, ret.
    by rewrite lookup_fmap, Hn.
  - intros Hn. unfold isExpired, bind, lift. by rewrite lookup_fmap, Hn.
Qed.

(** X8: the batch builders and a remainder of the provider.  [buildMGetInput]
    and [buildMDelInput] forward the remainder without looking at the keys;
    [buildMSetInput] forwards it too, but only after building every item:
    it reads the clock once per entry and still refuses an invalid key. *)
Theorem remainder_forwarded (ks : list string)
    (readLeft : gmap string (list Item))
    (writeLeft : gmap string (list WriteRequest)) :
  (∃ input, buildMGetInput ks config (Some readLeft) = Ok input
            ∧ BatchItems input = Some (ReadRequests readLeft))
  ∧ (∃ input, buildMDelInput ks config (Some writeLeft) = Ok input
              ∧ BatchItems input = Some (WriteRequests writeLeft))
  ∧ (∀ (args : list (string * Item)) t (w : @World Client),
       Forall (λ kd, Spec.validKey kd.1) args →
       ∃ input,
         buildMSetInput clock args config t (Some writeLeft) w
         = (Ok input,
            mkWorld (client w) (sent w) (length args + reads w))
         ∧ BatchItems input = Some (WriteRequests writeLeft))
  ∧ (∀ key data (args : list (string * Item)) t (w : @World Client),
       key = EmptyString ∨ Js.startsWith key DELIMITER = true →
       (buildMSetInput clock ((key, data) :: args) config t (Some writeLeft) w).1
       = Throw unsupportedKey).
Proof.
  split; [by eexists|]. split; [by eexists|]. split.
  - intros args t w Hargs. unfold buildMSetInput.
    assert (∃ items,
              mapM (λ kd : string * Item,
                      bind (buildItem clock kd.1 kd.2 config t)
                        (λ item, ret (PutRequest item))) args w
              = (Ok items, mkWorld (client w) (sent w) (length args + reads w)))
      as [items Hitems].
    { set (f := λ kd : string * Item,
                  bind (buildItem clock kd.1 kd.2 config t)
                    (λ item, ret (PutRequest item))).
      revert w. induction Hargs as [|kd args Hk _ IH]; intros w.
      - exists []. by destruct w.
      - destruct (buildItem_run clock kd.1 kd.2 config t w Hk) as (dbKey & _ & Hb).
        assert (∃ item, f kd w
                        = (Ok item, mkWorld (client w) (sent w) (S (reads w))))
          as [item Hf].
        { subst f. unfold bind. simpl. rewrite Hb. by eexists. }
        destruct (IH (mkWorld (client w) (sent w) (S (reads w)))) as [items Hi].
        exists (item :: items). cbn [mapM]. unfold bind at 1. rewrite Hf.
        unfold bind at 1. rewrite Hi. unfold ret. cbn [client sent reads length].
        do 2 f_equal. lia. }
    unfold bind at 1. rewrite Hitems. by eexists.
  - intros key data args t w Hk.
    unfold buildMSetInput. cbn [mapM].
    unfold bind, buildItem, expiresAtOf, DateNow, lift, ret. simpl.
    by rewrite (deserializeKey_invalid key config Hk).
Qed.

End More.

(** ** The attribute codec, there and back *)

Lemma convert_round_trip :
  ∀ (v : JsValue) (a : AttributeValue),
    Codec.convertToAttr v = Ok a → Codec.convertToNative a = Ok v.
Proof.
  fix IH 1. intros v a. destruct v as [| |b|n|s|l|m]; simpl.
  - done.
  - by intros [= <-].
  - by intros [= <-].
  - by intros [= <-].
  - by intros [= <-].
  - match goal with
    | |- res_map AttrL (?f l) = _ → _ => set (go := f)
    end.
    destruct (go l) as [attrs|e] eqn:Hgo; [|done]. intros [= <-]. simpl.
    match goal with
    | |- res_map JsArray (?f attrs) = _ => set (back := f)
    end.
    assert (back attrs = Ok l) as ->; [|done].
    revert attrs Hgo. induction l as [|x l IHl]; intros attrs; simpl.
    + by intros [= <-].
    + destruct (Codec.convertToAttr x) as [y|e] eqn:Hx; [|done]. simpl.
      destruct (go l) as [ys|e] eqn:Hl; [|done]. simpl. intros [= <-].
      simpl. rewrite (IH x y Hx). simpl. by rewrite (IHl ys).
  - match goal with
    | |- res_map AttrM (?f m) = _ → _ => set (go := f)
    end.
    destruct (go m) as [attrs|e] eqn:Hgo; [|done]. intros [= <-]. simpl.
    match goal with
    | |- res_map JsObject (?f attrs) = _ => set (back := f)
    end.
    assert (back attrs = Ok m) as ->; [|done].
    revert attrs Hgo. induction m as [|[k x] m IHm]; intros attrs; simpl.
    + by intros [= <-].
    + destruct (Codec.convertToAttr x) as [y|e] eqn:Hx; [|done]. simpl.
      destruct (go m) as [ys|e] eqn:Hm; [|done]. simpl. intros [= <-].
      simpl. rewrite (IH x y Hx). simpl. by rewrite (IHm ys).
Qed.

Lemma marshall_lookup (data : JsRecord) (attrs : Item) name :
  Codec.marshall data = Ok attrs →
  attrs !! name = data !! name ≫= (λ v, Codec.okValue (Codec.convertToAttr v))
  ∧ (∀ v, data !! name = Some v → ∃ a, Codec.convertToAttr v = Ok a).
Proof.
  unfold Codec.marshall, Codec.convertRecord.
  case_bool_decide as Hall; [|done]. intros [= <-]. split.
  - by rewrite lookup_omap.
  - intros v Hv. destruct (Hall name v Hv) as [a Ha].
    destruct (Codec.convertToAttr v); [by eexists|done].
Qed.

(** What [marshall] accepts, [unmarshall] gives back. *)
Lemma unmarshall_marshall (data : JsRecord) (attrs : Item) :
  Codec.marshall data = Ok attrs → Codec.unmarshall attrs = Ok data.
Proof.
  intros Hm. unfold Codec.unmarshall, Codec.convertRecord.
  assert (∀ name a, attrs !! name = Some a →
            ∃ v, data !! name = Some v ∧ Codec.convertToAttr v = Ok a
                 ∧ Codec.convertToNative a = Ok v) as Hback.
  { intros name a Ha. destruct (marshall_lookup data attrs name Hm) as [Hl Hok].
    rewrite Ha in Hl. destruct (data !! name) as [v|]; [|done]. simpl in Hl.
    destruct (Codec.convertToAttr v) as [a'|] eqn:Hv; [|done].
    simpl in Hl. injection Hl as ->. exists v. split; [done|]. split; [done|].
    by apply convert_round_trip. }
  rewrite bool_decide_eq_true_2.
  - f_equal. apply map_eq. intros name. rewrite lookup_omap.
    destruct (attrs !! name) as [a|] eqn:Ha; simpl.
    + destruct (Hback name a Ha) as (v & Hv & _ & Hn). by rewrite Hn, Hv.
    + destruct (marshall_lookup data attrs name Hm) as [Hl Hok].
      rewrite Ha in Hl. destruct (data !! name) as [v|] eqn:Hv; [|done].
      destruct (Hok v eq_refl) as [a Hc]. simpl in Hl. by rewrite Hc in Hl.
  - intros name a Ha. destruct (Hback name a Ha) as (v & _ & _ & Hn).
    by rewrite Hn.
Qed.

(** ** Writing to and deleting from the reference table *)

Lemma sameKey_true names (a b : Item) :
  DynamoDB.sameKey names a b = true ↔ DynamoDB.keyOf names a = DynamoDB.keyOf names b.
Proof. unfold DynamoDB.sameKey. apply bool_decide_eq_true. Qed.

Lemma sameKey_false names (a b : Item) :
  DynamoDB.sameKey names a b = false ↔ DynamoDB.keyOf names a ≠ DynamoDB.keyOf names b.
Proof. unfold DynamoDB.sameKey. apply bool_decide_eq_false. Qed.

(** After [putRow], the key of the item finds the item, and every other
    key finds what it found before. *)
Lemma lookupRow_putRow names item rs k :
  DynamoDB.lookupRow names k (DynamoDB.putRow names item rs)
  = if DynamoDB.sameKey names k item then Some item
    else DynamoDB.lookupRow names k rs.
Proof.
  unfold DynamoDB.putRow.
  induction rs as [|r rs IH]; cbn [DynamoDB.alterRow DynamoDB.lookupRow].
  - cbn. by destruct (DynamoDB.sameKey names k item).
  - destruct (DynamoDB.sameKey names item r) eqn:Hir.
    + cbn [from_option id DynamoDB.lookupRow].
      destruct (DynamoDB.sameKey names k item) eqn:Hki; [done|].
      destruct (DynamoDB.sameKey names k r) eqn:Hkr; [|done].
      apply sameKey_true in Hir, Hkr. apply sameKey_false in Hki. congruence.
    + destruct (DynamoDB.alterRow names item (λ _, item) rs) as [rs'|] eqn:Ha;
        cbn [fmap option_fmap option_map from_option id app DynamoDB.lookupRow] in *.
      * destruct (DynamoDB.sameKey names k r) eqn:Hkr; [|done].
        destruct (DynamoDB.sameKey names k item) eqn:Hki; [|done].
        apply sameKey_true in Hki, Hkr. apply sameKey_false in Hir. congruence.
      * destruct (DynamoDB.sameKey names k r) eqn:Hkr; [|done].
        destruct (DynamoDB.sameKey names k item) eqn:Hki; [|done].
        apply sameKey_true in Hki, Hkr. apply sameKey_false in Hir. congruence.
Qed.

Lemma lookupRow_removeRow names k k' rs :
  DynamoDB.lookupRow names k' (DynamoDB.removeRow names k rs)
  = if DynamoDB.sameKey names k' k then None
    else DynamoDB.lookupRow names k' rs.
Proof.
  unfold DynamoDB.removeRow.
  induction rs as [|r rs IH]; [by destruct (DynamoDB.sameKey names k' k)|].
  rewrite filter_cons. cbn [DynamoDB.lookupRow].
  destruct (decide (DynamoDB.sameKey names k r = false)) as [Hkr|Hkr].
  - cbn [DynamoDB.lookupRow]. rewrite IH.
    destruct (DynamoDB.sameKey names k' k) eqn:Hk'; [|done].
    destruct (DynamoDB.sameKey names k' r) eqn:Hr; [|done].
    apply sameKey_true in Hk', Hr. apply sameKey_false in Hkr. congruence.
  - rewrite IH. apply not_false_is_true in Hkr.
    destruct (DynamoDB.sameKey names k' k) eqn:Hk'; [done|].
    destruct (DynamoDB.sameKey names k' r) eqn:Hr; [|done].
    apply sameKey_true in Hkr, Hr. apply sameKey_false in Hk'. congruence.
Qed.

Lemma unmarshall_insert (attrs : Item) (record : JsRecord) name a v :
  Codec.unmarshall attrs = Ok record →
  Codec.convertToNative a = Ok v →
  Codec.unmarshall (<[ name := a ]> attrs) = Ok (<[ name := v ]> record).
Proof.
  unfold Codec.unmarshall, Codec.convertRecord.
  case_bool_decide as Hall; [|done]. intros [= <-] Hv.
  rewrite bool_decide_eq_true_2.
  - rewrite (omap_insert_Some _ _ _ _ v); [done|by rewrite Hv].
  - apply map_Forall_insert_2; [by rewrite Hv|done].
Qed.

Section Stored.

Variable clock : nat → Z.
Variable config : Config.

Lemma set_run key data ttlArg attrs dbKey t calls n :
  deserializeKey key config = Ok dbKey →
  Codec.marshall (withMeta config data) = Ok attrs →
  ∃ command,
    kind command = PutItemCommand
    ∧ set DynamoDB.send clock config key data ttlArg (mkWorld t calls n)
      = (Ok tt,
         mkWorld
           (DynamoDB.mkTable (DynamoDB.keyAttributes t)
              (DynamoDB.putRow (DynamoDB.keyAttributes t)
                 (<[ ex (keys config)
                       := AttrN (Js.toString
                                   (msToS (clock n + effectiveTtl config ttlArg))) ]>
                    (dbKey ∪ attrs))
                 (DynamoDB.rows t)))
           (calls ++ [(command, Ok emptyResponse)])
           (S n)).
Proof.
  intros Hk Hm. eexists. split; [|].
  2:{ unfold set, buildSetInput, buildItem, expiresAtOf, sendAwait, clientSend,
        bind, DateNow, ret, lift.
      rewrite Hm, Hk. cbn [client sent reads]. unfold DynamoDB.send.
      cbn [kind input PutItem]. reflexivity. }
  done.
Qed.

Lemma del_run key dbKey t calls n :
  deserializeKey key config = Ok dbKey →
  ∃ command,
    kind command = DeleteItemCommand
    ∧ del DynamoDB.send config key (mkWorld t calls n)
      = (Ok tt,
         mkWorld
           (DynamoDB.mkTable (DynamoDB.keyAttributes t)
              (DynamoDB.removeRow (DynamoDB.keyAttributes t) dbKey (DynamoDB.rows t)))
           (calls ++ [(command, Ok emptyResponse)])
           n).
Proof.
  intros Hk. eexists. split; [|].
  2:{ unfold del, buildDelInput, sendAwait, clientSend, bind, ret, lift.
      rewrite Hk. cbn [res_map client sent reads]. unfold DynamoDB.send.
      cbn [kind input Key]. reflexivity. }
  done.
Qed.

Lemma get_absent key dbKey t calls n :
  deserializeKey key config = Ok dbKey →
  DynamoDB.lookupRow (DynamoDB.keyAttributes t) dbKey (DynamoDB.rows t) = None →
  (get DynamoDB.send clock config key (mkWorld t calls n)).1 = Ok JsUndefined
  ∧ (ttlOf DynamoDB.send clock config key (mkWorld t calls n)).1 = Ok (Some (-1)).
Proof.
  intros Hk Hrow. split.
  - unfold get, buildGetInput, sendAwait, clientSend, bind, lift, ret.
    rewrite Hk. cbn [res_map client sent reads]. unfold DynamoDB.send.
    cbn [kind input Key]. by rewrite Hrow.
  - unfold ttlOf, buildTTLInput, sendAwait, clientSend, bind, lift, ret.
    rewrite Hk. cbn [res_map client sent reads]. unfold DynamoDB.send.
    cbn [kind input Key]. by rewrite Hrow.
Qed.

(** X9: deleting then reading.  After [del(key)], [get(key)] returns
    [undefined] and [ttl(key)] returns -1, whatever the table held, and the
    entries under other keys are found as before. *)
Theorem del_then_get (key : string) (dbKey : Item) (t : DynamoDB.Table)
    (calls : list (Command * Res Response)) (n : nat) :
  let names := DynamoDB.keyAttributes t in
  let deleted := del DynamoDB.send config key (mkWorld t calls n) in
  deserializeKey key config = Ok dbKey →
  deleted.1 = Ok tt
  ∧ (get DynamoDB.send clock config key deleted.2).1 = Ok JsUndefined
  ∧ (ttlOf DynamoDB.send clock config key deleted.2).1 = Ok (Some (-1))
  ∧ (∀ k', DynamoDB.sameKey names k' dbKey = false →
           DynamoDB.lookupRow names k' (DynamoDB.rows (client deleted.2))
           = DynamoDB.lookupRow names k' (DynamoDB.rows t)).
Proof.
  intros names deleted Hk. subst deleted.
  destruct (del_run key dbKey t calls n Hk) as (command & _ & ->).
  cbn [fst snd client DynamoDB.rows]. split; [done|].
  assert (DynamoDB.lookupRow names dbKey
            (DynamoDB.removeRow names dbKey (DynamoDB.rows t)) = None) as Hgone.
  { rewrite lookupRow_removeRow.
    by rewrite (proj2 (sameKey_true names dbKey dbKey)). }
  destruct (get_absent key dbKey
              (DynamoDB.mkTable names
                 (DynamoDB.removeRow names dbKey (DynamoDB.rows t)))
              (calls ++ [(command, Ok emptyResponse)])%list n Hk Hgone)
    as [Hg Ht].
  split; [exact Hg|]. split; [exact Ht|].
  intros k' Hk'. rewrite lookupRow_removeRow. unfold names in Hk'.
  cbn [DynamoDB.keyAttributes] in *. by rewrite Hk'.
Qed.

End Stored.

(** ** Writing then reading *)

Section Written.

Variable clock : nat → Z.
Variable config : Config.

(** X10: writing then reading.  Under a schema with a sort field whose
    attribute names are distinct from each other and from [data], on a
    table keyed by the two key attributes, after [set(key, data, ttl)] with
    a key that has a sort segment and metadata that leaves [data] alone,
    [get(key)] returns [data] and [ttl(key)] returns the stored expiration
    (whole seconds) less the current time; what other keys find is
    unchanged. *)
Theorem set_then_get (key : string) (data : JsValue) (ttlArg : option Z)
    (skName : string) (dbKey attrs : Item) (t : DynamoDB.Table)
    (calls : list (Command * Res Response)) (n : nat) :
  let names := [pk (keys config); skName] in
  let stored := set DynamoDB.send clock config key data ttlArg (mkWorld t calls n) in
  sk (keys config) = Some skName →
  skName ≠ EmptyString →
  NoDup [pk (keys config); skName; ex (keys config); "data"] →
  DynamoDB.keyAttributes t = names →
  Spec.validKey key →
  deserializeKey key config = Ok dbKey →
  (0 < Js.count DELIMITER key)%nat →
  Codec.marshall (withMeta config data) = Ok attrs →
  withMeta config data !! "data" = Some data →
  stored.1 = Ok tt
  ∧ (get DynamoDB.send clock config key stored.2).1 = Ok data
  ∧ (ttlOf DynamoDB.send clock config key stored.2).1
    = Ok (Some (msToS (clock n + effectiveTtl config ttlArg) * 1000
                - clock (S n)))
  ∧ (∀ k', DynamoDB.sameKey names k' dbKey = false →
       DynamoDB.lookupRow names k' (DynamoDB.rows (client stored.2))
       = DynamoDB.lookupRow names k' (DynamoDB.rows t)).
Proof.
  intros names stored Hsk Hne Hnd Hnames Hvalid Hdb Hdel Hm Hdata.
  pose proof (deserializeKey_valid key config Hvalid) as Hk.
  rewrite Hsk in Hk. cbn [Js.truthy_opt from_option id] in Hk.
  assert (Js.truthy skName = true) as Htr by (by destruct skName).
  rewrite Htr in Hk.
  pose proof (split_length DELIMITER key) as Hlen.
  destruct (Js.split DELIMITER key) as [|a [|b rest]] eqn:Hsplit;
    cbn [length] in Hlen; [lia|lia|]. clear Hlen.
  cbn [lookup list_lookup] in Hk.
  rewrite Hk in Hdb. injection Hdb as Hdb. rewrite Hdb in Hk.
  set (E := Js.toString (msToS (clock n + effectiveTtl config ttlArg))).
  set (item := <[ ex (keys config) := AttrN E ]> (dbKey ∪ attrs)).
  apply NoDup_cons in Hnd as [Hpk Hnd].
  apply NoDup_cons in Hnd as [Hskn Hnd].
  apply NoDup_cons in Hnd as [Hex _].
  apply not_elem_of_cons in Hpk as (Hps & Hpk).
  apply not_elem_of_cons in Hpk as (Hpe & Hpk).
  apply not_elem_of_cons in Hpk as (Hpd & _).
  apply not_elem_of_cons in Hskn as (Hse & Hskn).
  apply not_elem_of_cons in Hskn as (Hsd & _).
  apply not_elem_of_cons in Hex as (Hed & _).
  destruct (set_run clock config key data ttlArg attrs dbKey t calls n Hk Hm)
    as (command & _ & Hset).
  subst stored. rewrite Hset. cbn [fst snd client DynamoDB.rows].
  rewrite Hnames. fold E. fold item.
  assert (DynamoDB.keyOf names item = DynamoDB.keyOf names dbKey) as Hkey.
  { unfold names, DynamoDB.keyOf, item. rewrite <- Hdb. rewrite !fmap_cons. cbn [fmap list_fmap].
    rewrite !(lookup_insert_ne _ (ex (keys config))) by congruence.
    rewrite (lookup_union_Some_l _ _ _ (AttrS (Some a))).
    2:{ rewrite lookup_insert_ne by congruence. by rewrite lookup_singleton_eq. }
    rewrite (lookup_union_Some_l _ _ _ (AttrS (Some b))).
    2:{ by rewrite lookup_insert_eq. }
    rewrite lookup_insert_eq, lookup_insert_ne by congruence.
    by rewrite lookup_singleton_eq. }
  assert (DynamoDB.lookupRow names dbKey
            (DynamoDB.putRow names item (DynamoDB.rows t)) = Some item) as Hrow.
  { rewrite lookupRow_putRow.
    by rewrite (proj2 (sameKey_true names dbKey item)). }
  set (record := <[ ex (keys config) := JsNumber E ]>
                   (<[ skName := JsString b ]>
                      (<[ pk (keys config) := JsString a ]>
                         (withMeta config data)))).
  assert (Codec.unmarshall item = Ok record) as Hu.
  { unfold item, record. rewrite <- Hdb.
    rewrite <- insert_union_l, <- insert_union_singleton_l.
    apply unmarshall_insert; [|done].
    apply unmarshall_insert; [|done].
    apply unmarshall_insert; [|done].
    by apply unmarshall_marshall. }
  assert (item !! ex (keys config) = Some (AttrN E)) as Hexp
    by (unfold item; by rewrite lookup_insert_eq).
  split; [done|]. split; [|split].
  - rewrite <- Hnames in Hrow.
    rewrite (get_run clock config key dbKey
               (DynamoDB.mkTable names _) _ (S n) item record E Hk);
      cbn [DynamoDB.keyAttributes DynamoDB.rows]; [|by rewrite Hnames in Hrow|done..].
    unfold dataOf, record. rewrite !lookup_insert_ne by congruence.
    by rewrite Hdata.
  - rewrite (ttl_run clock config key dbKey
               (DynamoDB.mkTable names _) _ (S n) item E Hk);
      cbn [DynamoDB.keyAttributes DynamoDB.rows];
      [|done|done|apply toString_truthy].
    unfold E. by rewrite parseInt_toString.
  - intros k' Hdiff. apply sameKey_false in Hdiff.
    rewrite lookupRow_putRow.
    rewrite (proj2 (sameKey_false names k' item)); [done|].
    by rewrite Hkey.
Qed.

End Written.

(** ** Batches against any provider *)

Section Batches.

Context {Client : Type}.
Variable send : Client → Command → Client * Res Response.
Variable clock : nat → Z.
Variable config : Config.

(** Every arrow is started and resumed whatever it does: the promise of an
    element is rejected from the start exactly when its prefix throws, and
    fulfilled only with a result of its rest. *)
Lemma asyncMap_total {X A} (prefix : X → M Command) (rest : X → Response → M A)
    (xs : list X) (w : @World Client) :
  ∃ ps w',
    asyncMap send prefix rest xs w = (Ok ps, w')
    ∧ Forall2 (λ x p,
        match p with
        | Rejected e => ∃ w0, (prefix x w0).1 = Throw e
        | Settles (Ok a) => ∃ response w0, (rest x response w0).1 = Ok a
        | Settles (Throw _) => True
        end) xs ps
    ∧ Forall2 (λ x p, ∀ e, (∀ w0, (prefix x w0).1 = Throw e) → p = Rejected e) xs ps.
Proof.
  unfold asyncMap, bind.
  assert (∀ w, ∃ ss w2,
            mapM (started send prefix) xs w = (Ok ss, w2)
            ∧ Forall2 (λ x (s : X * Res (Res Response)),
                s.1 = x
                ∧ match s.2 with
                  | Throw e => ∃ w0, (prefix x w0).1 = Throw e
                  | Ok _ => ∃ w0 c, (prefix x w0).1 = Ok c
                  end) xs ss) as Hstart.
  { clear w. induction xs as [|x xs IH]; intros w; [by exists [], w|].
    cbn [mapM]. unfold bind at 1.
    unfold started at 1, attempt, bind, clientSend, ret.
    destruct (prefix x w) as [[c|e] w1] eqn:Hp.
    - destruct (send (client w1) c) as [c1 r].
      match goal with |- context [mapM _ xs ?v] => destruct (IH v) as (ss & w2 & -> & HF) end.
      eexists _, _. split; [done|]. constructor; [|done].
      split; [done|]. cbn. exists w, c. by rewrite Hp.
    - destruct (IH w1) as (ss & w2 & -> & HF).
      eexists _, _. split; [done|]. constructor; [|done].
      split; [done|]. cbn. exists w. by rewrite Hp. }
  destruct (Hstart w) as (ss & w2 & -> & HF). clear Hstart.
  revert w2. induction HF as [|x s xs ss [Hx Hs] _ IH]; intros w2;
    [by exists [], w2|].
  cbn [mapM]. unfold bind at 1.
  unfold resumed at 1. destruct s as [x' [[response|e]|e]]; cbn in Hx, Hs |- *;
    subst x'.
  - unfold bind, attempt, ret.
    destruct (rest x response w2) as [r w3] eqn:Hr.
    destruct (IH w3) as (ps & w' & Hps & H1 & H2). unfold bind. rewrite Hps.
    eexists _, _. split; [done|]. split; constructor; try done.
    + destruct r as [a|e]; [|done].
      exists response, w2. by rewrite Hr.
    + intros e He. destruct Hs as (w0 & c & Hc). by rewrite He in Hc.
  - unfold ret. destruct (IH w2) as (ps & w' & Hps & H1 & H2).
    unfold bind. rewrite Hps.
    eexists _, _. split; [done|]. split; constructor; try done.
    + intros e' He. destruct Hs as (w0 & c & Hc). by rewrite He in Hc.
  - unfold ret. destruct (IH w2) as (ps & w' & Hps & H1 & H2).
    unfold bind. rewrite Hps.
    eexists _, _. split; [done|]. split; constructor; try done.
    intros e' He. destruct Hs as (w0 & Hc). rewrite He in Hc. by injection Hc as ->.
Qed.


Lemma mapM_length {A B} (f : A → M B) xs (w : @World Client) ys w' :
  mapM f xs w = (Ok ys, w') → length ys = length xs.
Proof.
  revert w ys. induction xs as [|x xs IH]; intros w ys; cbn [mapM].
  - unfold ret. by intros [= <- _].
  - unfold bind at 1. destruct (f x w) as [[y|e] w1]; [|done].
    unfold bind, ret. destruct (mapM f xs w1) as [[zs|e] w2] eqn:Hz; [|done].
    intros [= <- <-]. cbn. f_equal. by eapply IH.
Qed.

Lemma promiseAll_Ok {A} (ps : list (Promise A)) xs :
  promiseAll ps = Ok xs → ps = (λ a, Settles (Ok a)) <$> xs.
Proof.
  unfold promiseAll. destruct (firstRejected ps) eqn:Hf; [done|].
  revert xs Hf. induction ps as [|p ps IH]; intros xs Hf; cbn [res_mapM].
  - by intros [= <-].
  - destruct p as [e|[a|e]]; cbn in Hf |- *; [done| |done].
    destruct (res_mapM outcome ps) as [ys|] eqn:Hys; cbn; [|done].
    intros [= <-]. cbn. f_equal. by apply IH.
Qed.

(** X11: [mget] answers key by key.  Whatever the provider and the keys,
    when [mget] fulfils, its result has exactly one entry per requested
    key. *)
Theorem mget_aligned (args : list string) (w : @World Client)
    (items : list JsValue) :
  (mget send clock config args w).1 = Ok items →
  length items = length args.
Proof.
  destruct (asyncMap_total (mgetPrefix config) (mgetRest clock config)
              (chunk args 100) w) as (ps & w' & Ha & HF & _).
  rewrite (mget_run send clock config args w ps w' Ha). cbn [fst].
  destruct (promiseAll ps) as [itemss|] eqn:Hp; [|done].
  cbn [res_map]. intros [= <-].
  apply promiseAll_Ok in Hp. subst ps.
  rewrite <- (chunk_concat 100 args) at 1 by lia.
  revert HF. generalize (chunk args 100). clear.
  induction itemss as [|xs itemss IH]; intros chunks HF.
  - by apply Forall2_nil_inv_r in HF as ->.
  - rewrite fmap_cons in HF.
    apply Forall2_cons_inv_r in HF as (ks & chunks' & (response & w0 & Hr) & HF & ->).
    cbn [concat]. rewrite !length_app. f_equal; [|by apply IH].
    unfold mgetRest, bind, lift in Hr.
    destruct (byKey config ∅ _) as [m|]; [|done].
    destruct (mapM _ ks w0) as [r w1] eqn:Hm. cbn in Hr. subst r.
    by eapply mapM_length.
Qed.

End Batches.

(** ** Batches with an unusable key *)

Lemma deserializeKey_error key config e :
  deserializeKey key config = Throw e → e = unsupportedKey.
Proof.
  unfold deserializeKey. destruct (_ || _); [by intros [= <-]|done].
Qed.

Lemma decode_error config ks e :
  res_mapM (λ key, deserializeKey key config) ks = Throw e → e = unsupportedKey.
Proof.
  induction ks as [|k ks IH]; [done|]. cbn [res_mapM].
  destruct (deserializeKey k config) eqn:Hk; cbn [res_bind].
  - destruct (res_mapM _ ks); cbn [res_bind]; [done|].
    intros [= <-]. by apply IH.
  - intros [= <-]. by eapply deserializeKey_error.
Qed.

Lemma decode_fails config ks :
  Exists (λ key, key = EmptyString ∨ Js.startsWith key DELIMITER = true) ks →
  res_mapM (λ key, deserializeKey key config) ks = Throw unsupportedKey.
Proof.
  intros H.
  destruct (res_mapM (λ key, deserializeKey key config) ks) as [ds|e] eqn:Hd.
  - exfalso. apply res_mapM_Forall2 in Hd.
    induction Hd as [|k d ks ds Hk _ IH]; [by apply Exists_nil in H|].
    apply Exists_cons in H as [H|H]; [|by apply IH].
    by rewrite (deserializeKey_invalid k config H) in Hk.
  - by rewrite (decode_error _ _ _ Hd).
Qed.

Lemma Exists_chunk {A} (P : A → Prop) (l : list A) size :
  (0 < size)%nat → Exists P l → Exists (Exists P) (chunk l size).
Proof.
  intros Hs H. rewrite <- (chunk_concat size l Hs) in H.
  induction (chunk l size) as [|c cs IH]; cbn [concat] in H.
  - by apply Exists_nil in H.
  - apply Exists_app in H as [H|H]; [by left|right; by apply IH].
Qed.

Lemma Exists_with {A} (P Q : A → Prop) (l : list A) :
  Forall Q l → Exists P l → Exists (λ x, Q x ∧ P x) l.
Proof.
  induction 1 as [|x l Hx _ IH]; intros H; [by apply Exists_nil in H|].
  apply Exists_cons in H as [H|H]; [by left|right; by apply IH].
Qed.

Section Refused.

Context {Client : Type}.
Variable send : Client → Command → Client * Res Response.
Variable clock : nat → Z.
Variable config : Config.

Lemma firstRejected_bad {X A} (bad : X → Prop) (err : JsError)
    (xs : list X) (ps : list (Promise A)) :
  Forall2 (λ x p, (bad x → p = Rejected err)
                  ∧ ∀ e, p = Rejected e → e = err) xs ps →
  Exists bad xs → firstRejected ps = Some err.
Proof.
  induction 1 as [|x p xs ps [Hb He] _ IH]; intros H;
    [by apply Exists_nil in H|].
  destruct p as [e|r]; cbn [firstRejected].
  - by rewrite (He e).
  - apply Exists_cons in H as [H|H]; [by specialize (Hb H)|by apply IH].
Qed.

Lemma asyncMap_refused {X A} (bad : X → Prop) (err : JsError)
    (prefix : X → M Command) (rest : X → Response → M A) xs (w : @World Client) :
  (∀ x w0, bad x → (prefix x w0).1 = Throw err) →
  (∀ x w0 e, x ∈ xs → (prefix x w0).1 = Throw e → e = err) →
  Exists bad xs →
  ∃ ps w', asyncMap send prefix rest xs w = (Ok ps, w')
           ∧ promiseAll ps = Throw err.
Proof.
  intros Hbad Herr Hex.
  destruct (asyncMap_total send prefix rest xs w) as (ps & w' & Ha & H1 & H2).
  exists ps, w'. split; [done|]. unfold promiseAll.
  rewrite (firstRejected_bad bad err xs ps); [done| |done].
  clear Ha Hex. induction H1 as [|x p xs ps Hp _ IH]; [constructor|].
  apply Forall2_cons_1 in H2 as [Hx H2].
  constructor.
  - split.
    + intros Hb. apply Hx. intros w0. by apply Hbad.
    + intros e ->. destruct Hp as [w0 Hp]. eapply Herr; [by left|done].
  - apply IH; [|done]. intros y w0 e Hy. apply Herr. by right.
Qed.

Lemma asyncMap_single_refused {X A} (prefix : X → M Command)
    (rest : X → Response → M A) x (w w1 : @World Client) e :
  prefix x w = (Throw e, w1) →
  asyncMap send prefix rest [x] w = (Ok [Rejected e], w1).
Proof.
  intros H. unfold asyncMap. cbn [mapM].
  unfold started, attempt, bind, ret. by rewrite H.
Qed.

Lemma msetPrefix_error ttlArg (values : list (string * JsValue))
    (w0 : @World Client) e :
  Forall (λ kd, ∃ attrs, Codec.marshall (withMeta config kd.2) = Ok attrs) values →
  (msetPrefix clock config ttlArg values w0).1 = Throw e → e = unsupportedKey.
Proof.
  intros Hm. unfold msetPrefix. unfold bind at 1, lift.
  destruct (res_mapM_ok (λ kd : string * JsValue,
              res_map (pair kd.1) (Codec.marshall (withMeta config kd.2))) values)
    as (args & -> & _).
  { eapply Forall_impl; [done|]. intros kd [attrs ->]. by eexists. }
  unfold buildMSetInput. generalize (effectiveTtl config ttlArg). intros t.
  clear Hm. unfold bind at 1 2.
  match goal with |- context [mapM ?f args w0] => set (step := f) end.
  assert (∀ w1, (mapM step args w1).1 = Throw e → e = unsupportedKey) as Hstep.
  { clear. induction args as [|kd args IH]; intros w1; [done|].
    cbn [mapM]. unfold bind at 1. unfold step at 1.
    unfold bind at 1, buildItem, expiresAtOf, bind, DateNow, ret, lift.
    destruct (deserializeKey kd.1 config) eqn:Hk; cbn.
    - match goal with |- context [mapM step args ?v] =>
        specialize (IH v); destruct (mapM step args v) as [[?|?] ?] end; [done|].
      exact IH.
    - intros [= <-]. by eapply deserializeKey_error. }
  specialize (Hstep w0). destruct (mapM step args w0) as [[items|e'] w1]; [done|].
  cbn in *. intros [= <-]. by apply Hstep.
Qed.

Lemma msetPrefix_refused ttlArg (values : list (string * JsValue))
    (w0 : @World Client) :
  Forall (λ kd, ∃ attrs, Codec.marshall (withMeta config kd.2) = Ok attrs) values →
  Exists (λ kd, kd.1 = EmptyString ∨ Js.startsWith kd.1 DELIMITER = true) values →
  (msetPrefix clock config ttlArg values w0).1 = Throw unsupportedKey.
Proof.
  intros Hm Hex.
  destruct (msetPrefix clock config ttlArg values w0) as [[command|e] w1] eqn:Hp.
  2:{ cbn. f_equal. eapply (msetPrefix_error ttlArg values w0); [done|].
      by rewrite Hp. }
  exfalso. revert Hp. unfold msetPrefix. unfold bind at 1, lift.
  destruct (res_mapM_ok (λ kd : string * JsValue,
              res_map (pair kd.1) (Codec.marshall (withMeta config kd.2))) values)
    as (args & Hargs & _).
  { eapply Forall_impl; [done|]. intros kd [attrs ->]. by eexists. }
  rewrite Hargs. apply res_mapM_Forall2 in Hargs.
  assert (Exists (λ kd : string * Item,
            kd.1 = EmptyString ∨ Js.startsWith kd.1 DELIMITER = true) args) as Hex'.
  { clear Hm. induction Hargs as [|kd kd' values args Hkd _ IH];
      [by apply Exists_nil in Hex|].
    destruct (Codec.marshall _) as [attrs|]; [|done]. injection Hkd as <-.
    apply Exists_cons in Hex as [H|H]; [by left|right; by apply IH]. }
  clear Hex Hargs Hm.
  unfold buildMSetInput. generalize (effectiveTtl config ttlArg). intros t.
  unfold bind at 1 2.
  match goal with |- context [mapM ?f args w0] => set (step := f) end.
  assert (∀ w1, ∃ e w2, mapM step args w1 = (Throw e, w2)) as Hstep.
  { induction Hex' as [kd args H|kd args _ IH]; intros w2.
    - cbn [mapM]. unfold bind at 1. unfold step at 1.
      unfold bind at 1, buildItem, expiresAtOf, bind, DateNow, ret, lift.
      rewrite (deserializeKey_invalid kd.1 config H). by eexists _, _.
    - cbn [mapM]. unfold bind at 1.
      destruct (step kd w2) as [[y|e] w3]; [|by eexists _, _].
      destruct (IH w3) as (e & w4 & He). unfold bind. rewrite He.
      by eexists _, _. }
  destruct (Hstep w0) as (e & w2 & ->). done.
Qed.

Lemma mgetPrefix_refused ks (w0 : @World Client) :
  Exists (λ key, key = EmptyString ∨ Js.startsWith key DELIMITER = true) ks →
  mgetPrefix config ks w0 = (Throw unsupportedKey, w0).
Proof.
  intros H. unfold mgetPrefix, bind, lift, buildMGetInput.
  by rewrite (decode_fails config ks H).
Qed.

Lemma mgetPrefix_error ks (w0 : @World Client) e :
  (mgetPrefix config ks w0).1 = Throw e → e = unsupportedKey.
Proof.
  unfold mgetPrefix, bind, lift, buildMGetInput.
  destruct (res_mapM _ ks) eqn:Hd; [done|]. cbn. intros [= <-].
  by eapply decode_error.
Qed.

Lemma mdelArrow_refused ks (w0 : @World Client) :
  Exists (λ key, key = EmptyString ∨ Js.startsWith key DELIMITER = true) ks →
  mdelArrow send config ks w0 = (Throw unsupportedKey, w0).
Proof.
  intros H. unfold mdelArrow, bind, lift, buildMDelInput.
  by rewrite (decode_fails config ks H).
Qed.

Lemma mdel_refused (chunks : list (list string)) (w0 : @World Client) :
  Exists (Exists (λ key, key = EmptyString ∨ Js.startsWith key DELIMITER = true))
    chunks →
  (mapM (mdelArrow send config) chunks w0).1 = Throw unsupportedKey.
Proof.
  revert w0. induction chunks as [|ks chunks IH]; intros w0 H;
    [by apply Exists_nil in H|].
  cbn [mapM]. unfold bind at 1.
  destruct (mdelArrow send config ks w0) as [[p|e] w1] eqn:Hp.
  - apply Exists_cons in H as [H|H].
    + by rewrite (mdelArrow_refused ks w0 H) in Hp.
    + specialize (IH w1 H). unfold bind.
      destruct (mapM _ chunks w1) as [[ps|e] w2]; [done|]. exact IH.
  - cbn. f_equal. revert Hp.
    unfold mdelArrow, bind, lift, buildMDelInput, clientSend, ret.
    destruct (res_mapM _ ks) eqn:Hd; cbn.
    + by destruct (send (client w0) _).
    + intros [= <- _]. by eapply decode_error.
Qed.

(** X12: a batch with an unusable key.  When one of the keys is empty or
    starts with the delimiter, [mget], [mset] and [mdel] fail with the
    unsupported-key error whatever the provider answers to the other
    chunks; when the batch fits in one chunk of 25 nothing is sent at
    all. *)
Theorem invalid_key_in_batch (args : list string) (w : @World Client) :
  Exists (λ key, key = EmptyString ∨ Js.startsWith key DELIMITER = true) args →
  (mget send clock config args w).1 = Throw unsupportedKey
  ∧ (mdel send config args w).1 = Throw unsupportedKey
  ∧ (∀ values ttlArg,
       values.*1 = args →
       Forall (λ kd, ∃ attrs, Codec.marshall (withMeta config kd.2) = Ok attrs)
         values →
       (mset send clock config values ttlArg w).1 = Throw unsupportedKey)
  ∧ ((length args ≤ 25)%nat →
     sent (mget send clock config args w).2 = sent w
     ∧ sent (mdel send config args w).2 = sent w
     ∧ ∀ values ttlArg,
         values.*1 = args →
         Forall (λ kd, ∃ attrs, Codec.marshall (withMeta config kd.2) = Ok attrs)
           values →
         sent (mset send clock config values ttlArg w).2 = sent w).
Proof.
  intros Hbad.
  set (invalid := λ key : string,
         key = EmptyString ∨ Js.startsWith key DELIMITER = true) in *.
  assert (∀ values : list (string * JsValue), values.*1 = args →
            Exists (λ kd, invalid kd.1) values) as Hvalues.
  { intros values <-. revert Hbad. clear. induction values as [|kd values IH];
      intros H; [by apply Exists_nil in H|].
    rewrite fmap_cons in H.
    apply Exists_cons in H as [H|H]; [by left|right; by apply IH]. }
  assert (args ≠ []) as Hne by (intros ->; by apply Exists_nil in Hbad).
  split; [|split; [|split]].
  - destruct (asyncMap_refused (Exists invalid) unsupportedKey
                (mgetPrefix config) (mgetRest clock config) (chunk args 100) w)
      as (ps & w' & Ha & Hp).
    + intros ks w0 H. by rewrite (mgetPrefix_refused ks w0 H).
    + intros ks w0 e _. apply mgetPrefix_error.
    + apply Exists_chunk; [lia|done].
    + rewrite (mget_run send clock config args w ps w' Ha). by rewrite Hp.
  - unfold mdel. unfold bind at 1.
    pose proof (mdel_refused (chunk args 25) w
                  (Exists_chunk _ args 25 ltac:(lia) Hbad)) as H.
    destruct (mapM _ (chunk args 25) w) as [[ps|e] w1]; [done|].
    cbn in *. by injection H as ->.
  - intros values ttlArg Hv Hm.
    set (marshalled := λ kd : string * JsValue,
           ∃ attrs, Codec.marshall (withMeta config kd.2) = Ok attrs) in *.
    destruct (asyncMap_refused
                (λ vs, Forall marshalled vs
                       ∧ Exists (λ kd : string * JsValue, invalid kd.1) vs)
                unsupportedKey (msetPrefix clock config ttlArg)
                (λ _ responses, ret responses) (chunk values 25) w)
      as (ps & w' & Ha & Hp).
    + intros vs w0 [H1 H2]. by apply msetPrefix_refused.
    + intros vs w0 e Hvs. apply msetPrefix_error.
      pose proof (chunk_Forall marshalled values 25 Hm) as HF.
      rewrite Forall_forall in HF. by apply HF.
    + apply Exists_with; [by apply chunk_Forall|].
      apply Exists_chunk; [lia|by apply Hvalues].
    + rewrite (mset_run send clock config values ttlArg w ps w' Ha).
      by rewrite Hp.
  - intros Hl. split; [|split].
    + unfold mget. rewrite (chunk_single 100 args Hne) by lia.
      unfold bind at 1.
      by rewrite (asyncMap_single_refused _ _ args w w unsupportedKey
                    (mgetPrefix_refused args w Hbad)).
    + unfold mdel. rewrite (chunk_single 25 args Hne) by lia.
      cbn [mapM]. unfold bind.
      by rewrite (mdelArrow_refused args w Hbad).
    + intros values ttlArg Hv Hm.
      assert (values ≠ []) as Hvne by (intros ->; by rewrite <- Hv in Hne).
      assert (length values ≤ 25)%nat as Hvl
        by (by rewrite <- Hv, length_fmap in Hl).
      unfold mset. rewrite (chunk_single 25 values Hvne) by done.
      pose proof (msetPrefix_refused ttlArg values w Hm (Hvalues values Hv)) as Hr.
      pose proof (quiet_msetPrefix clock config ttlArg values w) as [_ Hq].
      destruct (msetPrefix clock config ttlArg values w) as [r w1] eqn:Hp.
      cbn in Hr, Hq. subst r. unfold bind at 1.
      by rewrite (asyncMap_single_refused _ _ values w w1 unsupportedKey Hp).
Qed.

End Refused.

(** ** Batches against a client that stays as it is *)

Lemma res_mapM_concat {A B} (g : A → Res B) (xss : list (list A)) :
  res_map (λ yss, concat yss) (res_mapM (res_mapM g) xss)
  = res_mapM g (concat xss).
Proof.
  assert (∀ xs ys, res_mapM g (xs ++ ys)
                   = res_bind (res_mapM g xs) (λ a,
                       res_bind (res_mapM g ys) (λ b, Ok (a ++ b)%list))) as Happ.
  { induction xs as [|x xs IH]; intros ys; cbn [app res_mapM res_bind].
    - by destruct (res_mapM g ys).
    - destruct (g x); cbn [res_bind]; [|done]. rewrite IH.
      destruct (res_mapM g xs); cbn [res_bind]; [|done].
      by destruct (res_mapM g ys). }
  induction xss as [|xs xss IH]; [done|].
  cbn [concat res_mapM]. rewrite Happ, <- IH.
  destruct (res_mapM g xs); cbn [res_bind res_map]; [|done].
  by destruct (res_mapM (res_mapM g) xss).
Qed.

Lemma promiseAll_Settles {X A} (g : X → Res A) (xs : list X) :
  promiseAll ((λ x, Settles (g x)) <$> xs) = res_mapM g xs.
Proof.
  rewrite promiseAll_settled.
  - induction xs as [|x xs IH]; [done|].
    rewrite fmap_cons. cbn [res_mapM outcome]. by rewrite IH.
  - apply Forall_fmap, Forall_forall. intros x _. by eexists.
Qed.

Section Stable.

Context {Client : Type}.
Variable send : Client → Command → Client * Res Response.

(** Arrows whose calls leave the client as it is and whose results do not
    depend on when they resume. *)
Lemma asyncMap_stable {X A} (c : Client) (prefix : X → M Command)
    (rest : X → Response → M A) (g : X → Res A) (xs : list X)
    (w : @World Client) :
  (∀ x w0, x ∈ xs → client w0 = c →
     ∃ command w1 response,
       prefix x w0 = (Ok command, w1) ∧ client w1 = c
       ∧ send c command = (c, Ok response)
       ∧ ∀ w2, client w2 = c →
               (rest x response w2).1 = g x ∧ client (rest x response w2).2 = c) →
  client w = c →
  ∃ w', asyncMap send prefix rest xs w = (Ok ((λ x, Settles (g x)) <$> xs), w')
        ∧ client w' = c.
Proof.
  intros Hx Hw. unfold asyncMap. unfold bind at 1.
  assert (∃ ss w1,
            mapM (started send prefix) xs w = (Ok ss, w1) ∧ client w1 = c
            ∧ Forall2 (λ x (s : X * Res (Res Response)),
                ∃ response, s = (x, Ok (Ok response))
                  ∧ ∀ w2, client w2 = c →
                      (rest x response w2).1 = g x
                      ∧ client (rest x response w2).2 = c) xs ss)
    as (ss & w1 & -> & Hw1 & HF).
  { clear -Hx Hw. revert w Hw.
    induction xs as [|x xs IH]; intros w Hw; [by exists [], w|].
    destruct (Hx x w) as (command & w1 & response & Hp & Hc & Hs & Hr);
      [by left|done|].
    cbn [mapM]. unfold bind at 1.
    unfold started at 1, attempt, bind, clientSend, ret.
    rewrite Hp, Hc, Hs.
    match goal with |- context [mapM _ xs ?v] =>
      destruct (IH (λ y v0 Hy, Hx y v0 (list_elem_of_further _ _ _ Hy)) v)
        as (ss & w2 & -> & Hw2 & HF) end; [done|].
    eexists _, _. split; [done|]. split; [done|].
    constructor; [|done]. by exists response. }
  clear Hx Hw. revert w1 Hw1.
  induction HF as [|x s xs ss (response & -> & Hr) _ IH]; intros w1 Hw1;
    [by exists w1|].
  cbn [mapM]. unfold bind at 1. unfold resumed at 1. cbn [fst snd].
  unfold bind at 1, attempt, ret.
  destruct (Hr w1 Hw1) as [Hg Hc].
  destruct (rest x response w1) as [r w2]. cbn in Hg, Hc. subst r.
  destruct (IH w2 Hc) as (w' & Hps & Hw'). unfold bind. rewrite Hps.
  by exists w'.
Qed.

Lemma mapM_stable {X A} (c : Client) (f : X → M A) (g : X → Res A)
    (xs : list X) (w : @World Client) :
  (∀ x w0, x ∈ xs → client w0 = c →
           (f x w0).1 = g x ∧ client (f x w0).2 = c) →
  client w = c →
  ∃ w', mapM f xs w = (res_mapM g xs, w') ∧ client w' = c.
Proof.
  revert w. induction xs as [|x xs IH]; intros w Hf Hw; [by exists w|].
  cbn [mapM res_mapM]. unfold bind at 1.
  destruct (Hf x w) as [Hg Hc]; [by left|done|].
  destruct (f x w) as [[y|e] w1]; cbn in Hg, Hc; rewrite <- Hg;
    [|by exists w1].
  destruct (IH w1 (λ z v0 Hz, Hf z v0 (list_elem_of_further _ _ _ Hz)) Hc)
    as (w2 & Hys & Hc').
  unfold bind, ret. rewrite Hys. exists w2.
  by destruct (res_mapM g xs).
Qed.

End Stable.

(** ** Reading a batch from the reference table *)

Section Table.

(** The schema has a sort field, named differently from the partition
    field. *)
Variable clock : nat → Z.
Variable config : Config.
Variable skName : string.
Hypothesis Hsk : sk (keys config) = Some skName.
Hypothesis Hname : skName ≠ EmptyString.
Hypothesis Hdiff : skName ≠ pk (keys config).

Local Abbreviation names := [pk (keys config); skName].

Lemma deserializeKey_composite a b :
  plain a → plain b →
  deserializeKey (a +:+ String DELIMITER b) config
  = Ok (<[ skName := AttrS (Some b) ]> {[ pk (keys config) := AttrS (Some a) ]}).
Proof.
  intros [Ha Hca] [Hb Hcb]. by apply deserializeKey_segments.
Qed.

Lemma compositeKey_valid key : compositeKey key → Spec.validKey key.
Proof.
  intros (a & b & -> & [Ha Hca] & _). split; [by apply app_nonempty|].
  rewrite startsWith_app by done. by apply startsWith_no_occurrence.
Qed.

(** The row that a composite key finds is encoded as that key. *)
Lemma found_serialize a b (row : Item) :
  b ≠ EmptyString →
  DynamoDB.sameKey names
    (<[ skName := AttrS (Some b) ]> {[ pk (keys config) := AttrS (Some a) ]}) row
  = true →
  serializeKey row config = Ok (Some (a +:+ String DELIMITER b)).
Proof.
  intros Hb Hs. apply sameKey_true in Hs.
  unfold DynamoDB.keyOf in Hs. rewrite !fmap_cons in Hs. cbn [fmap list_fmap] in Hs.
  rewrite lookup_insert_ne, lookup_singleton_eq, lookup_insert_eq in Hs by done.
  cbn [DynamoDB.stringOf] in Hs. injection Hs as Hp Hs.
  unfold serializeKey. rewrite Hsk. cbn [from_option id].
  destruct (row !! pk (keys config)) as [[[pa|]| | | | |]|]; try done.
  destruct (row !! skName) as [[[sb|]| | | | |]|]; try done.
  cbn in Hp, Hs |- *. injection Hp as <-. injection Hs as <-.
  by apply truthy_true in Hb as ->.
Qed.

Lemma liveData_timed {Client} (attrs : Item) (w : @World Client) :
  timed config attrs →
  (liveData clock config attrs w).1 = res_map dataOf (Codec.unmarshall attrs)
  ∧ client (liveData clock config attrs w).2 = client w.
Proof.
  intros [n Hn]. destruct (Codec.unmarshall attrs) as [record|e] eqn:Hu.
  - by rewrite (liveData_number clock config attrs record n w Hu Hn).
  - unfold liveData, bind, lift. by rewrite Hu.
Qed.

(** What a key finds in a table. *)
Local Abbreviation rowOf t key :=
  (match deserializeKey key config with
   | Ok d => DynamoDB.lookupRow (DynamoDB.keyAttributes t) d (DynamoDB.rows t)
   | Throw _ => None
   end).

Local Abbreviation valueOf t key :=
  (match rowOf t key with
   | Some row => res_map dataOf (Codec.unmarshall row)
   | None => Ok JsUndefined
   end).

Lemma lookupRow_elem names' d rs row :
  DynamoDB.lookupRow names' d rs = Some row → row ∈ rs.
Proof.
  induction rs as [|r rs IH]; [done|]. cbn [DynamoDB.lookupRow].
  destruct (DynamoDB.sameKey names' d r); [intros [= <-]; by left|].
  intros H. right. by apply IH.
Qed.

Lemma get_table key (t : DynamoDB.Table) calls n :
  Spec.validKey key →
  Forall (timed config) (DynamoDB.rows t) →
  (get DynamoDB.send clock config key (mkWorld t calls n)).1 = valueOf t key.
Proof.
  intros Hk Ht. rewrite (deserializeKey_valid key config Hk).
  unfold get, buildGetInput, sendAwait, clientSend, bind at 1 2 3, lift.
  rewrite (deserializeKey_valid key config Hk).
  cbn [res_map client sent reads]. unfold DynamoDB.send.
  cbn [kind input Key].
  match goal with |- context [DynamoDB.lookupRow ?a ?b ?c] =>
    destruct (DynamoDB.lookupRow a b c) as [row|] eqn:Hrow end;
    cbn [option_map RItem]; [|done].
  unfold DynamoDB.project. cbn [ProjectionExpression].
  apply liveData_timed. rewrite Forall_forall in Ht. apply Ht.
  by eapply lookupRow_elem.
Qed.

Lemma byKey_found (t : DynamoDB.Table) ks ds acc :
  DynamoDB.keyAttributes t = names →
  Forall2 (λ key d, compositeKey key ∧ deserializeKey key config = Ok d) ks ds →
  ∃ m, byKey config acc
         (DynamoDB.found (DynamoDB.keyAttributes t) (DynamoDB.rows t) ds) = Ok m
       ∧ ∀ key, m !! key
                = if bool_decide (key ∈ ks)
                  then from_option Some (acc !! key) (rowOf t key)
                  else acc !! key.
Proof.
  intros Hnames HF. revert acc.
  induction HF as [|key d ks ds [Hc Hd] _ IH]; intros acc.
  - exists acc. split; [done|]. intros key.
    rewrite bool_decide_eq_false_2; [done|]. apply not_elem_of_nil.
  - unfold DynamoDB.found. cbn [omap list_omap].
    destruct (DynamoDB.lookupRow _ d _) as [row|] eqn:Hrow.
    + cbn [byKey].
      destruct Hc as (a & b & -> & Ha & Hb).
      rewrite (deserializeKey_composite a b Ha Hb) in Hd. injection Hd as <-.
      rewrite (found_serialize a b row); [|apply Hb|].
      2:{ rewrite <- Hnames. by eapply lookupRow_sameKey. }
      cbn [res_bind from_option id].
      destruct (IH (<[ a +:+ String DELIMITER b := row ]> acc)) as (m & Hm & Hl).
      exists m. split; [exact Hm|]. intros key. rewrite Hl.
      destruct (decide (key = a +:+ String DELIMITER b)) as [->|Hne].
      * rewrite (bool_decide_eq_true_2 (_ ∈ _ :: _)) by (by left).
        rewrite (deserializeKey_composite a b Ha Hb), Hrow.
        rewrite lookup_insert_eq. by case_bool_decide.
      * rewrite lookup_insert_ne by done.
        case_bool_decide as Hin.
        -- rewrite bool_decide_eq_true_2; [done|by right].
        -- rewrite bool_decide_eq_false_2; [done|].
           rewrite not_elem_of_cons. by split.
    + destruct (IH acc) as (m & Hm & Hl).
      exists m. split; [exact Hm|]. intros key'. rewrite Hl.
      destruct (decide (key' = key)) as [->|Hne].
      * rewrite (bool_decide_eq_true_2 (_ ∈ _ :: _)) by (by left).
        rewrite Hd, Hrow. by case_bool_decide.
      * case_bool_decide as Hin.
        -- rewrite bool_decide_eq_true_2; [done|by right].
        -- rewrite bool_decide_eq_false_2; [done|].
           rewrite not_elem_of_cons. by split.
Qed.


Lemma decode_composite ks :
  Forall compositeKey ks →
  ∃ ds, res_mapM (λ key, deserializeKey key config) ks = Ok ds
        ∧ Forall2 (λ key d, compositeKey key ∧ deserializeKey key config = Ok d)
            ks ds.
Proof.
  induction 1 as [|key ks Hc _ (ds & Hds & HF)]; [by exists []|].
  pose proof Hc as (a & b & -> & Ha & Hb).
  exists (<[ skName := AttrS (Some b) ]> {[ pk (keys config) := AttrS (Some a) ]}
          :: ds).
  cbn [res_mapM]. rewrite (deserializeKey_composite a b Ha Hb), Hds.
  split; [done|]. constructor; [|done].
  split; [done|]. by apply deserializeKey_composite.
Qed.

Lemma gets_table (args : list string) (t : DynamoDB.Table) calls n :
  Forall (timed config) (DynamoDB.rows t) →
  Forall compositeKey args →
  res_mapM (λ key, (get DynamoDB.send clock config key (mkWorld t calls n)).1)
    args
  = res_mapM (λ key, valueOf t key) args.
Proof.
  intros Ht Hargs. induction Hargs as [|key ks Hc _ IH]; [done|].
  cbn [res_mapM]. rewrite IH.
  by rewrite (get_table key t calls n (compositeKey_valid key Hc) Ht).
Qed.

Lemma mget_table (args : list string) (t : DynamoDB.Table) calls n :
  DynamoDB.keyAttributes t = names →
  Forall (timed config) (DynamoDB.rows t) →
  Forall compositeKey args →
  (mget DynamoDB.send clock config args (mkWorld t calls n)).1
  = res_mapM (λ key, valueOf t key) args.
Proof.
  intros Hnames Ht Hargs.
  destruct (asyncMap_stable DynamoDB.send t (mgetPrefix config)
              (mgetRest clock config) (res_mapM (λ key, valueOf t key))
              (chunk args 100) (mkWorld t calls n)) as (w' & Ha & _); [|done|].
  - intros ks w0 Hks Hw0.
    assert (Forall compositeKey ks) as Hc.
    { pose proof (chunk_Forall compositeKey args 100 Hargs) as HF.
      rewrite Forall_forall in HF. by apply HF. }
    destruct (decode_composite ks Hc) as (ds & Hds & HF).
    unfold mgetPrefix, bind, lift, ret, buildMGetInput. rewrite Hds.
    cbn [res_map]. eexists _, w0, _. split; [done|]. split; [done|].
    unfold DynamoDB.send. cbn [kind input BatchItems]. split; [done|].
    intros w2 Hw2. unfold mgetRest. cbn [Responses].
    rewrite map_fmap_singleton. cbn [mbind option_bind].
    rewrite lookup_singleton_eq. cbn [from_option id].
    destruct (byKey_found t ks ds ∅ Hnames HF) as (m & Hm & Hl).
    rewrite Hm.
    change (bind (lift (Ok m)) ?k w2) with (k m w2). cbv beta.
    destruct (mapM_stable t
                (λ key, match m !! key with
                        | Some attrs => liveData clock config attrs
                        | None => ret JsUndefined
                        end)
                (λ key, valueOf t key) ks w2) as (w3 & -> & Hw3); [|done|done].
    intros key w1 Hkey Hw1. rewrite Hl.
    rewrite bool_decide_eq_true_2 by done. rewrite lookup_empty.
    rewrite Forall2_lookup in HF.
    destruct (deserializeKey key config) as [d|] eqn:Hd; cbn [from_option];
      [|done].
    destruct (DynamoDB.lookupRow _ d _) as [row|] eqn:Hrow; cbn [from_option];
      [|done].
    destruct (liveData_timed row w1) as [H1 H2].
    { rewrite Forall_forall in Ht. apply Ht. by eapply lookupRow_elem. }
    by rewrite H1, H2.
  - rewrite (mget_run DynamoDB.send clock config args _ _ w' Ha). cbn [fst].
    rewrite promiseAll_Settles, res_mapM_concat.
    by rewrite chunk_concat by lia.
Qed.

(** X13: [mget] agrees with [get].  Under a schema with a sort field named
    differently from the partition field, on a table keyed by the two key
    attributes whose rows carry a numeric expiration, reading distinct keys
    made of two plain segments in one [mget] gives, key by key, what [get]
    gives for each of them, and fails when one of them fails.  (A batch
    that names a key twice is refused by the service.) *)
Theorem mget_agrees_with_get (args : list string) (t : DynamoDB.Table)
    (calls : list (Command * Res Response)) (n : nat) :
  DynamoDB.keyAttributes t = names →
  Forall (timed config) (DynamoDB.rows t) →
  Forall compositeKey args →
  NoDup args →
  (mget DynamoDB.send clock config args (mkWorld t calls n)).1
  = res_mapM (λ key, (get DynamoDB.send clock config key (mkWorld t calls n)).1)
      args.
Proof.
  intros Hnames Ht Hargs _.
  by rewrite (mget_table args t calls n Hnames Ht Hargs), gets_table.
Qed.

End Table.

(** ** Writing and deleting batches on the reference table *)

Lemma foldl_write_put names rs items :
  foldl (DynamoDB.write names) rs (PutRequest <$> items)
  = foldl (λ acc item, DynamoDB.putRow names item acc) rs items.
Proof. revert rs. induction items as [|x items IH]; intros rs; [done|]. apply IH. Qed.

Lemma foldl_write_delete names rs ds :
  foldl (DynamoDB.write names) rs (DeleteRequest <$> ds)
  = foldl (λ acc d, DynamoDB.removeRow names d acc) rs ds.
Proof. revert rs. induction ds as [|x ds IH]; intros rs; [done|]. apply IH. Qed.

Section Effects.

Variable clock : nat → Z.
Variable config : Config.

Local Abbreviation World := (@World DynamoDB.Table).

Lemma buildItems_table (args : list (string * Item)) t0 (w : World) :
  Forall (λ a : string * Item, Spec.validKey a.1) args →
  ∃ items,
    mapM (λ kd : string * Item,
            bind (buildItem clock kd.1 kd.2 config t0)
              (λ item, ret (PutRequest item))) args w
    = (Ok (PutRequest <$> items),
       mkWorld (client w) (sent w) (reads w + length args))
    ∧ Forall2 (λ (a : string * Item) item,
        ∃ d seconds, deserializeKey a.1 config = Ok d
          ∧ item = <[ ex (keys config) := AttrN (Js.toString seconds) ]> (d ∪ a.2))
        args items.
Proof.
  intros H. revert w.
  set (step := λ kd : string * Item,
         bind (buildItem clock kd.1 kd.2 config t0)
           (λ item, ret (PutRequest item))).
  induction H as [|a args Ha _ IH]; intros w.
  - exists []. split; [|done]. cbn. unfold ret. destruct w. cbn. do 2 f_equal. lia.
  - destruct (buildItem_run clock a.1 a.2 config t0 w Ha) as (d & Hd & Hb).
    destruct (IH (mkWorld (client w) (sent w) (S (reads w)))) as (items & Hi & HF).
    eexists (_ :: items). split.
    + cbn [mapM]. unfold bind at 1. unfold step at 1. unfold bind at 1.
      rewrite Hb. unfold ret at 1. unfold bind. rewrite Hi. unfold ret.
      cbn. do 3 f_equal. lia.
    + constructor; [|done]. by eexists _, _.
Qed.

Lemma msetPrefix_table ttlArg (values : list (string * JsValue)) (w : World) :
  Forall (storable config) values →
  ∃ items,
    msetPrefix clock config ttlArg values w
    = (Ok (mkCommand BatchWriteItemCommand
             (mkInput None None None
                (Some (WriteRequests {[ table config := PutRequest <$> items ]}))
                None None None None None None)),
       mkWorld (client w) (sent w) (reads w + length values))
    ∧ Forall2 (stores config) values items.
Proof.
  intros Hv.
  destruct (res_mapM_ok
              (λ kd : string * JsValue,
                 res_map (pair kd.1) (Codec.marshall (withMeta config kd.2)))
              values) as (args & Ha & Hl).
  { eapply Forall_impl; [done|]. intros kd [_ [attrs ->]]. by eexists. }
  pose proof (res_mapM_Forall2 _ _ _ Ha) as HF.
  assert (Forall (λ a : string * Item, Spec.validKey a.1) args) as Hargs.
  { clear Hl Ha. induction HF as [|kd a values args Hkd _ IH]; [constructor|].
    apply Forall_cons in Hv as [[Hk _] Hv]. constructor; [|by apply IH].
    destruct (Codec.marshall (withMeta config kd.2)); [|done].
    simpl in Hkd. by injection Hkd as <-. }
  destruct (buildItems_table args (effectiveTtl config ttlArg) w Hargs)
    as (items & Hi & HI).
  exists items. split.
  - unfold msetPrefix, buildMSetInput, bind at 1, lift. rewrite Ha.
    unfold bind at 1 2. rewrite Hi. unfold ret. cbn [from_option id].
    by rewrite Hl.
  - clear Hi Ha Hl Hargs Hv. revert items HI.
    induction HF as [|kd a values args Hkd _ IH]; intros items HI.
    + by apply Forall2_nil_inv_l in HI as ->.
    + apply Forall2_cons_inv_l in HI as (item & items' & (d & seconds & Hd & ->) & HI & ->).
      constructor; [|by apply IH].
      destruct (Codec.marshall (withMeta config kd.2)) as [attrs|] eqn:Hm; [|done].
      cbn in Hkd. injection Hkd as <-. cbn in Hd |- *.
      by exists d, attrs, seconds.
Qed.

Lemma mset_started ttlArg (chunks : list (list (string * JsValue))) (w : World) :
  Forall (Forall (storable config)) chunks →
  ∃ ss items w1,
    mapM (started DynamoDB.send (msetPrefix clock config ttlArg)) chunks w
    = (Ok ss, w1)
    ∧ client w1
      = DynamoDB.mkTable (DynamoDB.keyAttributes (client w))
          (foldl (λ acc item,
                    DynamoDB.putRow (DynamoDB.keyAttributes (client w)) item acc)
             (DynamoDB.rows (client w)) items)
    ∧ Forall2 (stores config) (concat chunks) items
    ∧ Forall (λ s : list (string * JsValue) * Res (Res Response),
                ∃ response, s.2 = Ok (Ok response)) ss.
Proof.
  intros H. revert w. induction H as [|values chunks Hv _ IH]; intros w.
  - exists [], [], w. repeat split; try done. by destruct w as [[] ? ?].
  - destruct (msetPrefix_table ttlArg values w Hv) as (items & Hp & HF).
    cbn [mapM]. unfold bind at 1.
    unfold started at 1, attempt, bind, clientSend, ret.
    rewrite Hp. cbn [client sent reads]. unfold DynamoDB.send at 1.
    cbn [kind input BatchItems]. rewrite map_to_list_singleton.
    cbn [fmap list_fmap snd concat]. rewrite app_nil_r, foldl_write_put.
    match goal with |- context [mapM _ chunks ?v] =>
      destruct (IH v) as (ss & items' & w1 & -> & Hc & HF' & Hss) end.
    cbn [client DynamoDB.keyAttributes DynamoDB.rows] in Hc.
    eexists _, (items ++ items')%list, w1. split; [done|].
    split; [by rewrite foldl_app|].
    split; [by apply Forall2_app|].
    constructor; [by eexists|done].
Qed.

Lemma resumed_ret (ss : list (list (string * JsValue) * Res (Res Response)))
    (w : World) :
  Forall (λ s : list (string * JsValue) * Res (Res Response),
            ∃ response, s.2 = Ok (Ok response)) ss →
  ∃ ps, mapM (resumed (λ _ responses, ret responses)) ss w = (Ok ps, w)
        ∧ Forall (λ p, ∃ a, p = Settles (Ok a)) ps.
Proof.
  induction 1 as [|[x r] ss [response Hr] _ (ps & Hps & HF)]; [by exists []|].
  cbn in Hr. subst r. exists (Settles (Ok response) :: ps).
  cbn [mapM]. unfold bind at 1, resumed at 1. cbn [fst snd].
  unfold bind at 1, attempt, ret at 1 2. unfold bind. rewrite Hps.
  split; [done|]. constructor; [by eexists|done].
Qed.

Lemma mset_table (args : list (string * JsValue)) ttlArg (w : World) :
  Forall (storable config) args →
  ∃ items w',
    mset DynamoDB.send clock config args ttlArg w = (Ok tt, w')
    ∧ client w'
      = DynamoDB.mkTable (DynamoDB.keyAttributes (client w))
          (foldl (λ acc item,
                    DynamoDB.putRow (DynamoDB.keyAttributes (client w)) item acc)
             (DynamoDB.rows (client w)) items)
    ∧ Forall2 (stores config) args items.
Proof.
  intros Hargs.
  destruct (mset_started ttlArg (chunk args 25) w (chunk_Forall _ _ _ Hargs))
    as (ss & items & w1 & Hs & Hc & HF & Hss).
  destruct (resumed_ret ss w1 Hss) as (ps & Hps & Hok).
  exists items, w1.
  rewrite (mset_run DynamoDB.send clock config args ttlArg w ps w1).
  - destruct (promiseAll_fulfilled ps Hok) as [xs ->].
    split; [done|]. split; [done|]. by rewrite chunk_concat in HF by lia.
  - unfold asyncMap, bind. by rewrite Hs.
Qed.

Lemma mdel_table (args : list string) (w : World) :
  Forall Spec.validKey args →
  ∃ ds w',
    mdel DynamoDB.send config args w = (Ok tt, w')
    ∧ client w'
      = DynamoDB.mkTable (DynamoDB.keyAttributes (client w))
          (foldl (λ acc d,
                    DynamoDB.removeRow (DynamoDB.keyAttributes (client w)) d acc)
             (DynamoDB.rows (client w)) ds)
    ∧ Forall2 (λ key d, deserializeKey key config = Ok d) args ds.
Proof.
  intros Hargs.
  assert (∀ chunks (w : World), Forall (Forall Spec.validKey) chunks →
            ∃ ps ds w',
              mapM (mdelArrow DynamoDB.send config) chunks w = (Ok ps, w')
              ∧ client w'
                = DynamoDB.mkTable (DynamoDB.keyAttributes (client w))
                    (foldl (λ acc d,
                        DynamoDB.removeRow (DynamoDB.keyAttributes (client w)) d acc)
                       (DynamoDB.rows (client w)) ds)
              ∧ Forall2 (λ key d, deserializeKey key config = Ok d)
                  (concat chunks) ds
              ∧ Forall (λ p, ∃ a, p = Settles (Ok a)) ps) as Hchunks.
  { clear. intros chunks w H. revert w.
    induction H as [|ks chunks Hks _ IH]; intros w.
    - exists [], [], w. repeat split; try done. by destruct w as [[] ? ?].
    - destruct (decode_all config ks Hks) as (ds & Hd & _).
      cbn [mapM]. unfold bind at 1.
      unfold mdelArrow at 1, bind, lift, buildMDelInput, clientSend, ret.
      rewrite Hd. cbn [res_map]. unfold DynamoDB.send at 1.
      cbn [kind input BatchItems]. rewrite map_to_list_singleton.
      cbn [fmap list_fmap snd concat]. rewrite app_nil_r, foldl_write_delete.
      match goal with |- context [mapM _ chunks ?v] =>
        destruct (IH v) as (ps & ds' & w1 & -> & Hc & HF' & Hps) end.
      cbn [client DynamoDB.keyAttributes DynamoDB.rows] in Hc.
      eexists _, (ds ++ ds')%list, w1. split; [done|].
      split; [by rewrite foldl_app|].
      split; [apply Forall2_app; [by apply res_mapM_Forall2|done]|].
      constructor; [by eexists|done]. }
  destruct (Hchunks (chunk args 25) w (chunk_Forall _ _ _ Hargs))
    as (ps & ds & w' & Hm & Hc & HF & Hok).
  exists ds, w'.
  rewrite (mdel_run DynamoDB.send config args w ps w' Hm).
  destruct (promiseAll_fulfilled ps Hok) as [xs ->].
  split; [done|]. split; [done|]. by rewrite chunk_concat in HF by lia.
Qed.

End Effects.

Lemma lookupRow_puts_other names k items rs :
  Forall (λ item, DynamoDB.sameKey names k item = false) items →
  DynamoDB.lookupRow names k
    (foldl (λ acc item, DynamoDB.putRow names item acc) rs items)
  = DynamoDB.lookupRow names k rs.
Proof.
  intros H. revert rs. induction H as [|item items Hi _ IH]; intros rs; [done|].
  cbn [foldl]. rewrite IH, lookupRow_putRow. by rewrite Hi.
Qed.

(** Of several items written in a row, a key finds the one that bears it
    when no other does. *)
Lemma lookupRow_puts names k items rs i item :
  items !! i = Some item →
  DynamoDB.sameKey names k item = true →
  (∀ j other, j ≠ i → items !! j = Some other →
              DynamoDB.sameKey names k other = false) →
  DynamoDB.lookupRow names k
    (foldl (λ acc item, DynamoDB.putRow names item acc) rs items)
  = Some item.
Proof.
  revert rs i. induction items as [|x items IH]; intros rs i Hi Hk Ho; [done|].
  cbn [foldl]. destruct i as [|i].
  - injection Hi as ->. rewrite lookupRow_puts_other.
    + by rewrite lookupRow_putRow, Hk.
    + apply Forall_lookup. intros j other Hj. by apply (Ho (S j)).
  - apply (IH _ i); [done|done|].
    intros j other Hj Hother. apply (Ho (S j)); [lia|done].
Qed.

Lemma lookupRow_removes names k ds rs :
  DynamoDB.lookupRow names k
    (foldl (λ acc d, DynamoDB.removeRow names d acc) rs ds)
  = if bool_decide (Exists (λ d, DynamoDB.sameKey names k d = true) ds)
    then None else DynamoDB.lookupRow names k rs.
Proof.
  revert rs. induction ds as [|d ds IH]; intros rs.
  - rewrite bool_decide_eq_false_2; [done|]. by intros H%Exists_nil.
  - cbn [foldl]. rewrite IH, lookupRow_removeRow.
    destruct (DynamoDB.sameKey names k d) eqn:Hd.
    + rewrite (bool_decide_eq_true_2 (Exists _ (d :: ds))) by (by left).
      by case_bool_decide.
    + case_bool_decide as He.
      * rewrite bool_decide_eq_true_2; [done|by right].
      * rewrite bool_decide_eq_false_2; [done|].
        intros [H|H]%Exists_cons; [congruence|done].
Qed.

Lemma Forall_putRow (P : Item → Prop) names item rs :
  P item → Forall P rs → Forall P (DynamoDB.putRow names item rs).
Proof.
  intros Hi Hrs. unfold DynamoDB.putRow.
  induction Hrs as [|r rs Hr Hrs IH]; cbn [DynamoDB.alterRow from_option id app].
  - by constructor.
  - destruct (DynamoDB.sameKey names item r); cbn [from_option id].
    + by constructor.
    + destruct (DynamoDB.alterRow _ _ _ rs);
        cbn [fmap option_fmap option_map from_option id app] in *;
        by constructor.
Qed.

Lemma Forall_puts (P : Item → Prop) names items rs :
  Forall P items → Forall P rs →
  Forall P (foldl (λ acc item, DynamoDB.putRow names item acc) rs items).
Proof.
  intros H. revert rs. induction H as [|item items Hi _ IH]; intros rs Hrs; [done|].
  cbn [foldl]. apply IH. by apply Forall_putRow.
Qed.

Lemma Forall_removes (P : Item → Prop) names ds rs :
  Forall P rs →
  Forall P (foldl (λ acc d, DynamoDB.removeRow names d acc) rs ds).
Proof.
  revert rs. induction ds as [|d ds IH]; intros rs Hrs; [done|].
  cbn [foldl]. apply IH. unfold DynamoDB.removeRow.
  apply Forall_forall. intros r [_ Hr]%list_elem_of_filter.
  by apply (proj1 (Forall_forall _ _) Hrs).
Qed.

Section Batch.

(** The schema has a sort field, and the names of the partition, sort and
    expiration attributes and [data] are pairwise distinct. *)
Variable clock : nat → Z.
Variable config : Config.
Variable skName : string.
Hypothesis Hsk : sk (keys config) = Some skName.
Hypothesis Hname : skName ≠ EmptyString.
Hypothesis Hnd : NoDup [pk (keys config); skName; ex (keys config); "data"].

Local Abbreviation names := [pk (keys config); skName].

Lemma names_distinct :
  skName ≠ pk (keys config)
  ∧ ex (keys config) ≠ pk (keys config) ∧ ex (keys config) ≠ skName
  ∧ pk (keys config) ≠ "data" ∧ skName ≠ "data" ∧ ex (keys config) ≠ "data".
Proof.
  pose proof Hnd as H.
  apply NoDup_cons in H as [Hpk H].
  apply NoDup_cons in H as [Hskn H].
  apply NoDup_cons in H as [Hex _].
  apply not_elem_of_cons in Hpk as (Hps & Hpk).
  apply not_elem_of_cons in Hpk as (Hpe & Hpk).
  apply not_elem_of_cons in Hpk as (Hpd & _).
  apply not_elem_of_cons in Hskn as (Hse & Hskn).
  apply not_elem_of_cons in Hskn as (Hsd & _).
  apply not_elem_of_cons in Hex as (Hed & _).
  repeat split; congruence.
Qed.

Lemma keyOf_composite a b :
  DynamoDB.keyOf names
    (<[ skName := AttrS (Some b) ]> {[ pk (keys config) := AttrS (Some a) ]})
  = [Some a; Some b].
Proof.
  destruct names_distinct as (Hd & _).
  unfold DynamoDB.keyOf. rewrite !fmap_cons. cbn [fmap list_fmap].
  rewrite lookup_insert_ne, lookup_singleton_eq, lookup_insert_eq by done.
  done.
Qed.

(** The item stored for an entry bears the key of the entry, carries a
    numeric expiration and is read back as the entry's value. *)
Lemma stored_item (kd : string * JsValue) (item : Item) a b :
  kd.1 = a +:+ String DELIMITER b → plain a → plain b →
  withMeta config kd.2 !! "data" = Some kd.2 →
  stores config kd item →
  DynamoDB.keyOf names item = [Some a; Some b]
  ∧ timed config item
  ∧ ∃ record, Codec.unmarshall item = Ok record ∧ dataOf record = kd.2.
Proof.
  intros Hkey Ha Hb Hdata (d & attrs & seconds & Hd & Hm & ->).
  destruct names_distinct as (Hps & Hpe & Hse & Hpd & Hsd & Hed).
  rewrite Hkey in Hd.
  rewrite (deserializeKey_composite config skName Hsk Hname a b Ha Hb) in Hd.
  injection Hd as <-.
  split; [|split].
  - unfold DynamoDB.keyOf. rewrite !fmap_cons. cbn [fmap list_fmap].
    rewrite !(lookup_insert_ne _ (ex (keys config))) by congruence.
    rewrite (lookup_union_Some_l _ _ _ (AttrS (Some a))).
    2:{ rewrite lookup_insert_ne by congruence. by rewrite lookup_singleton_eq. }
    rewrite (lookup_union_Some_l _ _ _ (AttrS (Some b))).
    2:{ by rewrite lookup_insert_eq. }
    done.
  - eexists. by rewrite lookup_insert_eq.
  - exists (<[ ex (keys config) := JsNumber (Js.toString seconds) ]>
              (<[ skName := JsString b ]>
                 (<[ pk (keys config) := JsString a ]>
                    (withMeta config kd.2)))).
    split.
    + rewrite <- insert_union_l, <- insert_union_singleton_l.
      apply unmarshall_insert; [|done].
      apply unmarshall_insert; [|done].
      apply unmarshall_insert; [|done].
      by apply unmarshall_marshall.
    + unfold dataOf. rewrite !lookup_insert_ne by congruence.
      by rewrite Hdata.
Qed.

(** X14: writing then reading a batch.  Under a schema with a sort field
    whose attribute names are distinct from each other and from [data], on
    a table keyed by the two key attributes, entries with distinct
    two-segment keys that [mset] stores are read back by [get], each under
    its key, and by one [mget] in the order of the keys. *)
Theorem mset_then_mget (args : list (string * JsValue)) (ttlArg : option Z)
    (t : DynamoDB.Table) (calls : list (Command * Res Response)) (n : nat) :
  let stored :=
    mset DynamoDB.send clock config args ttlArg (mkWorld t calls n) in
  DynamoDB.keyAttributes t = names →
  Forall (timed config) (DynamoDB.rows t) →
  Forall (storable config) args →
  Forall (λ kd, compositeKey kd.1) args →
  Forall (λ kd, withMeta config kd.2 !! "data" = Some kd.2) args →
  NoDup args.*1 →
  stored.1 = Ok tt
  ∧ Forall (λ kd, (get DynamoDB.send clock config kd.1 stored.2).1 = Ok kd.2)
      args
  ∧ (mget DynamoDB.send clock config args.*1 stored.2).1 = Ok args.*2.
Proof.
  intros stored Hnames Ht Hst Hck Hdata Hdup.
  destruct names_distinct as (Hps & Hpe & Hse & Hpd & Hsd & Hed).
  destruct (mset_table clock config args ttlArg (mkWorld t calls n) Hst)
    as (items & w' & Hm & Hc & HF).
  subst stored. rewrite Hm. cbn [fst snd client] in *.
  destruct w' as [t' calls' n']. cbn [client] in Hc. rewrite Hnames in Hc.
  assert (Forall (timed config) (DynamoDB.rows t')) as Ht'.
  { rewrite Hc. cbn [DynamoDB.rows]. apply Forall_puts; [|done].
    apply Forall_forall. intros item Hitem.
    apply list_elem_of_lookup in Hitem as [i Hi].
    destruct (Forall2_lookup_r _ _ _ _ _ HF Hi) as (kd & Hkd & Hs).
    rewrite Forall_lookup in Hck, Hdata.
    destruct (Hck i kd Hkd) as (a & b & Hkey & Ha & Hb).
    by destruct (stored_item kd item a b Hkey Ha Hb (Hdata i kd Hkd) Hs)
      as (_ & Htimed & _). }
  assert (Forall (λ kd, (get DynamoDB.send clock config kd.1
                           (mkWorld t' calls' n')).1 = Ok kd.2) args) as Hget.
  { apply Forall_lookup. intros i kd Hkd.
    destruct (Forall2_lookup_l _ _ _ _ _ HF Hkd) as (item & Hi & Hs).
    pose proof (proj1 (Forall_lookup _ _) Hck i kd Hkd)
      as (a & b & Hkey & Ha & Hb).
    pose proof (proj1 (Forall_lookup _ _) Hdata i kd Hkd) as Hd.
    destruct (stored_item kd item a b Hkey Ha Hb Hd Hs)
      as (Hko & [lit Hlit] & record & Hu & Hrec).
    rewrite <- Hrec.
    apply (get_run clock config kd.1
             (<[ skName := AttrS (Some b) ]>
                {[ pk (keys config) := AttrS (Some a) ]})
             t' calls' n' item record lit); [| |done|done].
    { rewrite Hkey. by apply deserializeKey_composite. }
    rewrite Hc. cbn [DynamoDB.keyAttributes DynamoDB.rows].
    apply (lookupRow_puts names _ items _ i item Hi).
    { apply sameKey_true. by rewrite keyOf_composite, Hko. }
    intros j other Hj Ho. apply sameKey_false. rewrite keyOf_composite.
    destruct (Forall2_lookup_r _ _ _ _ _ HF Ho) as (kd' & Hkd' & Hs').
    pose proof (proj1 (Forall_lookup _ _) Hck j kd' Hkd')
      as (a' & b' & Hkey' & Ha' & Hb').
    pose proof (proj1 (Forall_lookup _ _) Hdata j kd' Hkd') as Hd'.
    destruct (stored_item kd' other a' b' Hkey' Ha' Hb' Hd' Hs') as (-> & _).
    intros [= -> ->]. apply Hj.
    apply (NoDup_lookup args.*1 j i (a' +:+ String DELIMITER b') Hdup).
    - by rewrite list_lookup_fmap, Hkd', <- Hkey'.
    - by rewrite list_lookup_fmap, Hkd, <- Hkey. }
  split; [done|]. split; [done|].
  rewrite (mget_table clock config skName Hsk Hname Hps args.*1 t' calls' n'),
    <- (gets_table clock config args.*1 t' calls' n').
  - clear -Hget. induction Hget as [|kd args Hkd _ IH]; [done|].
    rewrite !fmap_cons. cbn [res_mapM]. by rewrite Hkd, IH.
  - done.
  - by apply Forall_fmap.
  - by rewrite Hc.
  - done.
  - by apply Forall_fmap.
Qed.

End Batch.

Section Deleted.

(** The schema has a sort field, named differently from the partition
    field. *)
Variable clock : nat → Z.
Variable config : Config.
Variable skName : string.
Hypothesis Hsk : sk (keys config) = Some skName.
Hypothesis Hname : skName ≠ EmptyString.
Hypothesis Hdiff : skName ≠ pk (keys config).

Local Abbreviation names := [pk (keys config); skName].

(** X15: deleting a batch.  Under a schema with a sort field named
    differently from the partition field, after an [mdel] of distinct keys
    made of two plain segments, [get] returns [undefined] for each of the
    keys; on a table keyed by the two key attributes whose rows carry a
    numeric expiration, one [mget] of the keys returns [undefined] for
    each.  (A batch that names a key twice is refused by the service.) *)
Theorem mdel_then_mget (args : list string)
    (t : DynamoDB.Table) (calls : list (Command * Res Response)) (n : nat) :
  let deleted := mdel DynamoDB.send config args (mkWorld t calls n) in
  NoDup args →
  Forall compositeKey args →
  deleted.1 = Ok tt
  ∧ Forall (λ key, (get DynamoDB.send clock config key deleted.2).1
                   = Ok JsUndefined) args
  ∧ (DynamoDB.keyAttributes t = names →
     Forall (timed config) (DynamoDB.rows t) →
     (mget DynamoDB.send clock config args deleted.2).1
     = Ok ((λ _, JsUndefined) <$> args)).
Proof.
  intros deleted _ Hck.
  assert (Forall Spec.validKey args) as Hargs
    by (eapply Forall_impl; [exact Hck|]; intros key; apply compositeKey_valid).
  destruct (mdel_table config args (mkWorld t calls n) Hargs)
    as (ds & w' & Hm & Hc & HF).
  subst deleted. rewrite Hm. cbn [fst snd client] in *.
  destruct w' as [t' calls' n']. cbn [client] in Hc.
  assert (Forall (λ key, (get DynamoDB.send clock config key
                            (mkWorld t' calls' n')).1 = Ok JsUndefined) args)
    as Hget.
  { apply Forall_lookup. intros i key Hkey.
    destruct (Forall2_lookup_l _ _ _ _ _ HF Hkey) as (d & Hd & Hdec).
    apply (get_absent clock config key d t' calls' n' Hdec).
    rewrite Hc. cbn [DynamoDB.keyAttributes DynamoDB.rows].
    rewrite lookupRow_removes. rewrite bool_decide_eq_true_2; [done|].
    apply Exists_exists. exists d. split; [by eapply list_elem_of_lookup_2|].
    by apply sameKey_true. }
  split; [done|]. split; [done|].
  intros Hnames Ht.
  assert (Forall (timed config) (DynamoDB.rows t')) as Ht'
    by (rewrite Hc; cbn [DynamoDB.rows]; by apply Forall_removes).
  rewrite (mget_table clock config skName Hsk Hname Hdiff args t' calls' n'),
    <- (gets_table clock config args t' calls' n').
  - clear -Hget. induction Hget as [|key args Hkey _ IH]; [done|].
    rewrite fmap_cons. cbn [res_mapM]. by rewrite Hkey, IH.
  - done.
  - done.
  - by rewrite Hc.
  - done.
  - done.
Qed.

End Deleted.

(** ** Listing keys *)

Lemma prefix_composite c a b a' b' :
  Js.count c a = 0%nat → Js.count c a' = 0%nat →
  String.prefix (a +:+ String c b) (a' +:+ String c b')
  = bool_decide (a = a') && String.prefix b b'.
Proof.
  revert a'. induction a as [|x a IH]; intros [|x' a'] Ha Ha'; simpl in *.
  - by destruct (ascii_dec c c).
  - case_bool_decide as Hx; [done|].
    by destruct (ascii_dec c x'); [congruence|].
  - case_bool_decide as Hx; [done|].
    by destruct (ascii_dec x c); [congruence|].
  - case_bool_decide as Hx; [done|]. case_bool_decide as Hx'; [done|].
    destruct (ascii_dec x x') as [->|Hne].
    + rewrite IH by done. f_equal. apply bool_decide_ext.
      split; [by intros ->|congruence].
    + rewrite bool_decide_eq_false_2; [done|congruence].
Qed.

Section Turn.

Context {Client : Type}.
Variable send : Client → Command → Client * Res Response.

(** One turn of the loop of [keys] whose request is answered. *)
Lemma keysLoop_turn fuel config pattern cursor found (w : @World Client)
    command c' response :
  keysCommand config pattern cursor = Ok command →
  send (client w) command = (c', Ok response) →
  keysLoop send (S fuel) config pattern cursor found w
  = let w1 := mkWorld c' (sent w ++ [(command, Ok response)])%list (reads w) in
    match res_mapM (λ item, serializeKey item config)
            (default [] (Items response)) with
    | Throw e => (Throw e, w1)
    | Ok serialized =>
        match LastEvaluatedKey response with
        | Some c =>
            keysLoop send fuel config pattern (Some c)
              (found ++ serialized)%list w1
        | None => (Ok (Some (found ++ serialized)%list), w1)
        end
    end.
Proof.
  intros Hc Hs. cbn [keysLoop]. rewrite Hc.
  unfold bind at 1, lift, sendAwait, clientSend. unfold bind at 1 2.
  rewrite Hs. unfold bind at 1, lift. cbv zeta.
  destruct (res_mapM _ _) as [serialized|e]; [|done].
  by destruct (LastEvaluatedKey response).
Qed.

End Turn.

Section Listing.

(** The schema has a sort field, named differently from the partition
    field. *)
Variable clock : nat → Z.
Variable config : Config.
Variable skName : string.
Hypothesis Hsk : sk (keys config) = Some skName.
Hypothesis Hname : skName ≠ EmptyString.
Hypothesis Hdiff : skName ≠ pk (keys config).

Lemma project_lookup (i : Input) (row : Item) e name :
  ProjectionExpression i = Some e →
  ExpressionAttributeNames i = Some (keyNames config) →
  name = pk (keys config) ∨ name = skName →
  DynamoDB.project i row !! name = row !! name.
Proof.
  intros He Hn Hname'. unfold DynamoDB.project. rewrite He, Hn.
  cbn [from_option id].
  destruct (row !! name) as [v|] eqn:Hv.
  - apply map_lookup_filter_Some_2; [done|]. cbn.
    apply list_elem_of_fmap. unfold keyNames. rewrite Hsk.
    destruct Hname' as [->| ->].
    + exists ("#pk", Some (pk (keys config))). split; [done|].
      apply elem_of_map_to_list. rewrite lookup_insert_ne by done.
      by rewrite lookup_singleton_eq.
    + exists ("#sk", Some skName). split; [done|].
      apply elem_of_map_to_list. by rewrite lookup_insert_eq.
  - apply map_lookup_filter_None. by left.
Qed.

Lemma serializeKey_project (i : Input) (row : Item) e :
  ProjectionExpression i = Some e →
  ExpressionAttributeNames i = Some (keyNames config) →
  serializeKey (DynamoDB.project i row) config = serializeKey row config.
Proof.
  intros He Hn. unfold serializeKey. rewrite Hsk. cbn [from_option id].
  rewrite !(project_lookup i row e _ He Hn); [done|by right|by left].
Qed.

Lemma serialize_projected (i : Input) (rs : list Item) e :
  ProjectionExpression i = Some e →
  ExpressionAttributeNames i = Some (keyNames config) →
  res_mapM (λ item, serializeKey item config) (map (DynamoDB.project i) rs)
  = res_mapM (λ item, serializeKey item config) rs.
Proof.
  intros He Hn. induction rs as [|r rs IH]; [done|].
  cbn [map res_mapM]. by rewrite IH, (serializeKey_project i r e He Hn).
Qed.

Lemma keyed_serialize (row : Item) :
  keyed config row →
  ∃ a b, plain a ∧ plain b
         ∧ serializeKey row config = Ok (Some (a +:+ String DELIMITER b))
         ∧ DynamoDB.stringOf (row !! pk (keys config)) = Some a
         ∧ DynamoDB.stringOf (row !! skName) = Some b.
Proof.
  intros (a & b & Hp & Hs & Ha & Hb). rewrite Hsk in Hs. cbn in Hs.
  exists a, b. split; [done|]. split; [done|].
  split; [|by rewrite Hp, Hs].
  apply (serializeKey_segments row config skName a b Hsk Hp Hs). apply Hb.
Qed.

End Listing.



Section Listed.

(** The schema has a sort field, named differently from the partition
    field. *)
Variable clock : nat → Z.
Variable config : Config.
Variable skName : string.
Hypothesis Hsk : sk (keys config) = Some skName.
Hypothesis Hname : skName ≠ EmptyString.
Hypothesis Hdiff : skName ≠ pk (keys config).

Lemma keys_scan_run (t : DynamoDB.Table) calls n fuel :
  ∃ calls',
    keysOf DynamoDB.send (S fuel) config None (mkWorld t calls n)
    = (res_map Some
         (res_mapM (λ row, serializeKey row config) (DynamoDB.rows t)),
       mkWorld t calls' n).
Proof.
  unfold keysOf, validateKeyPattern. cbn [Js.truthy_opt negb].
  unfold bind at 1, lift.
  rewrite (keysLoop_turn DynamoDB.send fuel config None None [] _
             (mkCommand ScanCommand (buildScanKeysInput None config)) t
             (mkResponse None None None None
                (Some (map (DynamoDB.project (buildScanKeysInput None config))
                         (DynamoDB.rows t))) None)); [|done|done].
  cbn [Items LastEvaluatedKey from_option id client sent reads]. cbv zeta.
  rewrite (serialize_projected config skName Hsk _ _ (projection config)) by done.
  eexists. by destruct (res_mapM _ (DynamoDB.rows t)).
Qed.

Lemma keys_query_run (t : DynamoDB.Table) calls n fuel p a b :
  p ≠ EmptyString → validateKeyPattern (Some p) = Ok tt →
  keysCommand config (Some p) None
  = Ok (mkCommand QueryCommand
          (mkInput (Some (table config)) None None None
             (Some (keyNames config))
             (Some (<[ ":sk" := Some (AttrS (Some b)) ]>
                      {[ ":pk" := Some (AttrS (Some a)) ]}))
             (Some (projection config))
             (Some "#pk = :pk and begins_with(#sk, :sk)")
             None None)) →
  (keysOf DynamoDB.send (S fuel) config (Some p) (mkWorld t calls n)).1
  = res_map Some
      (res_mapM (λ row, serializeKey row config)
         (filter (λ r, DynamoDB.matches (pk (keys config)) a skName b r = true)
            (DynamoDB.rows t))).
Proof.
  intros Hp Hv Hc. unfold keysOf. rewrite Hv. unfold bind at 1, lift.
  erewrite (keysLoop_turn DynamoDB.send fuel config (Some p) None [] _ _ t);
    [|exact Hc|].
  2:{ unfold DynamoDB.send.
      cbn [kind input ExpressionAttributeNames ExpressionAttributeValues
           from_option id].
      unfold DynamoDB.valueOf.
      assert (keyNames config !! "#pk" = Some (Some (pk (keys config)))) as ->.
      { unfold keyNames. rewrite lookup_insert_ne by done.
        by rewrite lookup_singleton_eq. }
      assert (keyNames config !! "#sk" = Some (Some skName)) as ->.
      { unfold keyNames. by rewrite lookup_insert_eq, Hsk. }
      assert ((<[ ":sk" := Some (AttrS (Some b)) ]>
                 ({[ ":pk" := Some (AttrS (Some a)) ]}
                    : gmap string (option AttributeValue))) !! ":pk"
              = Some (Some (AttrS (Some a)))) as ->.
      { rewrite lookup_insert_ne by done. by rewrite lookup_singleton_eq. }
      rewrite lookup_insert_eq. cbn [DynamoDB.stringOf]. reflexivity. }
  cbn [Items LastEvaluatedKey from_option id client sent reads]. cbv zeta.
  rewrite (serialize_projected config skName Hsk _ _ (projection config)) by done.
  by destruct (res_mapM _ _).
Qed.

Lemma keyed_keys (rs : list Item) :
  Forall (keyed config) rs →
  ∃ allKeys,
    res_mapM (λ row, serializeKey row config) rs = Ok (Some <$> allKeys)
    ∧ Forall2 (λ row key,
        ∃ a b, key = a +:+ String DELIMITER b ∧ plain a ∧ plain b
               ∧ serializeKey row config = Ok (Some key)
               ∧ DynamoDB.stringOf (row !! pk (keys config)) = Some a
               ∧ DynamoDB.stringOf (row !! skName) = Some b) rs allKeys.
Proof.
  induction 1 as [|r rs Hr _ (allKeys & Hall & HF)]; [by exists []|].
  destruct (keyed_serialize config skName Hsk r Hr)
    as (a & b & Ha & Hb & Hs & Hpa & Hsb).
  exists ((a +:+ String DELIMITER b) :: allKeys). split.
  - cbn [res_mapM]. by rewrite Hs, Hall.
  - constructor; [|done]. by exists a, b.
Qed.

(** X16: listing the keys of a table.  Under a schema with a sort field
    named differently from the partition field, on a table whose rows bear
    plain key segments, [keys()] returns the key of every row in one
    request, in the order of the rows, and [keys(pattern)] returns those of
    them that begin with the pattern less its mask. *)
Theorem keys_on_table (t : DynamoDB.Table)
    (calls : list (Command * Res Response)) (n fuel : nat) :
  Forall (keyed config) (DynamoDB.rows t) →
  ∃ allKeys,
    (keysOf DynamoDB.send (S fuel) config None (mkWorld t calls n)).1
    = Ok (Some (Some <$> allKeys))
    ∧ Forall2 (λ row key, serializeKey row config = Ok (Some key))
        (DynamoDB.rows t) allKeys
    ∧ ∀ p, p ≠ EmptyString → validateKeyPattern (Some p) = Ok tt →
           Js.startsWith p DELIMITER = false →
           (keysOf DynamoDB.send (S fuel) config (Some p) (mkWorld t calls n)).1
           = Ok (Some (Some <$> filter (λ key, String.prefix (eraseMask p) key = true)
                                  allKeys)).
Proof.
  intros Hrows. destruct (keyed_keys (DynamoDB.rows t) Hrows) as (allKeys & Hall & HF).
  exists allKeys. split; [|split].
  - destruct (keys_scan_run t calls n fuel) as [calls' ->]. cbn [fst].
    by rewrite Hall.
  - eapply Forall2_impl; [exact HF|]. by intros r key (a & b & _ & _ & _ & H & _).
  - intros p Hp Hv Hst.
    destruct (keysCommand_pattern config p skName None Hp Hv Hst Hsk Hname Hdiff)
      as (a & b & _ & He & Ha & Hb & _ & _ & Hc).
    rewrite (keys_query_run t calls n fuel p a b Hp Hv Hc), He.
    clear Hall. induction HF as [|r key rs ks Hr _ IH]; [done|].
    apply Forall_cons in Hrows as [_ Hrows]. specialize (IH Hrows).
    destruct Hr as (a' & b' & -> & [_ Ha'] & _ & Hs & Hpa & Hsb).
    rewrite !filter_cons.
    assert (DynamoDB.matches (pk (keys config)) a skName b r
            = String.prefix (a +:+ String DELIMITER b)
                (a' +:+ String DELIMITER b')) as Hm.
    { unfold DynamoDB.matches. rewrite Hpa, Hsb.
      rewrite (prefix_composite DELIMITER a b a' b' Ha Ha').
      f_equal. apply bool_decide_ext. split; congruence. }
    rewrite Hm.
    destruct (String.prefix _ _) eqn:Hpre.
    + rewrite !decide_True by done. cbn [res_mapM]. rewrite Hs. cbn [res_bind].
      destruct (res_mapM _ (filter _ rs)) as [ks'|] eqn:Hks; cbn in IH |- *;
        [|done].
      by injection IH as ->.
    + rewrite !decide_False by done. exact IH.
Qed.

End Listed.

(** ** Resetting *)

Lemma elem_of_removes names ds rs r :
  r ∈ foldl (λ acc d, DynamoDB.removeRow names d acc) rs ds →
  r ∈ rs ∧ Forall (λ d, DynamoDB.sameKey names d r = false) ds.
Proof.
  revert rs. induction ds as [|d ds IH]; intros rs; [done|].
  cbn [foldl]. intros [Hr Hds]%IH.
  unfold DynamoDB.removeRow in Hr. apply list_elem_of_filter in Hr as [Hd Hr].
  split; [done|]. by constructor.
Qed.

Section Emptied.

(** The schema has a sort field, named differently from the partition
    field. *)
Variable clock : nat → Z.
Variable config : Config.
Variable skName : string.
Hypothesis Hsk : sk (keys config) = Some skName.
Hypothesis Hname : skName ≠ EmptyString.
Hypothesis Hdiff : skName ≠ pk (keys config).

(** X17: [reset] empties the table.  Under a schema with a sort field named
    differently from the partition field, on a table keyed by the two key
    attributes whose rows bear plain key segments, [reset] fulfils and
    leaves no row, so that every later [get] returns [undefined]. *)
Theorem reset_empties (t : DynamoDB.Table)
    (calls : list (Command * Res Response)) (n fuel : nat) :
  let cleared := reset DynamoDB.send (S fuel) config (mkWorld t calls n) in
  DynamoDB.keyAttributes t = [pk (keys config); skName] →
  Forall (keyed config) (DynamoDB.rows t) →
  cleared.1 = Ok (Some tt)
  ∧ DynamoDB.rows (client cleared.2) = []
  ∧ ∀ key, Spec.validKey key →
           (get DynamoDB.send clock config key cleared.2).1 = Ok JsUndefined.
Proof.
  intros cleared Hnames Hrows.
  destruct (keyed_keys config skName Hsk (DynamoDB.rows t) Hrows)
    as (allKeys & Hall & HF).
  destruct (keys_scan_run config skName Hsk t calls n fuel) as [calls' Hk].
  rewrite Hall in Hk. cbn [res_map] in Hk.
  assert (Forall Spec.validKey allKeys) as Hvalid.
  { apply Forall_forall. intros key Hkey.
    apply list_elem_of_lookup in Hkey as [i Hi].
    destruct (Forall2_lookup_r _ _ _ _ _ HF Hi) as (r & _ & a & b & -> & Ha & Hb & _).
    apply (compositeKey_valid). by exists a, b. }
  destruct (mdel_table config allKeys (mkWorld t calls' n) Hvalid)
    as (ds & w' & Hm & Hc & HD).
  assert (cleared = (Ok (Some tt), w')) as ->.
  { subst cleared. unfold reset. unfold bind at 1. rewrite Hk.
    rewrite <- list_fmap_compose.
    assert (default EmptyString ∘ Some <$> allKeys = allKeys) as ->.
    { clear. induction allKeys as [|k ks IH]; [done|]. cbn. by f_equal. }
    unfold bind. by rewrite Hm. }
  cbn [fst snd]. cbn [client] in Hc.
  assert (DynamoDB.rows (client w') = []) as Hempty.
  { rewrite Hc. cbn [DynamoDB.rows].
    destruct (foldl _ _ ds) as [|r rs] eqn:Hf; [done|]. exfalso.
    assert (r ∈ foldl (λ acc d, DynamoDB.removeRow (DynamoDB.keyAttributes t) d acc)
                  (DynamoDB.rows t) ds) as Hr by (rewrite Hf; by left).
    apply elem_of_removes in Hr as [Hr Hno].
    apply list_elem_of_lookup in Hr as [i Hi].
    destruct (Forall2_lookup_l _ _ _ _ _ HF Hi)
      as (key & Hkey & a & b & -> & Ha & Hb & _ & Hpa & Hsb).
    destruct (Forall2_lookup_l _ _ _ _ _ HD Hkey) as (d & Hd & Hdec).
    rewrite (deserializeKey_composite config skName Hsk Hname a b Ha Hb)
      in Hdec. injection Hdec as <-.
    rewrite Forall_lookup in Hno. specialize (Hno _ _ Hd).
    apply sameKey_false in Hno. apply Hno. rewrite Hnames.
    unfold DynamoDB.keyOf. rewrite !fmap_cons. cbn [fmap list_fmap].
    rewrite lookup_insert_ne, lookup_singleton_eq, lookup_insert_eq by done.
    by rewrite Hpa, Hsb. }
  split; [done|]. split; [done|].
  intros key Hkey. destruct w' as [t' calls'' n'].
  destruct (deserializeKey key config) as [d|] eqn:Hd.
  2:{ by rewrite (deserializeKey_valid key config Hkey) in Hd. }
  apply (get_absent clock config key d t' calls'' n' Hd).
  cbn [client] in Hempty. by rewrite Hempty.
Qed.

End Emptied.

(** ** Paging *)

Lemma res_mapM_app_inv {A B} (g : A → Res B) xs ys zs :
  res_mapM g (xs ++ ys) = Ok zs →
  ∃ z1 z2, res_mapM g xs = Ok z1 ∧ res_mapM g ys = Ok z2 ∧ zs = (z1 ++ z2)%list.
Proof.
  revert zs. induction xs as [|x xs IH]; intros zs; cbn [app res_mapM].
  - intros H. by exists [], zs.
  - destruct (g x) as [y|]; cbn [res_bind]; [|done].
    destruct (res_mapM g (xs ++ ys)) as [r|] eqn:Hr; cbn [res_bind]; [|done].
    intros [= <-]. destruct (IH r eq_refl) as (z1 & z2 & -> & -> & ->).
    by exists (y :: z1), z2.
Qed.

Lemma keysCommand_cursor config pattern command cursor :
  keysCommand config pattern None = Ok command →
  ∃ command',
    keysCommand config pattern cursor = Ok command'
    ∧ kind command' = kind command
    ∧ ExclusiveStartKey (input command') = cursor.
Proof.
  unfold keysCommand, buildQueryKeysInput.
  destruct (Js.truthy_opt pattern).
  - destruct (deserializeKey _ config); cbn [res_map]; [|done].
    intros [= <-]. by eexists.
  - intros [= <-]. by eexists.
Qed.

Section Pages.

Variable config : Config.
Variable pattern : option string.

Lemma keysLoop_pages command0 (pages : list (list Item * Item)) lastItems ks :
  keysCommand config pattern None = Ok command0 →
  res_mapM (λ item, serializeKey item config) (concat pages.*1 ++ lastItems)
  = Ok ks →
  ∀ fuel cursor found calls n,
    (length pages < fuel)%nat →
    ∃ commands,
      keysLoop scripted fuel config pattern cursor found
        (mkWorld (paged pages lastItems) calls n)
      = (Ok (Some (found ++ ks)%list),
         mkWorld []
           (calls ++ zip commands (paged pages lastItems))%list n)
      ∧ (λ c, ExclusiveStartKey (input c)) <$> commands
        = cursor :: (Some <$> pages.*2)
      ∧ Forall (λ c, kind c = kind command0) commands.
Proof.
  intros Hc0. revert ks.
  induction pages as [|[items c] pages IH]; intros ks Hks fuel cursor found calls n Hf.
  - destruct fuel as [|fuel]; [cbn in Hf; lia|].
    destruct (keysCommand_cursor config pattern command0 cursor Hc0)
      as (command & Hc & Hk & Hx).
    exists [command].
    rewrite (keysLoop_turn scripted fuel config pattern cursor found
               (mkWorld (paged [] lastItems) calls n)
               command [] (mkResponse None None None None (Some lastItems) None)
               Hc eq_refl).
    cbn [concat fmap list_fmap app] in Hks.
    cbn [Items LastEvaluatedKey from_option id]. cbv zeta. rewrite Hks.
    split; [done|]. split; [by rewrite fmap_cons, Hx|].
    by constructor.
  - destruct fuel as [|fuel]; [cbn in Hf; lia|].
    destruct (keysCommand_cursor config pattern command0 cursor Hc0)
      as (command & Hc & Hk & Hx).
    rewrite !fmap_cons in Hks. cbn [fst concat] in Hks.
    rewrite <- app_assoc in Hks.
    apply res_mapM_app_inv in Hks as (k1 & k2 & Hk1 & Hk2 & ->).
    destruct (IH k2 Hk2 fuel (Some c) (found ++ k1)%list
                (calls ++ [(command, page items (Some c))])%list n)
      as (commands & Hrun & Hcur & Hkinds); [cbn in Hf; lia|].
    exists (command :: commands).
    rewrite (keysLoop_turn scripted fuel config pattern cursor found
               (mkWorld (paged ((items, c) :: pages) lastItems) calls n)
               command (paged pages lastItems)
               (mkResponse None None None None (Some items) (Some c))
               Hc eq_refl).
    cbn [Items LastEvaluatedKey from_option id client sent reads]. cbv zeta.
    rewrite Hk1. unfold page in Hrun at 1. rewrite Hrun.
    split; [|split].
    + rewrite <- !app_assoc. done.
    + rewrite !fmap_cons. cbn [snd]. by rewrite Hx, Hcur.
    + by constructor.
Qed.

(** X18: [keys] follows the cursor.  Against a provider that returns its
    result in pages, [keys] asks once per page, hands each cursor to the
    next request, stops at the page without a cursor, and returns the keys
    of all pages in the order received. *)
Theorem keys_follows_cursor (pages : list (list Item * Item))
    (lastItems : list Item) (ks : list (option string)) (command0 : Command)
    (fuel : nat) (calls : list (Command * Res Response)) (n : nat) :
  let listed :=
    keysOf scripted fuel config pattern
      (mkWorld (paged pages lastItems) calls n) in
  validateKeyPattern pattern = Ok tt →
  keysCommand config pattern None = Ok command0 →
  res_mapM (λ item, serializeKey item config) (concat pages.*1 ++ lastItems)
  = Ok ks →
  (length pages < fuel)%nat →
  listed.1 = Ok (Some ks)
  ∧ ∃ commands,
      sent listed.2 = (calls ++ zip commands (paged pages lastItems))%list
      ∧ length commands = S (length pages)
      ∧ (λ c, ExclusiveStartKey (input c)) <$> commands
        = None :: (Some <$> pages.*2)
      ∧ Forall (λ c, kind c = kind command0) commands.
Proof.
  intros listed Hv Hc0 Hks Hf.
  destruct (keysLoop_pages command0 pages lastItems ks Hc0 Hks fuel None []
              calls n Hf) as (commands & Hrun & Hcur & Hkinds).
  subst listed. unfold keysOf. rewrite Hv. unfold bind, lift.
  rewrite Hrun. cbn [fst snd sent app]. split; [done|]. exists commands.
  split; [done|]. split; [|done].
  apply (f_equal length) in Hcur.
  by rewrite length_fmap in Hcur; cbn in Hcur; rewrite !length_fmap in Hcur.
Qed.

End Pages.

(** ** Touching a key that is not stored *)

Lemma upsert_absent names k name v rs :
  DynamoDB.lookupRow names k rs = None →
  DynamoDB.upsert names k name v rs = (rs ++ [<[ name := v ]> k])%list.
Proof.
  intros H. unfold DynamoDB.upsert.
  assert (DynamoDB.alterRow names k (insert name v) rs = None) as ->; [|done].
  induction rs as [|r rs IH]; [done|].
  cbn [DynamoDB.lookupRow DynamoDB.alterRow] in *.
  destruct (DynamoDB.sameKey names k r); [done|]. by rewrite IH.
Qed.

Lemma lookupRow_app_absent names k rs row :
  DynamoDB.lookupRow names k rs = None →
  DynamoDB.lookupRow names k (rs ++ [row])
  = if DynamoDB.sameKey names k row then Some row else None.
Proof.
  induction rs as [|r rs IH]; [done|].
  cbn [DynamoDB.lookupRow app]. by destruct (DynamoDB.sameKey names k r).
Qed.

Section Touched.

(** The schema has a sort field, and the names of the partition, sort and
    expiration attributes and [data] are pairwise distinct. *)
Variable clock : nat → Z.
Variable config : Config.
Variable skName : string.
Hypothesis Hsk : sk (keys config) = Some skName.
Hypothesis Hname : skName ≠ EmptyString.
Hypothesis Hnd : NoDup [pk (keys config); skName; ex (keys config); "data"].

(** X19: touching a key that is not stored.  Under a schema with a sort
    field whose attribute names are distinct from each other and from
    [data], on a table keyed by the two key attributes, the update of a
    two-segment key that is not stored creates an entry that holds the key
    and the expiration only: afterwards [ttl] reports the time left as for
    a stored entry, while [get] returns [undefined]. *)
Theorem touch_absent (key : string) (ttlArg : option Z) (dbKey : Item)
    (t : DynamoDB.Table) (calls : list (Command * Res Response)) (n : nat) :
  let names := [pk (keys config); skName] in
  let touched :=
    touch DynamoDB.send clock config key ttlArg (mkWorld t calls n) in
  let seconds := msToS (clock n + effectiveTtl config ttlArg) in
  DynamoDB.keyAttributes t = names →
  compositeKey key →
  deserializeKey key config = Ok dbKey →
  DynamoDB.lookupRow names dbKey (DynamoDB.rows t) = None →
  touched.1 = Ok tt
  ∧ DynamoDB.rows (client touched.2)
    = (DynamoDB.rows t
       ++ [<[ ex (keys config) := AttrN (Js.toString seconds) ]> dbKey])%list
  ∧ (get DynamoDB.send clock config key touched.2).1 = Ok JsUndefined
  ∧ (ttlOf DynamoDB.send clock config key touched.2).1
    = Ok (Some (seconds * 1000 - clock (S n))).
Proof.
  intros names touched seconds Hnames (a & b & -> & Ha & Hb) Hd Hrow.
  destruct (names_distinct config skName Hnd)
    as (Hps & Hpe & Hse & Hpd & Hsd & Hed).
  rewrite (deserializeKey_composite config skName Hsk Hname a b Ha Hb) in Hd.
  injection Hd as <-.
  set (dbKey := <[ skName := AttrS (Some b) ]>
                  ({[ pk (keys config) := AttrS (Some a) ]} : Item)) in *.
  pose proof (deserializeKey_composite config skName Hsk Hname a b Ha Hb)
    as Hd. fold dbKey in Hd.
  destruct (touch_run clock config _ ttlArg dbKey t calls n Hd)
    as (command & _ & Hrun).
  subst touched. rewrite Hrun. cbn [fst snd client DynamoDB.rows].
  rewrite Hnames. fold seconds.
  rewrite (upsert_absent names dbKey _ _ _ Hrow).
  set (row := <[ ex (keys config) := AttrN (Js.toString seconds) ]> dbKey).
  assert (DynamoDB.lookupRow names dbKey (DynamoDB.rows t ++ [row]) = Some row)
    as Hfound.
  { rewrite (lookupRow_app_absent names dbKey _ row Hrow).
    rewrite (proj2 (sameKey_true names dbKey row)); [done|].
    unfold row. rewrite keyOf_insert; [done|].
    unfold names. rewrite !not_elem_of_cons. split; [done|]. split; [done|].
    apply not_elem_of_nil. }
  assert (Codec.unmarshall row
          = Ok (<[ ex (keys config) := JsNumber (Js.toString seconds) ]>
                  (<[ skName := JsString b ]>
                     {[ pk (keys config) := JsString a ]}))) as Hu.
  { unfold row, dbKey. rewrite <- !insert_empty.
    apply unmarshall_insert; [|done].
    apply unmarshall_insert; [|done].
    apply unmarshall_insert; [|done].
    unfold Codec.unmarshall, Codec.convertRecord.
    rewrite bool_decide_eq_true_2 by apply map_Forall_empty.
    by rewrite omap_empty. }
  assert (row !! ex (keys config) = Some (AttrN (Js.toString seconds))) as Hex
    by (unfold row; by rewrite lookup_insert_eq).
  split; [done|]. split; [done|]. split.
  - rewrite (get_run clock config _ dbKey (DynamoDB.mkTable names _) _ (S n) row
               (<[ ex (keys config) := JsNumber (Js.toString seconds) ]>
                  (<[ skName := JsString b ]>
                     {[ pk (keys config) := JsString a ]}))
               (Js.toString seconds) Hd Hfound Hu Hex).
    unfold dataOf. rewrite !lookup_insert_ne by congruence.
    by rewrite lookup_singleton_ne.
  - rewrite (ttl_run clock config _ dbKey (DynamoDB.mkTable names _) _ (S n) row
               (Js.toString seconds) Hd Hfound Hex (toString_truthy seconds)).
    by rewrite parseInt_toString.
Qed.

End Touched.

(** ** Items as the provider returns them *)

Section Returned.

Context {Client : Type}.
Variable send : Client → Command → Client * Res Response.
Variable clock : nat → Z.
Variable config : Config.

(** X20: an item without expiration.  When the item that the provider
    returns has no expiration attribute, [get] throws the [TypeError] of
    reading [N] off [undefined], after its one request and before the
    clock is read. *)
Theorem get_without_expiration (key : string) (w : @World Client)
    (response : Response) (attrs : Item) (record : JsRecord) :
  let got := get send clock config key w in
  Spec.validKey key →
  (∀ command, (send (client w) command).2 = Ok response) →
  RItem response = Some attrs →
  Codec.unmarshall attrs = Ok record →
  attrs !! ex (keys config) = None →
  got.1 = Throw (readOf "N")
  ∧ length (sent got.2) = S (length (sent w))
  ∧ reads got.2 = reads w.
Proof.
  intros got Hk Hsend Hitem Hu Hex. subst got.
  unfold get, buildGetInput, sendAwait, clientSend, bind, lift.
  rewrite (deserializeKey_valid _ _ Hk). cbn [res_map].
  match goal with
  | |- context [send (client w) ?c] =>
      pose proof (Hsend c) as Hs;
      destruct (send (client w) c) as [c1 o1]
  end.
  cbn in Hs. subst o1. rewrite Hitem.
  unfold liveData, isExpired, bind, lift. rewrite Hu.
  assert (readN (record !! ex (keys config)) = Throw (readOf "N")) as ->.
  { by rewrite (unmarshall_lookup _ _ _ Hu), Hex. }
  cbn [fst snd sent reads]. rewrite length_app. cbn [length].
  split; [done|]. split; [lia|done].
Qed.

(** X21: [ttl] by the form of the returned item.  When the provider returns
    an item, [ttl] throws a [TypeError] if the item has no expiration
    attribute; returns -1, without reading the clock, if the attribute is
    not a number or is the empty string; and otherwise returns
    [parseInt(N) * 1000 - now], which is [NaN] when [N] does not start
    with a numeral. *)
Theorem ttl_of_item (key : string) (w : @World Client)
    (response : Response) (attrs : Item) :
  let left := ttlOf send clock config key w in
  Spec.validKey key →
  (∀ command, (send (client w) command).2 = Ok response) →
  RItem response = Some attrs →
  (attrs !! ex (keys config) = None →
   left.1 = Throw (readOf "N") ∧ reads left.2 = reads w)
  ∧ (∀ v, attrs !! ex (keys config) = Some v →
          (∀ n, v = AttrN n → n = EmptyString) →
          left.1 = Ok (Some (-1)) ∧ reads left.2 = reads w)
  ∧ (∀ n, attrs !! ex (keys config) = Some (AttrN n) → n ≠ EmptyString →
          left.1 = Ok ((λ s, s * 1000 - clock (reads w)) <$> Js.parseInt n)
          ∧ reads left.2 = S (reads w)).
Proof.
  intros left Hk Hsend Hitem. subst left.
  unfold ttlOf, buildTTLInput, sendAwait, clientSend, bind, lift.
  rewrite (deserializeKey_valid _ _ Hk). cbn [res_map].
  match goal with
  | |- context [send (client w) ?c] =>
      pose proof (Hsend c) as Hs;
      destruct (send (client w) c) as [c1 o1]
  end.
  cbn in Hs. subst o1. rewrite Hitem.
  split; [|split].
  - by intros ->.
  - intros v -> Hv. destruct v as [s|n| | | |]; try done.
    by rewrite (Hv n eq_refl).
  - intros n -> Hn. cbn [memberN Js.truthy_opt].
    by rewrite (proj2 (truthy_true n) Hn).
Qed.

End Returned.

(** ** Keys with more than two segments *)

Lemma append_neq a b : b ≠ EmptyString → a +:+ b ≠ a.
Proof.
  intros Hb. induction a as [|x r IH]; simpl; [done|]. intros [= H]. by apply IH.
Qed.

Lemma append_inj_l a x y : a +:+ x = a +:+ y → x = y.
Proof. induction a as [|c r IH]; simpl; [done|]. intros [= H]. by apply IH. Qed.

Section Longer.

(** The schema has a sort field, named differently from the partition
    field. *)
Variable clock : nat → Z.
Variable config : Config.
Variable skName : string.
Hypothesis Hsk : sk (keys config) = Some skName.
Hypothesis Hname : skName ≠ EmptyString.
Hypothesis Hdiff : skName ≠ pk (keys config).

Local Abbreviation names := [pk (keys config); skName].

Lemma deserializeKey_longer a b c :
  plain a → plain b →
  deserializeKey (a +:+ String DELIMITER (b +:+ String DELIMITER c)) config
  = Ok (<[ skName := AttrS (Some b) ]> {[ pk (keys config) := AttrS (Some a) ]}).
Proof.
  intros [Ha Hca] [Hb Hcb].
  rewrite deserializeKey_valid.
  - rewrite Hsk. simpl. apply truthy_true in Hname as ->.
    by rewrite !split_app_sep by done.
  - split; [by apply app_nonempty|].
    rewrite startsWith_app by done. by apply startsWith_no_occurrence.
Qed.

(** X22: a key with more than two segments.  The store decodes only the
    first two segments of a key, so [get] finds the entry stored under
    them; [mget] looks its result up under the key as given, which no
    returned row is encoded as, and returns [undefined] for it. *)
Theorem mget_misses_longer_key (a b c : string) (row : Item)
    (record : JsRecord) (t : DynamoDB.Table)
    (calls : list (Command * Res Response)) (n : nat) :
  let key := a +:+ String DELIMITER (b +:+ String DELIMITER c) in
  let w := mkWorld t calls n in
  DynamoDB.keyAttributes t = names →
  plain a → plain b →
  DynamoDB.lookupRow names
    (<[ skName := AttrS (Some b) ]> {[ pk (keys config) := AttrS (Some a) ]})
    (DynamoDB.rows t) = Some row →
  timed config row →
  Codec.unmarshall row = Ok record →
  (get DynamoDB.send clock config key w).1 = Ok (dataOf record)
  ∧ (mget DynamoDB.send clock config [key] w).1 = Ok [JsUndefined].
Proof.
  intros key w Hnames Ha Hb Hrow [lit Hlit] Hu.
  pose proof (deserializeKey_longer a b c Ha Hb) as Hd. fold key in Hd.
  split.
  - rewrite <- Hnames in Hrow.
    by apply (get_run clock config key _ t calls n row record lit Hd Hrow Hu).
  - destruct (asyncMap_stable DynamoDB.send t (mgetPrefix config)
                (mgetRest clock config) (λ _, Ok [JsUndefined])
                [[key]] w) as (w' & Hrun & _); [|done|].
    + intros ks w0 Hks Hw0. apply list_elem_of_singleton in Hks as ->.
      unfold mgetPrefix, bind, lift, ret, buildMGetInput.
      cbn [res_mapM]. rewrite Hd. cbn [res_bind res_map].
      eexists _, w0, _. split; [done|]. split; [done|].
      unfold DynamoDB.send. cbn [kind input BatchItems]. split; [done|].
      intros w2 Hw2. unfold mgetRest. cbn [Responses].
      rewrite map_fmap_singleton. cbn [mbind option_bind].
      rewrite lookup_singleton_eq. cbn [from_option id].
      unfold DynamoDB.found. cbn [omap list_omap].
      rewrite Hnames, Hrow. cbn [byKey].
      rewrite (found_serialize config skName Hsk Hdiff a b row);
        [|apply Hb|by eapply lookupRow_sameKey].
      cbn [res_bind from_option id].
      change (bind (lift (Ok ?m)) ?k w2) with (k m w2). cbv beta.
      cbn [mapM]. rewrite lookup_insert_ne.
      2:{ unfold key. intros H. apply append_inj_l in H.
          injection H as H. symmetry in H. by apply append_neq in H. }
      rewrite lookup_empty. by cbn.
    + rewrite (mget_run DynamoDB.send clock config [key] w
                 ((λ _ : list string, Settles (Ok [JsUndefined])) <$> [[key]]) w').
      * by rewrite (promiseAll_Settles (λ _ : list string, Ok [JsUndefined]) [[key]]).
      * by rewrite (chunk_single 100 [key]) by (done || cbn; lia).
Qed.

End Longer.

(** ** Instances on the fixtures of the test suite *)

Lemma buildItem_attributes_witness :
  ∃ item,
    buildItem (Fixture.clockAt 0) "123+foo" ∅ Fixture.config 1400
      (mkWorld 0%nat [] 0%nat)
    = (Ok item, mkWorld 0%nat [] 1%nat)
    ∧ item !! "ExpiresAt" = Some (AttrN "1").
Proof.
  destruct (buildItem_attributes (Fixture.clockAt 0) Fixture.config "123+foo"
              ∅ 1400 (mkWorld 0%nat [] 0%nat))
    as (dbKey & item & seconds & _ & Hb & Hex & _ & Hr & _);
    [by split|vm_compute; by split|].
  exists item. split; [exact Hb|].
  assert (seconds = 1) as ->
    by (unfold Fixture.clockAt in Hr; cbn [reads Z.of_nat] in Hr; lia).
  exact Hex.
Defined.

Lemma invalid_key_no_call_witness :
  get Fixture.failing (Fixture.clockAt 0) Fixture.config "+foo"
    (mkWorld 0%nat [] 0%nat)
  = (Throw unsupportedKey, mkWorld 0%nat [] 0%nat).
Proof.
  apply (invalid_key_no_call Fixture.failing (Fixture.clockAt 0) Fixture.config
           "+foo" (mkWorld 0%nat [] 0%nat)).
  right. reflexivity.
Defined.

Lemma absent_item_witness :
  (get Fixture.throttled (Fixture.clockAt 0) Fixture.config "123+foo"
     (mkWorld 0%nat [] 0%nat)).1 = Ok JsUndefined
  ∧ (ttlOf Fixture.throttled (Fixture.clockAt 0) Fixture.config "123+foo"
       (mkWorld 0%nat [] 0%nat)).1 = Ok (Some (-1)).
Proof.
  destruct (absent_item Fixture.throttled (Fixture.clockAt 0) Fixture.config
              "123+foo" (mkWorld 0%nat [] 0%nat)) as (Hg & Ht & _).
  - by split.
  - intros command. eexists. split; [reflexivity|].
    by destruct (kind command).
  - by split.
Defined.

Lemma keys_rejects_before_call_witness :
  keysOf Fixture.failing 1 Fixture.config (Some "bar*") (mkWorld 0%nat [] 0%nat)
  = (Throw badPattern, mkWorld 0%nat [] 0%nat).
Proof.
  apply (keys_rejects_before_call Fixture.failing Fixture.config (Some "bar*")
           1 (mkWorld 0%nat [] 0%nat)).
  reflexivity.
Defined.

Lemma isExpired_raw_witness :
  isExpired (Fixture.clockAt Fixture.today) (attrAsJs <$> Fixture.expiredRow)
    Fixture.config (mkWorld 0%nat [] 0%nat)
  = (Ok true, mkWorld 0%nat [] 1%nat).
Proof.
  apply (proj1 (isExpired_raw (Fixture.clockAt Fixture.today) Fixture.config
                  Fixture.expiredRow (mkWorld 0%nat [] 0%nat)) "1").
  reflexivity.
Defined.

Lemma remainder_forwarded_witness :
  ∃ input,
    buildMSetInput (Fixture.clockAt 0) [("123+foo", ∅)] Fixture.config 1000
      (Some {[ "TestCache" := [] ]}) (mkWorld 0%nat [] 0%nat)
    = (Ok input, mkWorld 0%nat [] 1%nat)
    ∧ BatchItems input = Some (WriteRequests {[ "TestCache" := [] ]}).
Proof.
  apply (proj1 (proj2 (proj2
           (remainder_forwarded (Fixture.clockAt 0) Fixture.config []
              ∅ {[ "TestCache" := [] ]})))
           [("123+foo", ∅)] 1000 (mkWorld 0%nat [] 0%nat)).
  constructor; [by split|constructor].
Defined.

Lemma del_then_get_witness :
  let clock := Fixture.clockAt Fixture.today in
  let w : World := mkWorld Fixture.staleTable [] 0%nat in
  (get DynamoDB.send clock Fixture.config "123+foo"
     (del DynamoDB.send Fixture.config "123+foo" w).2).1
  = Ok JsUndefined.
Proof.
  intros clock w.
  refine (proj1 (proj2
    (del_then_get clock Fixture.config "123+foo" Fixture.expiredKey
       Fixture.staleTable [] 0%nat _))).
  vm_compute. reflexivity.
Defined.

Lemma set_then_get_witness :
  let clock := Fixture.clockAt Fixture.today in
  let w : World := mkWorld (DynamoDB.mkTable ["Id"; "Name"] []) [] 0%nat in
  (get DynamoDB.send clock Fixture.config "123+foo"
     (set DynamoDB.send clock Fixture.config "123+foo" (JsNumber "1000") None
        w).2).1
  = Ok (JsNumber "1000").
Proof.
  intros clock w.
  refine (proj1 (proj2
    (set_then_get clock Fixture.config "123+foo" (JsNumber "1000") None
       "Name" Fixture.expiredKey {[ "data" := AttrN "1000" ]}
       (DynamoDB.mkTable ["Id"; "Name"] []) [] 0%nat
       _ _ _ _ _ _ _ _ _))).
  - reflexivity.
  - done.
  - repeat (apply NoDup_cons_2;
              [rewrite ?not_elem_of_cons; repeat split; try done;
               apply not_elem_of_nil|]).
    apply NoDup_nil_2.
  - reflexivity.
  - by split.
  - vm_compute. reflexivity.
  - vm_compute. lia.
  - vm_compute. reflexivity.
  - vm_compute. reflexivity.
Defined.

Lemma mget_aligned_witness :
  (mget Fixture.throttled (Fixture.clockAt 0) Fixture.config ["123+aaa"]
     (mkWorld 0%nat [] 0%nat)).1 = Ok [JsUndefined]
  ∧ length [JsUndefined] = length ["123+aaa"].
Proof.
  assert ((mget Fixture.throttled (Fixture.clockAt 0) Fixture.config ["123+aaa"]
             (mkWorld 0%nat [] 0%nat)).1 = Ok [JsUndefined]) as H
    by (vm_compute; reflexivity).
  split; [exact H|].
  exact (mget_aligned Fixture.throttled (Fixture.clockAt 0) Fixture.config
           ["123+aaa"] (mkWorld 0%nat [] 0%nat) [JsUndefined] H).
Defined.

Lemma invalid_key_in_batch_witness :
  (mget Fixture.failing (Fixture.clockAt 0) Fixture.config ["123+foo"; "+bar"]
     (mkWorld 0%nat [] 0%nat)).1
  = Throw unsupportedKey.
Proof.
  apply (invalid_key_in_batch Fixture.failing (Fixture.clockAt 0) Fixture.config
           ["123+foo"; "+bar"] (mkWorld 0%nat [] 0%nat)).
  apply Exists_cons_tl, Exists_cons_hd. right. reflexivity.
Defined.

Lemma mget_agrees_with_get_witness :
  let clock := Fixture.clockAt Fixture.today in
  let w : World := mkWorld Fixture.staleTable [] 0%nat in
  (mget DynamoDB.send clock Fixture.config ["123+foo"; "123+bar"] w).1
  = res_mapM (λ key, (get DynamoDB.send clock Fixture.config key w).1)
      ["123+foo"; "123+bar"].
Proof.
  intros clock w.
  refine (mget_agrees_with_get clock Fixture.config "Name" _ _ _
            ["123+foo"; "123+bar"] Fixture.staleTable [] 0%nat _ _ _ _).
  - reflexivity.
  - done.
  - done.
  - reflexivity.
  - constructor; [|constructor]. exists "1". reflexivity.
  - constructor; [|constructor; [|constructor]].
    + exists "123", "foo". by repeat split.
    + exists "123", "bar". by repeat split.
  - repeat (apply NoDup_cons_2;
              [rewrite ?not_elem_of_cons; repeat split; try done;
               apply not_elem_of_nil|]).
    apply NoDup_nil_2.
Defined.

Lemma mset_then_mget_witness :
  let clock := Fixture.clockAt Fixture.today in
  let w : World := mkWorld (DynamoDB.mkTable ["Id"; "Name"] []) [] 0%nat in
  (mget DynamoDB.send clock Fixture.config ["123+foo"; "123+baz"]
     (mset DynamoDB.send clock Fixture.config
        [("123+foo", JsNumber "1000"); ("123+baz", JsNull)] None w).2).1
  = Ok [JsNumber "1000"; JsNull].
Proof.
  intros clock w.
  refine (proj2 (proj2
    (mset_then_mget clock Fixture.config "Name" _ _ _
       [("123+foo", JsNumber "1000"); ("123+baz", JsNull)] None
       (DynamoDB.mkTable ["Id"; "Name"] []) [] 0%nat _ _ _ _ _ _))).
  - reflexivity.
  - done.
  - repeat (apply NoDup_cons_2;
              [rewrite ?not_elem_of_cons; repeat split; try done;
               apply not_elem_of_nil|]).
    apply NoDup_nil_2.
  - reflexivity.
  - constructor.
  - constructor; [|constructor; [|constructor]].
    + split; [by split|]. exists {[ "data" := AttrN "1000" ]}.
      vm_compute. reflexivity.
    + split; [by split|]. exists {[ "data" := AttrNULL ]}.
      vm_compute. reflexivity.
  - constructor; [|constructor; [|constructor]].
    + exists "123", "foo". by repeat split.
    + exists "123", "baz". by repeat split.
  - constructor; [|constructor; [|constructor]]; vm_compute; reflexivity.
  - repeat (apply NoDup_cons_2;
              [rewrite ?not_elem_of_cons; repeat split; try done;
               apply not_elem_of_nil|]).
    apply NoDup_nil_2.
Defined.

Lemma mdel_then_mget_witness :
  let clock := Fixture.clockAt Fixture.today in
  let w : World := mkWorld Fixture.staleTable [] 0%nat in
  (mget DynamoDB.send clock Fixture.config ["123+foo"]
     (mdel DynamoDB.send Fixture.config ["123+foo"] w).2).1
  = Ok [JsUndefined].
Proof.
  intros clock w.
  refine (proj2 (proj2
    (mdel_then_mget clock Fixture.config "Name" _ _ _
       ["123+foo"] Fixture.staleTable [] 0%nat _ _)) _ _).
  - reflexivity.
  - done.
  - done.
  - apply NoDup_cons_2; [apply not_elem_of_nil|apply NoDup_nil_2].
  - constructor; [|constructor]. exists "123", "foo". by repeat split.
  - reflexivity.
  - constructor; [|constructor]. exists "1". reflexivity.
Defined.

Lemma keys_on_table_witness :
  ∃ allKeys,
    (keysOf DynamoDB.send 1 Fixture.config None
       (mkWorld Fixture.staleTable [] 0%nat)).1
    = Ok (Some (Some <$> allKeys))
    ∧ (keysOf DynamoDB.send 1 Fixture.config (Some "123+f*")
         (mkWorld Fixture.staleTable [] 0%nat)).1
      = Ok (Some (Some <$> filter (λ key, String.prefix "123+f" key = true)
                             allKeys)).
Proof.
  destruct (keys_on_table Fixture.config "Name" eq_refl ltac:(done) ltac:(done)
              Fixture.staleTable [] 0%nat 0%nat) as (allKeys & Hall & _ & Hp).
  - constructor; [|constructor]. exists "123", "foo". by repeat split.
  - exists allKeys. split; [exact Hall|].
    apply (Hp "123+f*"); [done|reflexivity|reflexivity].
Defined.

Lemma reset_empties_witness :
  DynamoDB.rows
    (client (reset DynamoDB.send 1 Fixture.config
               (mkWorld Fixture.staleTable [] 0%nat)).2)
  = [].
Proof.
  refine (proj1 (proj2
    (reset_empties (Fixture.clockAt 0) Fixture.config "Name" _ _ _
       Fixture.staleTable [] 0%nat 0%nat _ _))).
  - reflexivity.
  - done.
  - done.
  - reflexivity.
  - constructor; [|constructor]. exists "123", "foo". by repeat split.
Defined.

Lemma keys_follows_cursor_witness :
  (keysOf scripted 2 Fixture.config None
     (mkWorld (paged [([Fixture.expiredRow], Fixture.expiredKey)] []) []
        0%nat)).1
  = Ok (Some [Some "123+foo"]).
Proof.
  refine (proj1
    (keys_follows_cursor Fixture.config None
       [([Fixture.expiredRow], Fixture.expiredKey)] [] [Some "123+foo"]
       (mkCommand ScanCommand (buildScanKeysInput None Fixture.config))
       2 [] 0%nat _ _ _ _)).
  - reflexivity.
  - reflexivity.
  - vm_compute. reflexivity.
  - cbn. lia.
Defined.

Lemma touch_absent_witness :
  let clock := Fixture.clockAt Fixture.today in
  let w : World := mkWorld Fixture.staleTable [] 0%nat in
  let touched := touch DynamoDB.send clock Fixture.config "123+bar" None w in
  (get DynamoDB.send clock Fixture.config "123+bar" touched.2).1
  = Ok JsUndefined
  ∧ (ttlOf DynamoDB.send clock Fixture.config "123+bar" touched.2).1
    = Ok (Some 299999).
Proof.
  intros clock w touched.
  destruct (touch_absent clock Fixture.config "Name" eq_refl ltac:(done)
              ltac:(repeat (apply NoDup_cons_2;
                      [rewrite ?not_elem_of_cons; repeat split; try done;
                       apply not_elem_of_nil|]); apply NoDup_nil_2)
              "123+bar" None
              {[ "Id" := AttrS (Some "123"); "Name" := AttrS (Some "bar") ]}
              Fixture.staleTable [] 0%nat) as (_ & _ & Hg & Ht).
  - reflexivity.
  - exists "123", "bar". by repeat split.
  - vm_compute. reflexivity.
  - vm_compute. reflexivity.
  - split; [exact Hg|]. etrans; [exact Ht|]. vm_compute. reflexivity.
Defined.

Lemma get_without_expiration_witness :
  let attrs : Item :=
    {[ "Id" := AttrS (Some "123"); "Name" := AttrS (Some "foo");
       "data" := AttrN "1000" ]} in
  (get scripted (Fixture.clockAt 0) Fixture.config "123+foo"
     (mkWorld [Ok (mkResponse (Some attrs) None None None None None)] []
        0%nat)).1
  = Throw (readOf "N").
Proof.
  intros attrs.
  refine (proj1
    (get_without_expiration scripted (Fixture.clockAt 0) Fixture.config
       "123+foo"
       (mkWorld [Ok (mkResponse (Some attrs) None None None None None)] []
          0%nat)
       (mkResponse (Some attrs) None None None None None) attrs
       {[ "Id" := JsString "123"; "Name" := JsString "foo";
          "data" := JsNumber "1000" ]}
       _ _ _ _ _)).
  - by split.
  - intros command. reflexivity.
  - reflexivity.
  - vm_compute. reflexivity.
  - vm_compute. reflexivity.
Defined.

Lemma ttl_of_item_witness :
  let attrs : Item := {[ "ExpiresAt" := AttrN "1" ]} in
  (ttlOf scripted (Fixture.clockAt Fixture.today) Fixture.config "123+foo"
     (mkWorld [Ok (mkResponse (Some attrs) None None None None None)] []
        0%nat)).1
  = Ok (Some (-1699999999000)).
Proof.
  intros attrs.
  refine (proj1 (proj2 (proj2
    (ttl_of_item scripted (Fixture.clockAt Fixture.today) Fixture.config
       "123+foo"
       (mkWorld [Ok (mkResponse (Some attrs) None None None None None)] []
          0%nat)
       (mkResponse (Some attrs) None None None None None) attrs
       _ _ _)) "1" _ _)).
  - by split.
  - intros command. reflexivity.
  - reflexivity.
  - vm_compute. reflexivity.
  - done.
Defined.

Lemma mget_misses_longer_key_witness :
  let clock := Fixture.clockAt Fixture.today in
  let w : World := mkWorld Fixture.staleTable [] 0%nat in
  (get DynamoDB.send clock Fixture.config "123+foo+x" w).1
  = Ok (JsNumber "1000")
  ∧ (mget DynamoDB.send clock Fixture.config ["123+foo+x"] w).1
    = Ok [JsUndefined].
Proof.
  intros clock w.
  refine (mget_misses_longer_key clock Fixture.config "Name" _ _ _
            "123" "foo" "x" Fixture.expiredRow Fixture.expiredRecord
            Fixture.staleTable [] 0%nat _ _ _ _ _ _).
  - reflexivity.
  - done.
  - done.
  - reflexivity.
  - by split.
  - by split.
  - vm_compute. reflexivity.
  - exists "1". reflexivity.
  - vm_compute. reflexivity.
Defined.
